(** * dfp-playground: the admission and conflict-release core of [dfpFiles/adSlot.js]

    A shallow embedding of the [AdSlot] and [AdManager] classes: the slot
    ordering comparator, the interstitial throttle policies, the admission
    gate [shouldSendRequestToDfp] with its predicates, the definition,
    showing and refreshing of slots, and the release of deferred slots after
    a render outcome.

    JavaScript objects become records, [AdSlot] objects live in a store and
    are passed by reference, [Map] becomes [gmap], the insertion-ordered [Set]
    of deferred ids becomes a list, methods that only read become
    computations in [P] (events and a value or an exception) and methods that
    write become computations in the state-and-exception monad [M].  Calls
    into the ad backend are recorded as events with the id of the slot; the
    paths, sizes and targeting values they carry are left out. *)

From Stdlib Require Import String Ascii ZArith QArith List Bool Lia Permutation Sorted.
From stdpp Require Import base option gmap strings list.

Local Open Scope Z_scope.

(** ** JavaScript values that the gate can return *)

(** [shouldSendRequestToDfp] returns the value of a [&&] chain, or [null]
    from its [catch]: the operand values matter, not only their truthiness. *)
Inductive value :=
| VUndefined
| VNull
| VBool (b : bool)
| VNum (n : Z)
| VStr (s : string)
| VObj.

Definition truthy (v : value) : bool :=
  match v with
  | VUndefined | VNull => false
  | VBool b => b
  | VNum n => negb (n =? 0)
  | VStr s => negb (String.eqb s "")
  | VObj => true
  end.

(** ** Strings: [includes], [indexOf], [<] *)

Definition indexOf (s key : string) : Z :=
  match String.index 0 key s with
  | Some n => Z.of_nat n
  | None => -1
  end.

Definition includes (s key : string) : bool :=
  match String.index 0 key s with
  | Some _ => true
  | None => false
  end.

Definition str_lt (a b : string) : bool :=
  match String.compare a b with Lt => true | _ => false end.

Definition str_gt (a b : string) : bool :=
  match String.compare a b with Gt => true | _ => false end.

(** ** Exceptions and outcomes *)

Inductive exn :=
| TypeError (what : string)
| Error (msg : string).

Inductive outcome (A : Type) :=
| Ret (a : A)
| Throw (e : exn).
Arguments Ret {A} a.
Arguments Throw {A} e.

(** ** Module constants *)

Module adTypes.
Definition maavaron := ".maavaron".
Definition interstitial := ".new_interstitial".
Definition interstitialSmall := ".interstitial.mobile".
Definition interstitialFull := ".full_interstitial.mobile".
Definition popunder := ".popunder".
Definition talkback := ".talkback".
Definition regular := "regular".
End adTypes.

Module adTargets.
Definition all := "all".
Definition nonPaying := "nonPaying".
Definition anonymous := "anonymous".
Definition registered := "registered".
Definition paying := "paying".
Definition digitalOnly := "digitalOnly".
Definition digitalAndPrint := "digitalAndPrint".
End adTargets.

(** [UserTypes] comes from an external package; the three classifications
    the targeting switch compares against. *)
Module UserTypes.
Definition anonymous := "anonymous".
Definition registered := "registered".
Definition paying := "paying".
End UserTypes.

(** [GOOGLE_INTERSTITIAL_TIME = 1.05], [GOOGLE_INTERSTITIAL_MIN_TIME = 3 / 3600]
    (both in hours) and [HOUR_IN_MILLISECONDS = 36e5].  Date differences are
    whole milliseconds, and for whole milliseconds the double comparisons of
    the source agree with the exact rational ones: the only quotients that
    round to a constant are the ones equal to it. *)
Definition GOOGLE_INTERSTITIAL_TIME : Q := 105 # 100.
Definition GOOGLE_INTERSTITIAL_MIN_TIME : Q := 3 # 3600.
Definition HOUR_IN_MILLISECONDS : Q := 3600000 # 1.

Definition Qlt_bool (x y : Q) : bool := negb (Qle_bool y x).

(** ** The comparator [sortSlots] *)

(** [First[0]] is [undefined] for the empty string, and calling [includes]
    on it is a [TypeError]. *)
Definition firstChar (s : string) : option string :=
  match s with
  | EmptyString => None
  | String c _ => Some (String c EmptyString)
  end.

Definition sortSlots (First Second : string) : outcome Z :=
  let key := "billboard" in
  if includes First key && includes Second key then
    let result := indexOf First key - indexOf Second key in
    if negb (result =? 0) then Ret result
    else if str_lt First Second then Ret (-1)
    else if str_gt First Second then Ret 1
    else Ret 0
  else if includes First key && negb (includes Second key) then Ret (-1)
  else
    match firstChar First with
    | None =>
        (* [!First[0].includes(key)] is evaluated before [Second.includes(key)] *)
        Throw (TypeError "First[0] is undefined")
    | Some c =>
        if negb (includes c key) && includes Second key then Ret 1 else Ret 0
    end.

(** [Array.prototype.sort] with a comparator: a stable insertion sort ([x]
    comes from before the elements it is inserted into, so it stays in front
    of the ones it ties with); an exception of the comparator aborts the
    sort. *)
Fixpoint insertBy (cmp : string -> string -> outcome Z) (x : string) (l : list string)
  : outcome (list string) :=
  match l with
  | [] => Ret [x]
  | y :: l' =>
      match cmp x y with
      | Throw e => Throw e
      | Ret c =>
          if c <=? 0 then Ret (x :: y :: l')
          else match insertBy cmp x l' with
               | Throw e => Throw e
               | Ret r => Ret (y :: r)
               end
      end
  end.

Fixpoint sortBy (cmp : string -> string -> outcome Z) (l : list string)
  : outcome (list string) :=
  match l with
  | [] => Ret []
  | x :: l' =>
      match sortBy cmp l' with
      | Throw e => Throw e
      | Ret r => insertBy cmp x r
      end
  end.

(** What [includes] and [indexOf] are read against: [key] occurs in [s] at
    position [m], and [m] is the position of its first occurrence. *)
Definition occursAt (key s : string) (m : nat) : Prop :=
  substring m (String.length key) s = key.

Definition firstAt (key s : string) (m : nat) : Prop :=
  occursAt key s m /\ forall p, (p < m)%nat -> ~ occursAt key s p.

(** Two ids that hold the keyword at different positions, the later one
    first as a string. *)
Definition positioned_ids : list string := ["ab.billboard"; "x.billboard"; "z.other"].
Definition positioned_sorted : list string := ["x.billboard"; "ab.billboard"; "z.other"].

(** [a] may stand before [b] in an array sorted with [sortSlots]. *)
Definition mayPrecede (a b : string) : Prop :=
  exists c, sortSlots a b = Ret c /\ c <= 0.

(** ** Slots *)

(** One size of a size mapping: [[300, 250]], the string ['fluid'] or the
    array [['fluid']]. *)
Inductive sizeItem :=
| Dims (l : list Z)
| Fluid
| FluidArr.

(** The value stored under a breakpoint name of [responsiveAdSizeMapping]. *)
Inductive mappingEntry :=
| NotAnArray
| Sizes (l : list sizeItem).

(** What a render outcome resolves a slot with: [ConflictResolver.EMPTY_SIZE]
    or the size of the creative. *)
Inductive resolvedSize :=
| EMPTY_SIZE
| Resolved (w h : Z).

(** What [defineSlot] returns: the slot itself when the gate refuses, the
    backend's slot, its passback slot, or [null]. *)
Inductive defined :=
| DThis
| DSlot
| DPassback
| DNull.

(** A DOM element, as far as the slot logic reads it: its [data-audtarget]
    attribute. *)
Record element := { audtarget : option string }.

Record AdSlot := {
  id : string;
  target : string;
  type : option string;          (* [None]: [undefined] *)
  responsive : bool;
  fluid : bool;
  htmlElement : option element;
  priority : string;
  deferredSlot : bool;
  responsiveAdSizeMapping : option (list (string * mappingEntry));
  blacklistReferrers : list string;
  whitelistReferrers : list string;
  shown : bool;
  lastResolvedSize : option resolvedSize;
  lastResolvedWithBreakpoint : option Z;
  slot : option defined;         (* [this.slot]; [None]: [undefined] *)
}.

Definition set_htmlElement (e : option element) (s : AdSlot) : AdSlot :=
  {| id := id s; target := target s; type := type s; responsive := responsive s;
     fluid := fluid s; htmlElement := e; priority := priority s;
     deferredSlot := deferredSlot s;
     responsiveAdSizeMapping := responsiveAdSizeMapping s;
     blacklistReferrers := blacklistReferrers s;
     whitelistReferrers := whitelistReferrers s; shown := shown s;
     lastResolvedSize := lastResolvedSize s;
     lastResolvedWithBreakpoint := lastResolvedWithBreakpoint s;
     slot := slot s |}.

Definition set_target (t : string) (s : AdSlot) : AdSlot :=
  {| id := id s; target := t; type := type s; responsive := responsive s;
     fluid := fluid s; htmlElement := htmlElement s; priority := priority s;
     deferredSlot := deferredSlot s;
     responsiveAdSizeMapping := responsiveAdSizeMapping s;
     blacklistReferrers := blacklistReferrers s;
     whitelistReferrers := whitelistReferrers s; shown := shown s;
     lastResolvedSize := lastResolvedSize s;
     lastResolvedWithBreakpoint := lastResolvedWithBreakpoint s;
     slot := slot s |}.

Definition set_deferredSlot (b : bool) (s : AdSlot) : AdSlot :=
  {| id := id s; target := target s; type := type s; responsive := responsive s;
     fluid := fluid s; htmlElement := htmlElement s; priority := priority s;
     deferredSlot := b;
     responsiveAdSizeMapping := responsiveAdSizeMapping s;
     blacklistReferrers := blacklistReferrers s;
     whitelistReferrers := whitelistReferrers s; shown := shown s;
     lastResolvedSize := lastResolvedSize s;
     lastResolvedWithBreakpoint := lastResolvedWithBreakpoint s;
     slot := slot s |}.

Definition set_mapping (m : option (list (string * mappingEntry))) (s : AdSlot) : AdSlot :=
  {| id := id s; target := target s; type := type s; responsive := responsive s;
     fluid := fluid s; htmlElement := htmlElement s; priority := priority s;
     deferredSlot := deferredSlot s;
     responsiveAdSizeMapping := m;
     blacklistReferrers := blacklistReferrers s;
     whitelistReferrers := whitelistReferrers s; shown := shown s;
     lastResolvedSize := lastResolvedSize s;
     lastResolvedWithBreakpoint := lastResolvedWithBreakpoint s;
     slot := slot s |}.

Definition set_shown (b : bool) (s : AdSlot) : AdSlot :=
  {| id := id s; target := target s; type := type s; responsive := responsive s;
     fluid := fluid s; htmlElement := htmlElement s; priority := priority s;
     deferredSlot := deferredSlot s;
     responsiveAdSizeMapping := responsiveAdSizeMapping s;
     blacklistReferrers := blacklistReferrers s;
     whitelistReferrers := whitelistReferrers s; shown := b;
     lastResolvedSize := lastResolvedSize s;
     lastResolvedWithBreakpoint := lastResolvedWithBreakpoint s;
     slot := slot s |}.

Definition set_lastResolved (sz : option resolvedSize) (bp : option Z) (s : AdSlot) : AdSlot :=
  {| id := id s; target := target s; type := type s; responsive := responsive s;
     fluid := fluid s; htmlElement := htmlElement s; priority := priority s;
     deferredSlot := deferredSlot s;
     responsiveAdSizeMapping := responsiveAdSizeMapping s;
     blacklistReferrers := blacklistReferrers s;
     whitelistReferrers := whitelistReferrers s; shown := shown s;
     lastResolvedSize := sz;
     lastResolvedWithBreakpoint := bp;
     slot := slot s |}.

(** [this.slot = d] *)
Definition set_slot (d : option defined) (s : AdSlot) : AdSlot :=
  {| id := id s; target := target s; type := type s; responsive := responsive s;
     fluid := fluid s; htmlElement := htmlElement s; priority := priority s;
     deferredSlot := deferredSlot s;
     responsiveAdSizeMapping := responsiveAdSizeMapping s;
     blacklistReferrers := blacklistReferrers s;
     whitelistReferrers := whitelistReferrers s; shown := shown s;
     lastResolvedSize := lastResolvedSize s;
     lastResolvedWithBreakpoint := lastResolvedWithBreakpoint s;
     slot := d |}.

(** ** The durable records *)

(** The JSON object kept under [INTERSTITIAL_DFP_KEY] in [localStorage], as
    [setInterstitialShowingData] writes it.  [attempt] is a count: a double
    that holds an integer ([None]: no such field).  [showTime] is the ISO
    string of a date, kept here as the time value [new Date(showTime)] reads
    back ([None] inside: an invalid date; [None] outside: not a string). *)
Record throttleRecord := {
  attempt : option Z;
  showTime : option (option Z);
}.

(** What [localStorage.getItem(INTERSTITIAL_DFP_KEY)] returns when it is a
    string that is not empty.  [null] and the empty string are both [None] of
    [option storedItem]: every reader tests [!item] before it parses.  The
    key is written by [setInterstitialShowingData] only, as an object; the
    one text this type leaves out is [null], which parses to [null] and on
    which the first read of a field throws. *)
Inductive storedItem :=
| Malformed                      (* text that [JSON.parse] rejects *)
| Stored (r : throttleRecord).   (* text that parses; a number, a string, a
                                    boolean or an array has neither field *)

(** The sum of two doubles that hold integers is the integer sum rounded to
    the nearest double, ties to the even mantissa: exact up to [2 ^ 53], and
    from there on a multiple of the spacing [2 ^ (log2 |x| - 52)]. *)
Definition toDouble (x : Z) : Z :=
  if Z.abs x <=? 2 ^ 53 then x
  else
    let u := 2 ^ (Z.log2 (Z.abs x) - 52) in
    let q := x / u in
    let r := x mod u in
    if 2 * r <? u then q * u
    else if u <? 2 * r then (q + 1) * u
    else if Z.even q then q * u else (q + 1) * u.

(** [x + 1] on a count. *)
Definition addOne (x : Z) : Z := toDouble (x + 1).

(** A field of a parsed JSON object: missing, [null], or a value of the type
    the paywall code writes there; a field of another JSON type is not
    modelled. *)
Inductive jsonField (A : Type) :=
| FMissing
| FNull
| FVal (a : A).
Arguments FMissing {A}.
Arguments FNull {A}.
Arguments FVal {A} a.

(** The purchase-funnel object kept under [_cobj]: no item or one that parses
    to a falsy value, text that does not parse, or an object with its counter
    [mc] and its [nextslotLocation]. *)
Inductive cobjItem :=
| CobjAbsent
| CobjMalformed
| Cobj (mc : jsonField Z) (nextslotLocation : jsonField string).

(** ** The page around the manager *)

(** What the manager reads and never writes. *)
Record env := {
  isReadyToRenderExternals : bool;
  isWebView : bool;
  siteNumber : Z;
  mobileUserAgent : bool;                (* the user-agent test of [AdSlot.isMobile] *)
  getElementById : string -> option element;
  documentReferrer : string;             (* [document.referrer] *)
  referrer : string;                     (* [globalConfig.referrer] *)
  userType : string;                     (* [this.user.type] *)
  ssoUserName : string;                  (* the user name of the sso cookie, [''] without one *)
  cookieUser : bool;                     (* [cookieMap.user] is set and the api is ready *)
  now : Z;                               (* [new Date()], in milliseconds *)
  site : string;                         (* [config.site] *)
  adBlockRemoved : bool;
  isValidForsmartPhone : bool;
  cobj : cobjItem;
  currentBreakpoint : Z;                 (* [getBreakpoint(breakpoints)] *)
  getBreakpointName : Z -> string;
  gptDefines : string -> bool;           (* does the backend hand out a slot for this id *)
  DEBUG : bool;
}.

(** Calls and effects in the order they happen.  [Invoked] records that a
    method was entered; the others are what leaves the manager. *)
Inductive event :=
| Invoked (method : string) (arg : string)
| ConsoleError (msg : string)
| ConsoleLog (msg : string)
| Gpt (call : string) (arg : string).

(** The interface of the conflict resolver (its class lives in
    [conflictResolver.js]); its [deferredSlots] set is kept in [world]. *)
Class ConflictResolver (CR : Type) := {
  updateResolvedSlot : CR -> string -> option resolvedSize -> outcome CR;
  isBlocking : CR -> string -> outcome bool;
  getBlockedSlotsIds : CR -> string -> outcome (list string);
  isBlocked : CR -> string -> outcome bool;
}.

(** [AdSlot] objects live in a store and are passed by reference: the
    registry, the deferred loop and the slot's own methods all see one
    object. *)
Definition ref := nat.

(** What the manager and its collaborators write. *)
Record world (CR : Type) := {
  heap : ref -> AdSlot;
  adSlots : gmap string ref;             (* [this.adSlots] *)
  conflictResolver : CR;
  deferredSlots : list string;           (* [conflictResolver.deferredSlots] *)
  sessionItem : option string;           (* [sessionStorage[INTERSTITIAL_DFP_KEY]] *)
  localItem : option storedItem;         (* [localStorage[INTERSTITIAL_DFP_KEY]] *)
  interstitialTimeoutMultiplier : Z;
  timers : list (Z * option Z);          (* pending [setTimeout]s: delay, [now] argument *)
  trace : list event;
}.
Arguments heap {CR} w.
Arguments adSlots {CR} w.
Arguments conflictResolver {CR} w.
Arguments deferredSlots {CR} w.
Arguments sessionItem {CR} w.
Arguments localItem {CR} w.
Arguments interstitialTimeoutMultiplier {CR} w.
Arguments timers {CR} w.
Arguments trace {CR} w.

(** What the read-only methods see of the world. *)
Record view (CR : Type) := {
  v_resolver : CR;
  v_localItem : option storedItem;
}.
Arguments v_resolver {CR} v.
Arguments v_localItem {CR} v.

(** ** Two monads *)

(** [P]: a method that only reads: it yields the events it emits and a
    value or an exception. *)
Definition P (CR A : Type) : Type := view CR -> list event * outcome A.

(** [M]: a method that writes the world; what was written before an
    exception stays written. *)
Definition M (CR A : Type) : Type := world CR -> outcome A * world CR.

#[global] Instance P_ret {CR} : MRet (P CR) := fun A a _ => ([], Ret a).
#[global] Instance P_bind {CR} : MBind (P CR) := fun A B f p v =>
  match p v with
  | (l1, Ret a) => match f a v with (l2, o) => (l1 ++ l2, o) end
  | (l1, Throw e) => (l1, Throw e)
  end.

#[global] Instance M_ret {CR} : MRet (M CR) := fun A a w => (Ret a, w).
#[global] Instance M_bind {CR} : MBind (M CR) := fun A B f m w =>
  match m w with
  | (Ret a, w') => f a w'
  | (Throw e, w') => (Throw e, w')
  end.

Section Monads.
Context {CR : Type}.

Definition throwP {A} (e : exn) : P CR A := fun _ => ([], Throw e).
Definition logP (ev : event) : P CR unit := fun _ => ([ev], Ret tt).
Definition askP {A} (f : view CR -> A) : P CR A := fun v => ([], Ret (f v)).
Definition outcomeP {A} (o : outcome A) : P CR A := fun _ => ([], o).
Definition tryCatchP {A} (p : P CR A) (h : exn -> P CR A) : P CR A := fun v =>
  match p v with
  | (l1, Ret a) => (l1, Ret a)
  | (l1, Throw e) => match h e v with (l2, o) => (l1 ++ l2, o) end
  end.

Definition throwM {A} (e : exn) : M CR A := fun w => (Throw e, w).
Definition gets {A} (f : world CR -> A) : M CR A := fun w => (Ret (f w), w).
Definition modify (f : world CR -> world CR) : M CR unit := fun w => (Ret tt, f w).
Definition outcomeM {A} (o : outcome A) : M CR A := fun w => (o, w).
Definition tryCatchM {A} (m : M CR A) (h : exn -> M CR A) : M CR A := fun w =>
  match m w with
  | (Ret a, w') => (Ret a, w')
  | (Throw e, w') => h e w'
  end.

Definition emit (l : list event) (w : world CR) : world CR :=
  {| heap := heap w; adSlots := adSlots w; conflictResolver := conflictResolver w;
     deferredSlots := deferredSlots w; sessionItem := sessionItem w;
     localItem := localItem w;
     interstitialTimeoutMultiplier := interstitialTimeoutMultiplier w;
     timers := timers w; trace := trace w ++ l |}.

Definition logM (ev : event) : M CR unit := modify (emit [ev]).

Definition view_of (w : world CR) : view CR :=
  {| v_resolver := conflictResolver w; v_localItem := localItem w |}.

(** Running a read-only method in the world. *)
Definition liftP {A} (p : P CR A) : M CR A := fun w =>
  match p (view_of w) with (l, o) => (o, emit l w) end.

Definition set_heap (r : ref) (s : AdSlot) (w : world CR) : world CR :=
  {| heap := fun r' => if Nat.eqb r' r then s else heap w r';
     adSlots := adSlots w; conflictResolver := conflictResolver w;
     deferredSlots := deferredSlots w; sessionItem := sessionItem w;
     localItem := localItem w;
     interstitialTimeoutMultiplier := interstitialTimeoutMultiplier w;
     timers := timers w; trace := trace w |}.

Definition set_adSlots (m : gmap string ref) (w : world CR) : world CR :=
  {| heap := heap w; adSlots := m; conflictResolver := conflictResolver w;
     deferredSlots := deferredSlots w; sessionItem := sessionItem w;
     localItem := localItem w;
     interstitialTimeoutMultiplier := interstitialTimeoutMultiplier w;
     timers := timers w; trace := trace w |}.

Definition set_conflictResolver (c : CR) (w : world CR) : world CR :=
  {| heap := heap w; adSlots := adSlots w; conflictResolver := c;
     deferredSlots := deferredSlots w; sessionItem := sessionItem w;
     localItem := localItem w;
     interstitialTimeoutMultiplier := interstitialTimeoutMultiplier w;
     timers := timers w; trace := trace w |}.

Definition set_deferredSlots (d : list string) (w : world CR) : world CR :=
  {| heap := heap w; adSlots := adSlots w; conflictResolver := conflictResolver w;
     deferredSlots := d; sessionItem := sessionItem w;
     localItem := localItem w;
     interstitialTimeoutMultiplier := interstitialTimeoutMultiplier w;
     timers := timers w; trace := trace w |}.

Definition set_sessionItem (i : option string) (w : world CR) : world CR :=
  {| heap := heap w; adSlots := adSlots w; conflictResolver := conflictResolver w;
     deferredSlots := deferredSlots w; sessionItem := i;
     localItem := localItem w;
     interstitialTimeoutMultiplier := interstitialTimeoutMultiplier w;
     timers := timers w; trace := trace w |}.

Definition set_localItem (i : option storedItem) (w : world CR) : world CR :=
  {| heap := heap w; adSlots := adSlots w; conflictResolver := conflictResolver w;
     deferredSlots := deferredSlots w; sessionItem := sessionItem w;
     localItem := i;
     interstitialTimeoutMultiplier := interstitialTimeoutMultiplier w;
     timers := timers w; trace := trace w |}.

(** [setTimeout(cb, delay)] followed by the increment of the multiplier. *)
Definition set_timer (t : Z * option Z) (w : world CR) : world CR :=
  {| heap := heap w; adSlots := adSlots w; conflictResolver := conflictResolver w;
     deferredSlots := deferredSlots w; sessionItem := sessionItem w;
     localItem := localItem w;
     interstitialTimeoutMultiplier := interstitialTimeoutMultiplier w + 1;
     timers := timers w ++ [t]; trace := trace w |}.

(** The slot behind a reference changes in place. *)
Definition update (r : ref) (f : AdSlot -> AdSlot) : M CR unit :=
  modify (fun w => set_heap r (f (heap w r)) w).

Definition skip : M CR unit := mret tt.

(** [for (const x of xs) body(x)] *)
Fixpoint forOf {A} (xs : list A) (body : A -> M CR unit) : M CR unit :=
  match xs with
  | [] => skip
  | x :: xs' => body x ;; forOf xs' body
  end.
End Monads.

(** ** The methods of [AdSlot] and [AdManager] *)

Section Methods.
Context {CR : Type} `{!ConflictResolver CR}.
Variable E : env.

Definition isTM : bool := (siteNumber E =? 10) || (siteNumber E =? 20).
Definition isHDC : bool := siteNumber E =? 85.
Definition isHTZ : bool := negb isTM && negb isHDC.

Definition typeIs (s : AdSlot) (t : string) : bool :=
  match type s with Some t' => String.eqb t' t | None => false end.

(** A call of a method, entered in the trace. *)
Definition callP {A} (method arg : string) (p : P CR A) : P CR A :=
  logP (Invoked method arg) ;; p.
Definition callM {A} (method arg : string) (m : M CR A) : M CR A :=
  logM (Invoked method arg) ;; m.

(** *** AdSlot: the kind of a slot *)

Definition isMobile : bool := mobileUserAgent E.

Definition isOutOfPage (s : AdSlot) : P CR bool :=
  match type s with
  | None => throwP (TypeError "this.type is undefined")
  | Some t =>
      if isMobile then mret (String.eqb t adTypes.interstitial)
      else if String.eqb t adTypes.maavaron then mret false
      else if String.eqb t adTypes.popunder then mret true
      else if String.eqb t adTypes.talkback then mret false
      else if String.eqb t adTypes.regular then mret false
      else mret false
  end.

Definition isMaavaron (s : AdSlot) : P CR bool :=
  match type s with
  | None => throwP (Error "An adSlot cannot by typeless!")
  | Some t =>
      if isMobile then mret false
      else if String.eqb t adTypes.maavaron then mret false
      else mret false
  end.

Definition isInterstitial (s : AdSlot) : P CR bool :=
  match type s with
  | None => throwP (Error "An adSlot cannot by typeless!")
  | Some t =>
      if isMobile then mret (String.eqb t adTypes.interstitial)
      else mret false
  end.

(** *** AdSlot: referrer lists *)

(** The [for ... of] loop with its [break]. *)
Fixpoint referrerListed (l : list string) : bool :=
  match l with
  | [] => false
  | r :: l' => if -1 <? indexOf (referrer E) r then true else referrerListed l'
  end.

Definition isWhitelisted (s : AdSlot) : bool :=
  if negb (Nat.eqb (length (whitelistReferrers s)) 0)
  then referrerListed (whitelistReferrers s)
  else true.

Definition isBlacklisted (s : AdSlot) : bool :=
  if negb (Nat.eqb (length (blacklistReferrers s)) 0)
  then referrerListed (blacklistReferrers s)
  else false.

(** *** AdManager: the interstitial throttle *)

Definition isReferrerOfHaaretz : bool :=
  includes (documentReferrer E) "haaretz.co"
  || includes (documentReferrer E) "themarker.com".

Definition userIsPaying : bool := String.eqb (userType E) adTargets.paying.

Definition emptyRecord : throttleRecord := {| attempt := None; showTime := None |}.

Definition getParsed (value : option storedItem) : P CR throttleRecord :=
  match value with
  | None => mret emptyRecord
  | Some Malformed => logP (ConsoleError "JSON.parse") ;; mret emptyRecord
  | Some (Stored r) => mret r
  end.

(** [Math.abs(now - new Date(showTime)) / HOUR_IN_MILLISECONDS] *)
Definition hoursBetween (now t : Z) : Q :=
  (inject_Z (Z.abs (now - t)) / HOUR_IN_MILLISECONDS)%Q.

(** [time < GOOGLE_INTERSTITIAL_TIME && time > GOOGLE_INTERSTITIAL_MIN_TIME];
    an invalid date makes [time] NaN and both comparisons false. *)
Definition inWindow (now : Z) (t : option Z) : bool :=
  match t with
  | None => false
  | Some t =>
      Qlt_bool (hoursBetween now t) GOOGLE_INTERSTITIAL_TIME
      && Qlt_bool GOOGLE_INTERSTITIAL_MIN_TIME (hoursBetween now t)
  end.

(** [attempt < n] on a number that may be missing ([undefined < n] is false). *)
Definition attemptBelow (a : option Z) (n : Z) : bool :=
  match a with Some a => a <? n | None => false end.

(** [!itemParsed.attempt] *)
Definition noAttempt (a : option Z) : bool :=
  match a with Some a => a =? 0 | None => true end.

Definition shouldDisplayInterstitialFull (id : string) (now : Z) : P CR value :=
  item ← askP v_localItem;
  if negb (includes id adTypes.interstitialFull)
     || negb isReferrerOfHaaretz
     || userIsPaying
     || negb (bool_decide (is_Some item))
     || negb (isReadyToRenderExternals E)
  then mret (VBool false)
  else
    itemParsed ← getParsed item;
    match showTime itemParsed with
    | Some t =>
        if attemptBelow (attempt itemParsed) 3 then mret (VBool false)
        else mret (VBool (inWindow now t))
    | None => mret VUndefined
    end.

(** [setTimeout(..., this.interstitialTimeoutMultiplier * 100)] and the
    increment of the multiplier; the callback is [interstitialTimerFired]. *)
Definition setInterstitialShowingData (now : option Z) : M CR unit :=
  modify (fun w => set_timer (interstitialTimeoutMultiplier w * 100, now) w).

Definition interstitialTimerFired (now : option Z) : M CR unit :=
  item ← gets localItem;
  itemParsed ← liftP (getParsed item);
  let attempt' :=
    match item with
    | Some _ => addOne (if noAttempt (attempt itemParsed) then 0
                        else default 0 (attempt itemParsed))
    | None => 1
    end in
  let showTime' :=
    match item with Some _ => showTime itemParsed | None => None end in
  modify (set_localItem (Some (Stored
    match now with
    | Some t => {| attempt := Some attempt'; showTime := Some (Some t) |}
    | None => {| attempt := Some attempt'; showTime := showTime' |}
    end))).

(** [!item] on what [sessionStorage.getItem] returns. *)
Definition noSessionItem (item : option string) : bool :=
  match item with
  | None => true
  | Some s => String.eqb s ""
  end.

Definition shouldDisplayInterstitialSmall (id : string) : M CR bool :=
  if includes id adTypes.interstitialSmall then
    if userIsPaying then
      item ← gets sessionItem;
      modify (set_sessionItem (Some "true")) ;;
      mret (noSessionItem item)
    else
      item ← gets localItem;
      if negb (bool_decide (is_Some item)) || negb isReferrerOfHaaretz then mret true
      else
        itemParsed ← liftP (getParsed item);
        if noAttempt (attempt itemParsed) || attemptBelow (attempt itemParsed) 2
        then mret true
        else setInterstitialShowingData None ;; mret false
  else mret false.

Definition isGoogleInterstitial (s : AdSlot) : P CR bool :=
  match type s with
  | None => throwP (TypeError "adSlot.type is undefined")
  | Some t => mret (includes t adTypes.interstitial)
  end.

Definition googleInterstitialShouldDisplay (s : AdSlot) : P CR bool :=
  g ← isGoogleInterstitial s;
  if negb g then mret true
  else
    item ← askP v_localItem;
    match item with
    | Some _ =>
        itemParsed ← getParsed item;
        match showTime itemParsed with
        | Some t => mret (negb (inWindow (now E) t))
        | None => mret true
        end
    | None => mret true
    end.

(** *** AdManager: the other predicates of the gate *)

Definition shouldDisplayAdAfterAdBlockRemoval (s : AdSlot) : bool :=
  negb (adBlockRemoved E
        && (typeIs s adTypes.maavaron || typeIs s adTypes.popunder)).

(** [a || b] and [a && b] on values. *)
Definition orV (a b : value) : value := if truthy a then a else b.
Definition andV (a b : value) : value := if truthy a then b else a.

Definition shouldDisplayAdMaavaronAfterPayWallBanner (s : AdSlot) : P CR value :=
  if String.eqb (site E) "haaretz" && typeIs s adTypes.maavaron then
    match cobj E with
    | CobjAbsent => mret (VBool true)
    | CobjMalformed =>
        logP (ConsoleError "ERROR ON shouldDisplayAdMaavaronAfterPayWallBanner") ;;
        mret (VBool true)
    | Cobj mc nextslotLocation =>
        let mcV :=
          match mc with
          | FVal n => VNum n
          | FNull => VNull
          | FMissing => VUndefined
          end in
        let mcOk := match mc with FVal n => VBool (12 <=? n) | _ => VBool false end in
        let locV :=
          match nextslotLocation with
          | FVal l => VStr l
          | FNull => VNull
          | FMissing => VUndefined
          end in
        let locOk :=
          match nextslotLocation with
          | FVal l => VBool (negb (includes l "pop"))
          | _ => VBool false
          end in
        mret (orV (VBool false) (orV (andV mcV mcOk) (andV locV locOk)))
    end
  else mret (VBool true).

Definition shouldDisplayAdInWebView (s : AdSlot) : bool :=
  let adExceptions :=
    ["interstitial"]
    ++ (if isWebView E
        then if isHTZ then ["inread"; "textlink"] else ["inread.2"; "inread.3"]
        else []) in
  negb (isWebView E)
  || forallb (fun ad => negb (includes (id s) ad)) adExceptions.

Definition haveValidCookieForSmartphoneapp : bool := isValidForsmartPhone E.

(** The gate passes the slot, whose [target] the method reads. *)
Definition doesUserTypeMatchBannerTargeting (adTarget : string) : bool :=
  if String.eqb (ssoUserName E) "pilosmadar@gmail.com" then true
  else if String.eqb adTarget adTargets.all then true
  else if String.eqb adTarget adTargets.nonPaying then
    String.eqb (userType E) UserTypes.anonymous
    || String.eqb (userType E) UserTypes.registered
  else if String.eqb adTarget adTargets.anonymous then
    String.eqb (userType E) UserTypes.anonymous
  else if String.eqb adTarget adTargets.registered then
    String.eqb (userType E) UserTypes.registered
  else if String.eqb adTarget adTargets.paying then
    String.eqb (userType E) UserTypes.paying
  else if String.eqb adTarget adTargets.digitalOnly then
    String.eqb (userType E) UserTypes.paying
  else if String.eqb adTarget adTargets.digitalAndPrint then
    String.eqb (userType E) UserTypes.paying
  else false.

(** [obj[key]] on an object kept as its list of entries. *)
Fixpoint entryOf (key : string) (m : list (string * mappingEntry)) : option mappingEntry :=
  match m with
  | [] => None
  | (k, e) :: m' => if String.eqb k key then Some e else entryOf key m'
  end.

(** [isEqual(mapping, [[0, 0]])] *)
Definition isZeroSize (l : list sizeItem) : bool :=
  match l with
  | [Dims [0; 0]] => true
  | _ => false
  end.

Definition doesBreakpointContainAd (adSlot : option AdSlot) (breakpoint : Z) : P CR bool :=
  match adSlot with
  | None =>
      throwP (Error "Missing argument: a call to doesBreakpointContainAd must have an adSlot")
  | Some s =>
      if responsive s then
        match responsiveAdSizeMapping s with
        | None => throwP (TypeError "responsiveAdSizeMapping is undefined")
        | Some m =>
            match entryOf (getBreakpointName E breakpoint) m with
            | Some (Sizes mapping) =>
                mret ((0 <? length mapping)%nat && negb (isZeroSize mapping))
            | _ => throwP (Error "Invalid argument: breakpoint doesn't exist!")
            end
        end
      else mret true
  end.

(** *** The admission gate *)

(** [p && q]: the value of [p] when it is falsy, else the value of [q],
    which is not evaluated in the first case. *)
Definition andThen (p q : P CR value) : P CR value :=
  v ← p; if truthy v then q else mret v.
Infix "<&&>" := andThen (at level 41, right associativity).

Definition asValue (p : P CR bool) : P CR value := b ← p; mret (VBool b).
Definition isFalse (p : P CR bool) : P CR value := b ← p; mret (VBool (negb b)).

(** The expression inside the [try] of [shouldSendRequestToDfp]. *)
Definition gateP (adSlot : option AdSlot) : P CR value :=
  match adSlot with
  | None => mret (VBool false)
  | Some s =>
      mret (VBool true)
      <&&> mret (VBool (isReadyToRenderExternals E))
      <&&> mret (match htmlElement s with
                | Some _ => VObj
                | None => VBool (negb (isWebView E) && typeIs s adTypes.interstitial)
                end)
      <&&> callP "googleInterstitialShouldDisplay" (id s)
            (asValue (googleInterstitialShouldDisplay s))
      <&&> callP "conflictResolver.isBlocked" (id s)
            (isFalse (cr ← askP v_resolver; outcomeP (isBlocked cr (id s))))
      <&&> callP "isWhitelisted" (id s) (mret (VBool (isWhitelisted s)))
      <&&> callP "isBlacklisted" (id s) (mret (VBool (negb (isBlacklisted s))))
      <&&> callP "shouldDisplayAdInWebView" (id s)
            (mret (VBool (shouldDisplayAdInWebView s)))
      <&&> callP "shouldDisplayAdAfterAdBlockRemoval" (id s)
            (mret (VBool (shouldDisplayAdAfterAdBlockRemoval s)))
      <&&> callP "shouldDisplayAdMaavaronAfterPayWallBanner" (id s)
            (shouldDisplayAdMaavaronAfterPayWallBanner s)
      <&&> callP "doesBreakpointContainAd" (id s)
            (asValue (doesBreakpointContainAd (Some s) (currentBreakpoint E)))
      <&&> callP "haveValidCookieForSmartphoneapp" (id s)
            (mret (VBool haveValidCookieForSmartphoneapp))
      <&&> callP "doesUserTypeMatchBannerTargeting" (id s)
            (mret (VBool (doesUserTypeMatchBannerTargeting (target s))))
  end.

(** The late binding of the markup element, before the [try]. *)
Definition bindHtmlElement (r : ref) : M CR unit :=
  s ← gets (fun w => heap w r);
  match htmlElement s, getElementById E (id s) with
  | None, Some e =>
      update r (set_htmlElement (Some e)) ;;
      update r (set_target (default adTargets.all (audtarget e))) ;;
      modify (fun w => set_adSlots (<[id s := r]> (adSlots w)) w)
  | _, _ => skip
  end.

Definition shouldSendRequestToDfp (adSlot : option ref) : M CR value :=
  match adSlot with
  | Some r => bindHtmlElement r
  | None => skip
  end ;;
  tryCatchM
    (s ← gets (fun w => (fun r => heap w r) <$> adSlot); liftP (gateP s))
    (fun err => logM (ConsoleError "shouldSendRequestToDfp") ;; mret VNull).

(** *** AdSlot: definition, show, hide *)

(** [document.referrer.match('loc.haaretz')]: the dot stands for any
    character but a line terminator. *)
Definition matchHere (s : string) : bool :=
  match s with
  | String "l" (String "o" (String "c" (String c rest))) =>
      negb (Ascii.eqb c "010" || Ascii.eqb c "013") && String.prefix "haaretz" rest
  | _ => false
  end.

Fixpoint matchLocHaaretz (s : string) : bool :=
  matchHere s
  || match s with
     | EmptyString => false
     | String _ s' => matchLocHaaretz s'
     end.

Definition defineMaavaron (r : ref) : M CR defined :=
  s ← gets (fun w => heap w r);
  if negb (matchLocHaaretz (documentReferrer E)) then
    logM (Gpt "pubads.definePassback" (id s)) ;;
    mret DPassback
  else mret DNull.

(** [['fluid']] becomes ['fluid'] *)
Definition unwrapFluid (item : sizeItem) : sizeItem :=
  match item with
  | FluidArr => Fluid
  | _ => item
  end.

(** [obj[key] = e] *)
Fixpoint setEntry (key : string) (e : mappingEntry) (m : list (string * mappingEntry))
  : list (string * mappingEntry) :=
  match m with
  | [] => [(key, e)]
  | (k, e') :: m' =>
      if String.eqb k key then (k, e) :: m' else (k, e') :: setEntry key e m'
  end.

(** One round of the loop over [Object.keys(this.responsiveAdSizeMapping)]. *)
Definition addSizeFor (r : ref) (key : string) : M CR unit :=
  s ← gets (fun w => heap w r);
  match responsiveAdSizeMapping s ≫= entryOf key with
  | Some (Sizes l) =>
      let l' := map unwrapFluid l in
      update r (fun s => set_mapping
        (setEntry key (Sizes l') <$> responsiveAdSizeMapping s) s) ;;
      logM (Gpt "sizeMapping.addSize" key)
  | _ => throwM (TypeError "this.responsiveAdSizeMapping[key].map is not a function")
  end.

(** The branch of [defineSlot] for a maavaron slot. *)
Definition defineSlotAsMaavaron (r : ref) (s : AdSlot) : M CR defined :=
  maavaronSlot ← callM "defineMaavaron" (id s) (defineMaavaron r);
  v ← callM "shouldSendRequestToDfp" (id s) (shouldSendRequestToDfp (Some r));
  (if truthy v then
     s ← gets (fun w => heap w r);
     if negb (shown s) then
       update r (set_shown true) ;;
       match maavaronSlot with
       | DNull => throwM (TypeError "maavaronSlot is null")
       | _ => logM (Gpt "passback.display" (id s))
       end
     else skip
   else skip) ;;
  mret maavaronSlot.

(** The rest of [defineSlot], for every other slot. *)
Definition defineSlotAsRegular (r : ref) (s : AdSlot) : M CR defined :=
  v ← callM "shouldSendRequestToDfp" (id s) (shouldSendRequestToDfp (Some r));
  if negb (truthy v) then mret DThis
  else
    s ← gets (fun w => heap w r);
    outOfPage ← liftP (isOutOfPage s);
    outOfPage' ← liftP (isOutOfPage s);
    (if negb outOfPage' then skip
     else liftP (isInterstitial s) ;; skip) ;;
    logM (Gpt (if (outOfPage : bool) then "defineOutOfPageSlot" else "defineSlot") (id s)) ;;
    if gptDefines E (id s) then
      (if responsive s then
         match responsiveAdSizeMapping s with
         | None => throwM (TypeError "Object.keys(undefined)")
         | Some m => forOf (map fst m) (addSizeFor r)
         end ;;
         logM (Gpt "slot.defineSizeMapping" (id s))
       else skip) ;;
      logM (Gpt "slot.addService" (id s)) ;;
      outOfPage'' ← liftP (isOutOfPage s);
      (if negb outOfPage'' then logM (Gpt "slot.setCollapseEmptyDiv" (id s))
       else skip) ;;
      mret DSlot
    else mret DNull.

Definition defineSlot (r : ref) : M CR defined :=
  s ← gets (fun w => heap w r);
  maavaron ← liftP (isMaavaron s);
  if (maavaron : bool) then defineSlotAsMaavaron r s
  else defineSlotAsRegular r s.

(** [show].  The function it hands to [googletag.cmd.push] is [showCommand]
    below; the push is recorded in the trace, and the function runs when the
    ad service, which is not part of these sources, runs it: at once when
    the service is loaded, and when it loads otherwise. *)
Definition show (r : ref) : M CR unit :=
  s ← gets (fun w => heap w r);
  match htmlElement s, getElementById E (id s) with
  | None, Some e =>
      update r (set_htmlElement (Some e)) ;;
      update r (set_target (default adTargets.all (audtarget e)))
  | _, _ => skip
  end ;;
  s ← gets (fun w => heap w r);
  ok ← (if negb (shown s) then
          match htmlElement s with
          | Some _ => mret true
          | None => liftP (isInterstitial s)
          end
        else mret false);
  if (ok : bool) then
    (if isTM && isWebView E && includes (id s) ".inread" && cookieUser E
     then logM (Gpt "pubads.setTargeting" "user")
     else skip) ;;
    update r (set_shown true) ;;
    logM (Gpt "cmd.push" ("show " +:+ id s))
  else
    if DEBUG E then logM (ConsoleError "calling show for an ad slot") else skip.

Definition hide (r : ref) : M CR unit :=
  s ← gets (fun w => heap w r);
  logM (Gpt "cmd.push" ("hide " +:+ id s)).

(** *** AdManager: releasing deferred slots *)

(** [deferredSlots.delete(key)] *)
Definition deleteKey (key : string) (l : list string) : list string :=
  filter (fun k => k ≠ key) l.

(** What the loop over [deferredSlots.keys()] does with a slot the gate
    admitted, after taking its key out of the set. *)
Definition defineAndShow (r : ref) : M CR unit :=
s ← gets (fun w => heap w r);
(if deferredSlot s then
   (if DEBUG E then logM (ConsoleLog "Runtime Define slots") else skip) ;;
   callM "defineSlot" (id s) (defineSlot r) ;;
   update r (set_deferredSlot false)
 else skip) ;;
callM "show" (id s) (show r).

(** The body of the loop over [deferredSlots.keys()]. *)
Definition releaseDeferred (deferredSlotKey : string) : M CR unit :=
deferredAdSlot ← gets (fun w => adSlots w !! deferredSlotKey);
match deferredAdSlot with
| None => skip
| Some r =>
    v ← callM "shouldSendRequestToDfp" deferredSlotKey
          (shouldSendRequestToDfp (Some r));
    if truthy v then
      modify (fun w => set_deferredSlots (deleteKey deferredSlotKey (deferredSlots w)) w) ;;
      defineAndShow r
    else skip
end.

(** The body of the loop over [getBlockedSlotsIds(id)]. *)
Definition hideBlocked (blockedSlot : string) : M CR unit :=
  cr ← gets conflictResolver;
  blocked ← outcomeM (isBlocked cr blockedSlot);
  if (blocked : bool) then
    o ← gets (fun w => adSlots w !! blockedSlot);
    match o with
    | Some r => callM "hide" blockedSlot (hide r)
    | None => skip
    end
  else skip.

(** The [try] block of [releaseSlotDependencies]. *)
Definition releaseSlotDependenciesTry (adSlot : ref) : M CR unit :=
s ← gets (fun w => heap w adSlot);
cr ← gets conflictResolver;
cr' ← outcomeM (updateResolvedSlot cr (id s) (lastResolvedSize s));
modify (set_conflictResolver cr') ;;
blocking ← outcomeM (isBlocking cr' (id s));
if (blocking : bool) then
  blockedSlots ← outcomeM (getBlockedSlotsIds cr' (id s));
  forOf blockedSlots hideBlocked ;;
  keys ← gets deferredSlots;
  forOf keys releaseDeferred
else skip.

Definition releaseSlotDependencies (adSlot : ref) : M CR unit :=
tryCatchM (releaseSlotDependenciesTry adSlot)
  (fun err =>
     if DEBUG E then logM (ConsoleError "Cannot updateSlotDependencies for adSlot")
     else skip).

(** The part of the [slotRenderEnded] listener that registers the outcome. *)
Definition slotRenderEnded (id : string) (isEmpty : bool) (size : option resolvedSize)
  : M CR unit :=
  o ← gets (fun w => adSlots w !! id);
  match o with
  | Some r =>
      update r (set_lastResolved size (Some (currentBreakpoint E))) ;;
      if isEmpty then
        update r (fun s => set_lastResolved (Some EMPTY_SIZE) (lastResolvedWithBreakpoint s) s) ;;
        callM "hide" id (hide r) ;;
        releaseSlotDependencies r
      else releaseSlotDependencies r
  | None => skip
  end.

End Methods.

(** ** Sample data *)

(** The ids of the ordering example. *)
Definition sample_ids : list string := ["x.billboard.2"; "a.billboard.1"; "z.other"].
Definition sample_sorted : list string := ["a.billboard.1"; "x.billboard.2"; "z.other"].

(** ** A conflict resolver *)

(** Modelled from the spec: the class [ConflictResolver] of
    [conflictResolver.js] is not among the sources.  The specification gives
    it configured blocking edges from a slot to the slots that depend on it,
    the last resolved size of each slot, and these operations: a slot is
    blocked when one of its predecessors has no outcome yet or resolved with
    a size that is not empty; a slot is blocking when one of its successors
    has no outcome yet; the blocked ids of a slot are its direct successors;
    registering an outcome records the size. *)
Record specResolver := {
  edges : list (string * string);
  outcomes : list (string * resolvedSize);
}.

Fixpoint outcomeOf (i : string) (l : list (string * resolvedSize)) : option resolvedSize :=
  match l with
  | [] => None
  | (k, sz) :: l' => if String.eqb k i then Some sz else outcomeOf i l'
  end.

Definition predecessors (cr : specResolver) (i : string) : list string :=
  map fst (List.filter (fun e => String.eqb (snd e) i) (edges cr)).

Definition successors (cr : specResolver) (i : string) : list string :=
  map snd (List.filter (fun e => String.eqb (fst e) i) (edges cr)).

Definition spec_isBlocked (cr : specResolver) (i : string) : bool :=
  existsb (fun p => match outcomeOf p (outcomes cr) with
                    | None => true
                    | Some EMPTY_SIZE => false
                    | Some (Resolved _ _) => true
                    end) (predecessors cr i).

Definition spec_isBlocking (cr : specResolver) (i : string) : bool :=
  existsb (fun s => match outcomeOf s (outcomes cr) with
                    | None => true
                    | Some _ => false
                    end) (successors cr i).

Definition spec_updateResolvedSlot (cr : specResolver) (i : string)
  (sz : option resolvedSize) : specResolver :=
  match sz with
  | Some z => {| edges := edges cr; outcomes := (i, z) :: outcomes cr |}
  | None => cr
  end.

#[global] Instance specResolver_ops : ConflictResolver specResolver := {|
  updateResolvedSlot cr i sz := Ret (spec_updateResolvedSlot cr i sz);
  isBlocking cr i := Ret (spec_isBlocking cr i);
  getBlockedSlotsIds cr i := Ret (successors cr i);
  isBlocked cr i := Ret (spec_isBlocked cr i);
|}.

(** ** A sample page *)

(** A desktop visitor who is not paying and comes from a page of the site;
    every slot has its element in the page. *)
Definition page (referrer : string) (user : string) (nowMs : Z) : env := {|
  isReadyToRenderExternals := true;
  isWebView := false;
  siteNumber := 80;
  mobileUserAgent := false;
  getElementById := fun i => Some {| audtarget := None |};
  documentReferrer := referrer;
  referrer := referrer;
  userType := user;
  ssoUserName := "";
  cookieUser := false;
  now := nowMs;
  site := "haaretz";
  adBlockRemoved := false;
  isValidForsmartPhone := true;
  cobj := CobjAbsent;
  currentBreakpoint := 600;
  getBreakpointName := fun bp => if bp <? 768 then "tierA" else "tierB";
  gptDefines := fun _ => true;
  DEBUG := false;
|}.

Definition slotOf (i : string) (t : string) : AdSlot := {|
  id := i;
  target := t;
  type := Some adTypes.regular;
  responsive := false;
  fluid := false;
  htmlElement := Some {| audtarget := None |};
  priority := "normal";
  deferredSlot := false;
  responsiveAdSizeMapping := None;
  blacklistReferrers := [];
  whitelistReferrers := [];
  shown := false;
  lastResolvedSize := None;
  lastResolvedWithBreakpoint := None;
  slot := None;
|}.

(** The slot of the breakpoint example. *)
Definition tierSlot : AdSlot :=
  set_mapping (Some [("tierA", Sizes [Dims [0; 0]]); ("tierB", Sizes [Dims [300; 250]])])
    {| id := "page.top"; target := "all"; type := Some adTypes.regular;
       responsive := true; fluid := false;
       htmlElement := Some {| audtarget := None |};
       priority := "normal"; deferredSlot := false;
       responsiveAdSizeMapping := None;
       blacklistReferrers := []; whitelistReferrers := [];
       shown := false; lastResolvedSize := None;
       lastResolvedWithBreakpoint := None;
       slot := None |}.

Definition viewWith (item : option storedItem) : view specResolver :=
  {| v_resolver := {| edges := []; outcomes := [] |}; v_localItem := item |}.

Definition recordOf (a : Z) (t : Z) : option storedItem :=
  Some (Stored {| attempt := Some a; showTime := Some (Some t) |}).

(** ** The throttle policies as statements *)

(** The full-interstitial policy for a slot whose preconditions hold, with
    the bounds of the time window in milliseconds. *)
Definition fullInterstitialPolicy (minMs maxMs : Z) : Prop :=
  forall (CR : Type) (E : env) (i : string) (nowMs a t : Z) (v : view CR),
    includes i adTypes.interstitialFull = true ->
    isReferrerOfHaaretz E = true ->
    userIsPaying E = false ->
    isReadyToRenderExternals E = true ->
    v_localItem v = Some (Stored {| attempt := Some a; showTime := Some (Some t) |}) ->
    exists b, shouldDisplayInterstitialFull E i nowMs v = ([], Ret (VBool b))
      /\ (a < 3 -> b = false)
      /\ (3 <= a -> (b = true <-> minMs < Z.abs (nowMs - t) < maxMs)).

(** The small-interstitial policy; [denyingReferrer] is the answer of
    [isReferrerOfHaaretz] under which a record with two attempts or more
    denies a user who is not paying. *)
Definition smallInterstitialPolicy (denyingReferrer : bool) : Prop :=
  forall (CR : Type) (E : env) (i : string) (w : world CR),
    includes i adTypes.interstitialSmall = true ->
    (userIsPaying E = true ->
       exists b w', shouldDisplayInterstitialSmall E i w = (Ret b, w')
         /\ (noSessionItem (sessionItem w) = false -> b = false)
         /\ (noSessionItem (sessionItem w) = true ->
             b = true /\ sessionItem w' = Some "true"))
    /\ (userIsPaying E = false ->
       exists b w', shouldDisplayInterstitialSmall E i w = (Ret b, w')
         /\ (b = false <->
             isReferrerOfHaaretz E = denyingReferrer
             /\ exists r a, localItem w = Some (Stored r)
                  /\ attempt r = Some a /\ 2 <= a)).

(** A world with nothing registered and the given durable record. *)
Definition emptyWorld (item : option storedItem) : world specResolver := {|
  heap := fun _ => slotOf "" "all";
  adSlots := ∅;
  conflictResolver := {| edges := []; outcomes := [] |};
  deferredSlots := [];
  sessionItem := None;
  localItem := item;
  interstitialTimeoutMultiplier := 1;
  timers := [];
  trace := [];
|}.

(** ** Sample slots for the gate *)

(** A page that is not ready to render externals. *)
Definition notReadyPage : env := {|
  isReadyToRenderExternals := false;
  isWebView := false;
  siteNumber := 80;
  mobileUserAgent := false;
  getElementById := fun i => Some {| audtarget := None |};
  documentReferrer := "";
  referrer := "";
  userType := "anonymous";
  ssoUserName := "";
  cookieUser := false;
  now := 0;
  site := "haaretz";
  adBlockRemoved := false;
  isValidForsmartPhone := true;
  cobj := CobjAbsent;
  currentBreakpoint := 600;
  getBreakpointName := fun bp => if bp <? 768 then "tierA" else "tierB";
  gptDefines := fun _ => true;
  DEBUG := false;
|}.

(** A responsive slot whose size mapping has no entry for the current
    breakpoint: [doesBreakpointContainAd] throws on it. *)
Definition unmappedSlot : AdSlot :=
  set_mapping (Some [("tierB", Sizes [Dims [300; 250]])])
    {| id := "page.side"; target := "all"; type := Some adTypes.regular;
       responsive := true; fluid := false;
       htmlElement := Some {| audtarget := None |};
       priority := "normal"; deferredSlot := false;
       responsiveAdSizeMapping := None;
       blacklistReferrers := []; whitelistReferrers := [];
       shown := false; lastResolvedSize := None;
       lastResolvedWithBreakpoint := None;
       slot := None |}.

(** A world whose only object, at every reference, is the given slot. *)
Definition worldOf (s : AdSlot) : world specResolver := {|
  heap := fun _ => s;
  adSlots := {[ id s := 0%nat ]};
  conflictResolver := {| edges := []; outcomes := [] |};
  deferredSlots := [];
  sessionItem := None;
  localItem := None;
  interstitialTimeoutMultiplier := 1;
  timers := [];
  trace := [];
|}.

(** ** The gate after the late binding of the element *)

(** The slot has its element, or the page has none for it: the state in
    which the late binding at the head of the gate does nothing. *)
Definition bound {CR : Type} (E : env) (r : ref) (w : world CR) : Prop :=
  htmlElement (heap w r) <> None \/ getElementById E (id (heap w r)) = None.

(** The [try] and [catch] of the gate, run on a world: the value of the
    conjunction, or [null] after [console.error] when a predicate throws. *)
Definition gateResult {CR : Type} `{!ConflictResolver CR} (E : env)
  (adSlot : option ref) (w1 : world CR) : outcome value * world CR :=
  match gateP E ((fun r => heap w1 r) <$> adSlot) (view_of w1) with
  | (l, Ret v) => (Ret v, emit l w1)
  | (l, Throw e) => (Ret VNull, emit (l ++ [ConsoleError "shouldSendRequestToDfp"]) w1)
  end.

(** A read-only computation whose value is [null] only under [C]. *)
Definition nullOnlyIf {CR : Type} (C : Prop) (p : P CR value) : Prop :=
  forall v l x, p v = (l, Ret x) -> x = VNull -> C.

(** The stored paywall object makes [shouldDisplayAdMaavaronAfterPayWallBanner]
    evaluate to [null] for the slot: on the haaretz site, for the maavaron
    type, its [nextslotLocation] is [null] and its [mc] is no number from 12
    on. *)
Definition paywallNull (E : env) (s : AdSlot) : Prop :=
  site E = "haaretz"
  /\ type s = Some adTypes.maavaron
  /\ exists mc, cobj E = Cobj mc FNull /\ forall n, mc = FVal n -> n < 12.

(** [samplePage]-like page on which the stored paywall object is
    [{"nextslotLocation": null}]. *)
Definition paywallNullPage : env := {|
  isReadyToRenderExternals := true;
  isWebView := false;
  siteNumber := 80;
  mobileUserAgent := false;
  getElementById := fun i => Some {| audtarget := None |};
  documentReferrer := "";
  referrer := "";
  userType := "anonymous";
  ssoUserName := "";
  cookieUser := false;
  now := 0;
  site := "haaretz";
  adBlockRemoved := false;
  isValidForsmartPhone := true;
  cobj := Cobj FMissing FNull;
  currentBreakpoint := 600;
  getBreakpointName := fun bp => if bp <? 768 then "tierA" else "tierB";
  gptDefines := fun _ => true;
  DEBUG := false;
|}.

(** A slot of the maavaron type with its element. *)
Definition maavaronInPage : AdSlot := {|
  id := "page.maavaron";
  target := "all";
  type := Some adTypes.maavaron;
  responsive := false;
  fluid := false;
  htmlElement := Some {| audtarget := None |};
  priority := "high";
  deferredSlot := false;
  responsiveAdSizeMapping := None;
  blacklistReferrers := [];
  whitelistReferrers := [];
  shown := false;
  lastResolvedSize := None;
  lastResolvedWithBreakpoint := None;
  slot := None;
|}.

(** ** What a computation leaves of the world *)

(** [m] takes every world to one that [R] relates to it, whether it returns
    or throws. *)
Definition framed {CR A : Type} (R : world CR -> world CR -> Prop) (m : M CR A) : Prop :=
  forall w, R w (snd (m w)).

(** Every event of a read-only computation satisfies [Q]. *)
Definition emitsP {CR A : Type} (Q : event -> Prop) (p : P CR A) : Prop :=
  forall v, Forall Q (fst (p v)).

(** The trace grew by events that satisfy [Q]. *)
Definition extendsTrace {CR : Type} (Q : event -> Prop) (w w' : world CR) : Prop :=
  exists l, trace w' = trace w ++ l /\ Forall Q l.

(** The set of deferred ids is the same. *)
Definition sameDeferred {CR : Type} (w w' : world CR) : Prop :=
  deferredSlots w' = deferredSlots w.

(** An event other than a call of [defineMaavaron] or a passback definition. *)
Definition notMaavaron (ev : event) : Prop :=
  match ev with
  | Invoked method _ => method <> "defineMaavaron"
  | Gpt call _ => call <> "pubads.definePassback"
  | _ => True
  end.

(** A slot of the maavaron type that is not in the page yet. *)
Definition maavaronSlot : AdSlot := {|
  id := "page.maavaron";
  target := "all";
  type := Some adTypes.maavaron;
  responsive := false;
  fluid := false;
  htmlElement := None;
  priority := "high";
  deferredSlot := false;
  responsiveAdSizeMapping := None;
  blacklistReferrers := [];
  whitelistReferrers := [];
  shown := false;
  lastResolvedSize := None;
  lastResolvedWithBreakpoint := None;
  slot := None;
|}.

(** ** The release of deferred slots as statements *)

(** The gate admits the slot registered under [key]. *)
Definition admits {CR : Type} `{!ConflictResolver CR} (E : env) (key : string)
  (w : world CR) : bool :=
  match adSlots w !! key with
  | Some r =>
      match fst (shouldSendRequestToDfp E (Some r) w) with
      | Ret v => truthy v
      | Throw _ => false
      end
  | None => false
  end.

(** The registry holds every slot under its own id, as [initAdSlots] fills it. *)
Definition wellKeyed {CR : Type} (w : world CR) : Prop :=
  forall k r, adSlots w !! k = Some r -> id (heap w r) = k.

(** The slot after the late binding of its element. *)
Definition boundSlot (E : env) (s : AdSlot) : AdSlot :=
  match htmlElement s, getElementById E (id s) with
  | None, Some e =>
      set_target (default adTargets.all (audtarget e)) (set_htmlElement (Some e) s)
  | _, _ => s
  end.

(** The value of the gate on a slot whose element is bound. *)
Definition gateValue {CR : Type} `{!ConflictResolver CR} (E : env) (s : AdSlot)
  (v : view CR) : value :=
  match gateP E (Some s) v with
  | (_, Ret x) => x
  | (_, Throw _) => VNull
  end.

(** Work on the slot behind [r] leaves the view, the other slots and the id
    of the slot as they are, and at most registers the slot under its id. *)
Definition keeps {CR : Type} (r : ref) (w w' : world CR) : Prop :=
  view_of w' = view_of w
  /\ (forall r', r' <> r -> heap w' r' = heap w r')
  /\ id (heap w' r) = id (heap w r)
  /\ (forall k, adSlots w' !! k = adSlots w !! k
               \/ (k = id (heap w r) /\ adSlots w' !! k = Some r)).

(** The world differs by events added to the trace. *)
Definition onlyTrace {CR : Type} (w w' : world CR) : Prop :=
  exists l, w' = emit l w.

(** ** Sample pages for the release of deferred slots *)

Definition resolvedEmpty (s : AdSlot) : AdSlot :=
  set_lastResolved (Some EMPTY_SIZE) (Some 600) s.

Definition deferred (s : AdSlot) : AdSlot := set_deferredSlot true s.

(** [page.top] has resolved empty; [page.side], which it blocked, targets
    paying users and waits in the deferred set. *)
Definition refusedWorld : world specResolver := {|
  heap := fun r => match r with
                   | O => resolvedEmpty (slotOf "page.top" "all")
                   | _ => deferred (slotOf "page.side" "paying")
                   end;
  adSlots := <["page.top" := 0%nat]> (<["page.side" := 1%nat]> ∅);
  conflictResolver := {| edges := [("page.top", "page.side")]; outcomes := [] |};
  deferredSlots := ["page.side"];
  sessionItem := None;
  localItem := None;
  interstitialTimeoutMultiplier := 1;
  timers := [];
  trace := [];
|}.

(** [page.footer], which blocks nothing, has resolved empty; [page.side] is
    still in the deferred set although [page.top], which blocked it, resolved
    empty earlier. *)
Definition idleWorld : world specResolver := {|
  heap := fun r => match r with
                   | O => resolvedEmpty (slotOf "page.footer" "all")
                   | _ => deferred (slotOf "page.side" "all")
                   end;
  adSlots := <["page.footer" := 0%nat]> (<["page.side" := 1%nat]> ∅);
  conflictResolver := {| edges := [("page.top", "page.side")];
                         outcomes := [("page.top", EMPTY_SIZE)] |};
  deferredSlots := ["page.side"];
  sessionItem := None;
  localItem := None;
  interstitialTimeoutMultiplier := 1;
  timers := [];
  trace := [];
|}.

(** A deferred responsive slot with a size mapping that is sound at the
    current breakpoint and is not an array at another one. *)
Definition brokenSlot : AdSlot :=
  deferred (set_mapping
    (Some [("tierA", Sizes [Dims [300; 250]]); ("tierB", NotAnArray)])
    {| id := "page.side"; target := "all"; type := Some adTypes.regular;
       responsive := true; fluid := false;
       htmlElement := Some {| audtarget := None |};
       priority := "normal"; deferredSlot := false;
       responsiveAdSizeMapping := None;
       blacklistReferrers := []; whitelistReferrers := [];
       shown := false; lastResolvedSize := None;
       lastResolvedWithBreakpoint := None;
       slot := None |}).

(** [page.top] has resolved empty and blocked two slots: [page.side], with
    the broken mapping, and [page.bottom], which is sound. *)
Definition abortWorld : world specResolver := {|
  heap := fun r => match r with
                   | O => resolvedEmpty (slotOf "page.top" "all")
                   | S O => brokenSlot
                   | _ => deferred (slotOf "page.bottom" "all")
                   end;
  adSlots := <["page.top" := 0%nat]>
               (<["page.side" := 1%nat]> (<["page.bottom" := 2%nat]> ∅));
  conflictResolver := {| edges := [("page.top", "page.side"); ("page.top", "page.bottom")];
                         outcomes := [] |};
  deferredSlots := ["page.side"; "page.bottom"];
  sessionItem := None;
  localItem := None;
  interstitialTimeoutMultiplier := 1;
  timers := [];
  trace := [];
|}.

Definition samplePage : env := page "" "anonymous" 0.

(** [abortWorld] when the loop over the deferred set starts: the outcome of
    [page.top] is registered. *)
Definition abortDrainWorld : world specResolver :=
  set_conflictResolver
    (spec_updateResolvedSlot (conflictResolver abortWorld) "page.top" (Some EMPTY_SIZE))
    abortWorld.


(** * More of [AdSlot] and [AdManager] *)

(** ** The referrer lists of a slot *)

(** [s.split(',')] *)
Fixpoint splitComma (s : string) : list string :=
  match s with
  | EmptyString => [EmptyString]
  | String c s' =>
      if Ascii.eqb c "," then EmptyString :: splitComma s'
      else match splitComma s' with
           | h :: t => String c h :: t
           | [] => [String c EmptyString]
           end
  end.

(** In the constructor of [AdSlot]:
    [config.blacklistReferrers ? config.blacklistReferrers.split(',') : []],
    and the same for the whitelist; a missing or empty string is falsy. *)
Definition referrerList (config : option string) : list string :=
  match config with
  | None => []
  | Some s => if String.eqb s "" then [] else splitComma s
  end.

(** ** The type of a slot, from its id *)

Definition getAdType (adSlotId : string) : outcome string :=
  if String.eqb adSlotId "" then
    Throw (Error "Missing argument: a call to getAdType must have an adSlotId")
  else if -1 <? indexOf adSlotId adTypes.maavaron then Ret adTypes.maavaron
  else if -1 <? indexOf adSlotId adTypes.popunder then Ret adTypes.popunder
  else if -1 <? indexOf adSlotId adTypes.talkback then Ret adTypes.talkback
  else if -1 <? indexOf adSlotId adTypes.interstitial then Ret adTypes.interstitial
  else Ret adTypes.regular.

(** ** The admission conditions as a statement *)

(** A read-only computation returns a truthy value. *)
Definition passes {CR : Type} (p : P CR value) (v : view CR) : Prop :=
  exists l x, p v = (l, Ret x) /\ truthy x = true.

(** The conditions of [shouldSendRequestToDfp], one by one, on a slot whose
    element is bound. *)
Definition gateConditions {CR : Type} `{!ConflictResolver CR} (E : env) (s : AdSlot)
  (v : view CR) : Prop :=
  isReadyToRenderExternals E = true
  /\ (htmlElement s <> None
      \/ (isWebView E = false /\ type s = Some adTypes.interstitial))
  /\ (exists l, googleInterstitialShouldDisplay E s v = (l, Ret true))
  /\ isBlocked (v_resolver v) (id s) = Ret false
  /\ isWhitelisted E s = true
  /\ isBlacklisted E s = false
  /\ shouldDisplayAdInWebView E s = true
  /\ shouldDisplayAdAfterAdBlockRemoval E s = true
  /\ passes (shouldDisplayAdMaavaronAfterPayWallBanner E s) v
  /\ (exists l, doesBreakpointContainAd E (Some s) (currentBreakpoint E) v = (l, Ret true))
  /\ haveValidCookieForSmartphoneapp E = true
  /\ doesUserTypeMatchBannerTargeting E (target s) = true.

(** An event that is not a call into the ad backend. *)
Definition notGpt (ev : event) : Prop :=
  match ev with
  | Gpt _ _ => False
  | _ => True
  end.

Section MoreMethods.
Context {CR : Type} `{!ConflictResolver CR}.
Variable E : env.

(** ** Which interstitial policy applies *)

(** [isHomepage] is [new URL(document.location.href).pathname === '/']. *)
Definition interstitialShouldDisplay (isHomepage : bool) (adSlot : AdSlot) : M CR value :=
  let id := id adSlot in
  if negb (includes id "interstitial") then mret (VBool true)
  else if isHomepage && userIsPaying E then mret (VBool false)
  else if includes id adTypes.interstitialSmall then
    b ← shouldDisplayInterstitialSmall E id; mret (VBool b)
  else if includes id adTypes.interstitialFull then
    liftP (shouldDisplayInterstitialFull E id (now E))
  else mret (VBool false).

(** ** Refreshing slots *)

Definition refresh (r : ref) : M CR unit :=
  s ← gets (fun w => heap w r);
  match htmlElement s with
  | Some _ => logM (Gpt "cmd.push" ("refresh " +:+ id s))
  | None =>
      if DEBUG E then logM (ConsoleError "calling refresh for an ad slot that is missing a required DOM element!")
      else skip
  end.

(** [adSlot.refresh()] and [adSlot.hide()] on what [this.adSlots.get] gave. *)
Definition refreshOf (adSlot : option ref) : M CR unit :=
  match adSlot with
  | Some r => callM "refresh" "" (refresh r)
  | None => throwM (TypeError "adSlot is undefined")
  end.

Definition hideOf (adSlot : option ref) : M CR unit :=
  match adSlot with
  | Some r => callM "hide" "" (hide r)
  | None => throwM (TypeError "adSlot is undefined")
  end.

Definition refreshSlot (adUnitName : string) : M CR unit :=
  adSlot ← gets (fun w => adSlots w !! adUnitName);
  v ← shouldSendRequestToDfp E adSlot;
  if truthy v then refreshOf adSlot else hideOf adSlot.

(** The body of the loop of [refreshAllSlots]. *)
Definition refreshResponsive (adSlotKey : string) : M CR unit :=
  adSlot ← gets (fun w => adSlots w !! adSlotKey);
  match adSlot with
  | None => throwM (TypeError "adSlot is undefined")
  | Some r =>
      s ← gets (fun w => heap w r);
      if responsive s && negb (typeIs s adTypes.maavaron) then
        if negb (bool_decide (lastResolvedWithBreakpoint s = Some (currentBreakpoint E)))
        then
          v ← shouldSendRequestToDfp E (Some r);
          if truthy v then
            (if DEBUG E then logM (ConsoleLog "calling refresh for adSlot") else skip) ;;
            callM "refresh" "" (refresh r)
          else callM "hide" "" (hide r)
        else callM "hide" "" (hide r)
      else skip
  end.

(** [refreshAllSlots] and [refreshAllSlotsInPage]; [keys] is
    [this.adSlots.keys()], the registered ids in the order of the [Map]. *)
Definition refreshAllSlots (keys : list string) : M CR unit :=
  forOf keys refreshResponsive.

Definition refreshAllSlotsInPage (keys : list string) : M CR unit :=
  forOf keys refreshSlot.

(** [adSlot.lastResolvedWithBreakpoint] as a condition: a number other than
    zero. *)
Definition resolvedAt (s : AdSlot) : bool :=
  match lastResolvedWithBreakpoint s with
  | Some b => negb (b =? 0)
  | None => false
  end.

(** The loop of [switchedToBreakpoint], with its counter. *)
Fixpoint countSwitched (breakpoint : Z) (keys : list string) (count : Z) : M CR Z :=
  match keys with
  | [] => mret count
  | adSlotKey :: keys' =>
      adSlot ← gets (fun w => adSlots w !! adSlotKey);
      match adSlot with
      | None => throwM (TypeError "adSlot is undefined")
      | Some r =>
          s ← gets (fun w => heap w r);
          if responsive s && resolvedAt s then
            if negb (bool_decide (lastResolvedWithBreakpoint s = Some breakpoint)) then
              callM "refresh" "" (refresh r) ;;
              countSwitched breakpoint keys' (count + 1)
            else countSwitched breakpoint keys' count
          else countSwitched breakpoint keys' count
      end
  end.

(** [breakpoint] is a number; [0] is falsy.  [keys] is [this.adSlots.keys()]. *)
Definition switchedToBreakpoint (breakpoint : Z) (keys : list string) : M CR Z :=
  if breakpoint =? 0 then
    throwM (Error "Missing argument: a call to switchedToBreakpoint must have an breakpoint")
  else countSwitched breakpoint keys 0.

(** ** Showing slots *)

(** [!this.slot] is false for a slot object and for the [AdSlot] itself, which
    [defineSlot] returns when the gate refuses. *)
Definition slotTruthy (d : option defined) : bool :=
  match d with
  | None | Some DNull => false
  | Some _ => true
  end.

(** The function that [show] pushes to [googletag.cmd], run by the ad
    service.  What it does to the element itself ([classList], the banner
    observer) is left out; [display] is recorded with the id of the slot. *)
Definition showCommand (r : ref) : M CR unit :=
  s ← gets (fun w => heap w r);
  (if deferredSlot s || negb (slotTruthy (slot s)) then
     d ← callM "defineSlot" (id s) (defineSlot E r);
     update r (set_slot (Some d))
   else skip) ;;
  (if DEBUG E then logM (ConsoleLog "calling show for slot") else skip) ;;
  s ← gets (fun w => heap w r);
  match htmlElement s with
  | Some _ =>
      (if includes (id s) "interstitial.mobile"
       then callM "setInterstitialShowingData" (id s) (setInterstitialShowingData None)
       else skip) ;;
      logM (Gpt "display" (id s))
  | None =>
      callM "setInterstitialShowingData" (id s)
        (setInterstitialShowingData (Some (now E))) ;;
      logM (Gpt "display" (id s))
  end.

(** The body of the loop of [showAllDeferredSlots]. *)
Definition showDeferred (deferredSlotId : string) : M CR unit :=
  o ← gets (fun w => adSlots w !! deferredSlotId);
  match o with
  | None => skip
  | Some r =>
      cr ← gets conflictResolver;
      blocked ← outcomeM (isBlocked cr deferredSlotId);
      if negb blocked then
        v ← shouldSendRequestToDfp E (Some r);
        if truthy v then callM "show" deferredSlotId (show E r) else skip
      else skip
  end.

Definition showAllDeferredSlots : M CR unit :=
  ids ← gets deferredSlots;
  forOf ids showDeferred.

(** The body of the loop of [showAllSlots]; in debug mode the message that
    is logged asks the gate once more. *)
Definition showIfAdmitted (priorityFilter : string) (adSlotKey : string) : M CR unit :=
  adSlot ← gets (fun w => adSlots w !! adSlotKey);
  match adSlot with
  | None => throwM (TypeError "adSlot is undefined")
  | Some r =>
      s ← gets (fun w => heap w r);
      if String.eqb (priority s) priorityFilter then
        v ← shouldSendRequestToDfp E (Some r);
        if truthy v then
          (if DEBUG E then
             shouldSendRequestToDfp E (Some r) ;; logM (ConsoleLog "this.shouldSendRequestToDfp(adSlot) is")
           else skip) ;;
          s ← gets (fun w => heap w r);
          if negb (shown s) then callM "show" adSlotKey (show E r) else skip
        else skip
      else skip
  end.

(** [showAllSlots]: [keys] is [this.adSlots.keys()]; the ids are visited in
    the order [sortAdSlots] gives them. *)
Definition showAllSlots (priorityFilter : string) (keys : list string) : M CR unit :=
  sorted ← outcomeM (sortBy sortSlots keys);
  forOf sorted (showIfAdmitted priorityFilter).

End MoreMethods.

(** ** The durable record over time *)

(** [itemParsed.attempt || 0] on what the storage holds. *)
Definition attemptsOf (item : option storedItem) : Z :=
  match item with
  | Some (Stored r) => default 0 (attempt r)
  | _ => 0
  end.

(** The timers that successive calls of [setInterstitialShowingData] queue,
    from a multiplier [m] on. *)
Fixpoint delaysFrom (m : Z) (nows : list (option Z)) : list (Z * option Z) :=
  match nows with
  | [] => []
  | n :: nows' => (m * 100, n) :: delaysFrom (m + 1) nows'
  end.

(** ** What [show] decides *)

(** The condition of [show] on a slot whose element is bound:
    [!this.shown === true && (this.htmlElement || this.isInterstitial())];
    [None] when [isInterstitial] throws. *)
Definition showDecision (E : env) (s : AdSlot) : option bool :=
  if shown s then Some false
  else match htmlElement s with
       | Some _ => Some true
       | None =>
           match type s with
           | Some t => Some (isMobile E && String.eqb t adTypes.interstitial)
           | None => None
           end
       end.

(** ** What [defineSlot] leaves as it is *)

(** The object at [r] answers [doesBreakpointContainAd] in [w'] as in [w]. *)
Definition sameContainment {CR : Type} `{!ConflictResolver CR} (E : env) (r : ref)
  (w w' : world CR) : Prop :=
  forall (breakpoint : Z) (v : view CR),
    doesBreakpointContainAd E (Some (heap w' r)) breakpoint v
    = doesBreakpointContainAd E (Some (heap w r)) breakpoint v.

(** ** What the loops over the registry leave as they are *)

(** An event that is not a call into the ad backend other than a pushed
    [refresh] or [hide] command. *)
Definition refreshOrHide (ev : event) : Prop :=
  match ev with
  | Gpt call arg =>
      call = "cmd.push"
      /\ (String.prefix "refresh " arg = true \/ String.prefix "hide " arg = true)
  | _ => True
  end.

(** An event that is not a call into the ad backend other than a pushed
    [show] command and the targeting that goes with it. *)
Definition showPush (ev : event) : Prop :=
  match ev with
  | Gpt call arg =>
      (call = "cmd.push" /\ String.prefix "show " arg = true)
      \/ call = "pubads.setTargeting"
  | _ => True
  end.

(** Every key that is registered in [w] is registered in [w']. *)
Definition registryGrows {CR : Type} (w w' : world CR) : Prop :=
  forall k, is_Some (adSlots w !! k) -> is_Some (adSlots w' !! k).

(** The slot registered under [key] is responsive and was last resolved at a
    breakpoint other than [breakpoint]. *)
Definition resolvedElsewhere {CR : Type} (breakpoint : Z) (w : world CR) (key : string)
  : bool :=
  match adSlots w !! key with
  | Some r =>
      responsive (heap w r) && resolvedAt (heap w r)
      && negb (bool_decide (lastResolvedWithBreakpoint (heap w r) = Some breakpoint))
  | None => false
  end.

(** What was recorded of the last render is the same for every object. *)
Definition sameResolved {CR : Type} (w w' : world CR) : Prop :=
  forall r,
    lastResolvedSize (heap w' r) = lastResolvedSize (heap w r)
    /\ lastResolvedWithBreakpoint (heap w' r) = lastResolvedWithBreakpoint (heap w r).

(** ** More sample data *)

(** A slot whose configured blacklist ends in a comma. *)
Definition trailingCommaSlot : AdSlot := {|
  id := "page.side";
  target := "all";
  type := Some adTypes.regular;
  responsive := false;
  fluid := false;
  htmlElement := Some {| audtarget := None |};
  priority := "normal";
  deferredSlot := false;
  responsiveAdSizeMapping := None;
  blacklistReferrers := referrerList (Some "ads.example.com,");
  whitelistReferrers := [];
  shown := false;
  lastResolvedSize := None;
  lastResolvedWithBreakpoint := None;
  slot := None;
|}.

(** [samplePage] inside the web view of the application. *)
Definition webViewPage : env := {|
  isReadyToRenderExternals := true;
  isWebView := true;
  siteNumber := 80;
  mobileUserAgent := true;
  getElementById := fun i => Some {| audtarget := None |};
  documentReferrer := "";
  referrer := "";
  userType := "anonymous";
  ssoUserName := "";
  cookieUser := false;
  now := 0;
  site := "haaretz";
  adBlockRemoved := false;
  isValidForsmartPhone := true;
  cobj := CobjAbsent;
  currentBreakpoint := 600;
  getBreakpointName := fun bp => if bp <? 768 then "tierA" else "tierB";
  gptDefines := fun _ => true;
  DEBUG := false;
|}.

(** [page.top], last resolved at breakpoint 600 and responsive. *)
Definition resolvedTierSlot : AdSlot := set_lastResolved None (Some 600) tierSlot.

(** ** The mark of a shown slot *)

(** Every object that is marked shown in [w] is marked shown in [w']. *)
Definition staysShown {CR : Type} (w w' : world CR) : Prop :=
  forall r, shown (heap w r) = true -> shown (heap w' r) = true.

(** ** What showing leaves of the deferred slots *)

(** Every object has the [deferredSlot] flag it had. *)
Definition sameFlags {CR : Type} (w w' : world CR) : Prop :=
  forall r, deferredSlot (heap w' r) = deferredSlot (heap w r).

(** [page.side], deferred and not yet defined, with its element. *)
Definition deferredWorld : world specResolver := worldOf (deferred (slotOf "page.side" "all")).

(** [page.top], defined at the backend and not deferred. *)
Definition definedWorld : world specResolver :=
  worldOf (set_slot (Some DSlot) (slotOf "page.top" "all")).

(** An event of the pushed [show] command when it does not define the slot:
    the queued write of the throttle record and the [display] call. *)
Definition displayOnly (ev : event) : Prop :=
  match ev with
  | Gpt call _ => call = "display"
  | Invoked method _ => method = "setInterstitialShowingData"
  | _ => True
  end.
(** * Properties *)

(** ** The ordering of slot ids *)

Lemma single_char_not_pinned (c : ascii) :
  includes (String c EmptyString) "billboard" = false.
Proof.
  destruct c as [[] [] [] [] [] [] [] []]; reflexivity.
Qed.

Lemma sortSlots_both_pinned (a b : string) :
  includes a "billboard" = true ->
  includes b "billboard" = true ->
  sortSlots a b =
    Ret (if indexOf a "billboard" - indexOf b "billboard" =? 0
         then match String.compare a b with Lt => -1 | Gt => 1 | Eq => 0 end
         else indexOf a "billboard" - indexOf b "billboard").
Proof.
  intros Ha Hb. unfold sortSlots, str_lt, str_gt. rewrite Ha, Hb. cbn [andb].
  destruct (_ =? 0); cbn [negb]; [|reflexivity].
  destruct (String.compare a b); reflexivity.
Qed.

Lemma sample_sorted_unique (l : list string) :
  Permutation l sample_ids -> Sorted mayPrecede l -> l = sample_sorted.
Proof.
  intros Hp Hs.
  assert (Hlen : length l = 3%nat) by (rewrite (Permutation_length Hp); reflexivity).
  assert (Hnd : List.NoDup l).
  { apply (Permutation_NoDup (Permutation_sym Hp)).
    repeat constructor; cbn; intuition discriminate. }
  assert (Hin : forall x, List.In x l -> List.In x sample_ids)
    by (intros x Hx; exact (Permutation_in x Hp Hx)).
  destruct l as [|p [|q [|r [|? ?]]]]; try discriminate.
  assert (Hpq : mayPrecede p q).
  { inversion Hs as [|? ? ? Hh]; subst. inversion Hh; subst. assumption. }
  assert (Hqr : mayPrecede q r).
  { inversion Hs as [|? ? Ht ?]; subst. inversion Ht as [|? ? ? Hh]; subst.
    inversion Hh; subst. assumption. }
  assert (Hne : p <> q /\ p <> r /\ q <> r).
  { inversion Hnd as [|? ? Hn1 Hn2]; subst. inversion Hn2 as [|? ? Hn3 ?]; subst.
    cbn in Hn1, Hn3. intuition. }
  destruct Hne as (Hpq' & Hpr' & Hqr').
  destruct Hpq as (c1 & Hc1 & Hle1), Hqr as (c2 & Hc2 & Hle2).
  destruct (Hin p) as [<-|[<-|[<-|[]]]]; [left; reflexivity| | |];
  (destruct (Hin q) as [<-|[<-|[<-|[]]]]; [right; left; reflexivity| | |]);
  (destruct (Hin r) as [<-|[<-|[<-|[]]]]; [right; right; left; reflexivity| | |]);
  try congruence;
  vm_compute in Hc1, Hc2;
  try (injection Hc1 as <-); try (injection Hc2 as <-);
  try reflexivity; try (exfalso; lia).
Qed.

Lemma includes_occurs (key s : string) :
  key <> EmptyString ->
  (includes s key = true <-> exists m, occursAt key s m)
  /\ (includes s key = false <-> forall m, ~ occursAt key s m).
Proof.
  intros Hkey. unfold includes, occursAt.
  destruct (String.index 0 key s) as [m|] eqn:Hidx.
  - pose proof (index_correct1 _ _ _ _ Hidx) as Hm. split; split.
    + intros _. exists m. exact Hm.
    + reflexivity.
    + discriminate.
    + intros Hno. exfalso. exact (Hno m Hm).
  - pose proof (fun m => index_correct3 0 m _ _ Hidx Hkey (Nat.le_0_l m)) as Hno.
    split; split.
    + discriminate.
    + intros [m Hm]. exfalso. exact (Hno m Hm).
    + intros _. exact Hno.
    + reflexivity.
Qed.

Lemma indexOf_firstAt (key s : string) (m : nat) :
  key <> EmptyString ->
  firstAt key s m -> indexOf s key = Z.of_nat m /\ includes s key = true.
Proof.
  intros Hkey [Hm Hfirst]. unfold indexOf, includes, occursAt in *.
  destruct (String.index 0 key s) as [m'|] eqn:Hidx.
  - split; [|reflexivity]. f_equal.
    pose proof (index_correct1 _ _ _ _ Hidx) as Hm'.
    pose proof (index_correct2 _ _ _ _ Hidx) as Hbefore.
    destruct (Nat.lt_trichotomy m' m) as [Hlt|[Heq|Hgt]].
    + exfalso. exact (Hfirst m' Hlt Hm').
    + exact Heq.
    + exfalso. exact (Hbefore m (Nat.le_0_l m) Hgt Hm).
  - exfalso. exact (index_correct3 0 m _ _ Hidx Hkey (Nat.le_0_l m) Hm).
Qed.

(** C9. [sortSlots] puts an id in which the keyword ['billboard'] occurs
    before an id in which it does not occur (the comparator is negative in
    that order and positive in the other, for the non-empty ids slots have);
    two ids with the keyword are ordered by the position of its first
    occurrence, the smaller position first, and at equal positions as
    strings.  Sorting ["x.billboard.2"; "a.billboard.1"; "z.other"] gives
    a.billboard.1, x.billboard.2, z.other, and that is the only arrangement
    of the three ids that is sorted for the comparator; sorting
    ["ab.billboard"; "x.billboard"; "z.other"] puts x.billboard, with the
    keyword at position 2, before ab.billboard, with the keyword at
    position 3. *)
Theorem sortSlots_orders_pinned_first :
  (forall a b m, occursAt "billboard" a m -> (forall n, ~ occursAt "billboard" b n) ->
     sortSlots a b = Ret (-1))
  /\ (forall a b n, a <> EmptyString ->
        (forall m, ~ occursAt "billboard" a m) -> occursAt "billboard" b n ->
        sortSlots a b = Ret 1)
  /\ (forall a b m n, firstAt "billboard" a m -> firstAt "billboard" b n ->
        exists c, sortSlots a b = Ret c
          /\ ((m < n)%nat -> c < 0)
          /\ ((n < m)%nat -> 0 < c)
          /\ (m = n ->
              c = match String.compare a b with Lt => -1 | Gt => 1 | Eq => 0 end))
  /\ sortBy sortSlots sample_ids = Ret sample_sorted
  /\ (forall l, Permutation l sample_ids -> Sorted mayPrecede l -> l = sample_sorted)
  /\ sortBy sortSlots positioned_ids = Ret positioned_sorted.
Proof.
  assert (Hkey : "billboard" <> EmptyString) by discriminate.
  split; [|split; [|split; [|split; [|split]]]].
  - intros a b m Ha Hb.
    assert (Ha' : includes a "billboard" = true).
    { apply (includes_occurs "billboard" a Hkey). exists m. exact Ha. }
    assert (Hb' : includes b "billboard" = false).
    { apply (includes_occurs "billboard" b Hkey). exact Hb. }
    unfold sortSlots. rewrite Ha', Hb'. reflexivity.
  - intros a b n Hne Ha Hb.
    assert (Ha' : includes a "billboard" = false).
    { apply (includes_occurs "billboard" a Hkey). exact Ha. }
    assert (Hb' : includes b "billboard" = true).
    { apply (includes_occurs "billboard" b Hkey). exists n. exact Hb. }
    unfold sortSlots. rewrite Ha', Hb'. cbn [andb negb].
    destruct a as [|c a']; [congruence|]. cbn [firstChar].
    rewrite single_char_not_pinned. reflexivity.
  - intros a b m n Ha Hb.
    destruct (indexOf_firstAt "billboard" a m Hkey Ha) as [Hia Ha'].
    destruct (indexOf_firstAt "billboard" b n Hkey Hb) as [Hib Hb'].
    rewrite (sortSlots_both_pinned a b Ha' Hb'), Hia, Hib.
    eexists; split; [reflexivity|].
    destruct (Z.eqb_spec (Z.of_nat m - Z.of_nat n) 0);
      repeat split; intros; lia.
  - vm_compute. reflexivity.
  - exact sample_sorted_unique.
  - vm_compute. reflexivity.
Qed.

Lemma sortSlots_orders_pinned_first_witness :
  firstAt "billboard" "x.billboard" 2 /\ firstAt "billboard" "ab.billboard" 3
  /\ exists c, sortSlots "x.billboard" "ab.billboard" = Ret c /\ c < 0.
Proof.
  assert (H1 : firstAt "billboard" "x.billboard" 2).
  { split; [reflexivity|].
    intros [|[|p]] Hp Hc; [discriminate Hc|discriminate Hc|lia]. }
  assert (H2 : firstAt "billboard" "ab.billboard" 3).
  { split; [reflexivity|].
    intros [|[|[|p]]] Hp Hc; [discriminate Hc|discriminate Hc|discriminate Hc|lia]. }
  split; [exact H1|]. split; [exact H2|].
  destruct (proj1 (proj2 (proj2 sortSlots_orders_pinned_first))
              "x.billboard" "ab.billboard" 2%nat 3%nat H1 H2) as (c & Hc & Hlt & _).
  exists c. split; [exact Hc|]. apply Hlt. lia.
Defined.

(** ** The throttle window *)

Lemma Qlt_bool_iff (x y : Q) : Qlt_bool x y = true <-> (x < y)%Q.
Proof.
  unfold Qlt_bool. rewrite negb_true_iff.
  split.
  - intros Hb. apply Qnot_le_lt. intros Hle.
    apply Qle_bool_iff in Hle. congruence.
  - intros Hlt. destruct (Qle_bool y x) eqn:Hb; [|reflexivity].
    apply Qle_bool_iff in Hb. exfalso. exact (Qlt_not_le _ _ Hlt Hb).
Qed.

(** The window in milliseconds: more than 3 seconds and less than 63 minutes. *)
Lemma inWindow_ms (now t : Z) :
  inWindow now (Some t) = true <-> 3000 < Z.abs (now - t) < 3780000.
Proof.
  unfold inWindow. rewrite andb_true_iff, !Qlt_bool_iff.
  unfold hoursBetween, GOOGLE_INTERSTITIAL_TIME, GOOGLE_INTERSTITIAL_MIN_TIME,
    HOUR_IN_MILLISECONDS, Qlt, Qdiv, Qmult, Qinv, inject_Z.
  cbn [Qnum Qden]. cbn -[Z.abs Z.mul Z.lt]. lia.
Qed.

(** ** The interstitial policies *)

Ltac runP :=
  unfold mbind, mret, P_bind, P_ret, askP, logP, throwP, outcomeP, callP in *;
  cbn [fst snd app] in *.

Ltac runM :=
  unfold mbind, mret, M_bind, M_ret, gets, modify, throwM, outcomeM, logM,
    callM, liftP, skip, update in *;
  cbn [fst snd] in *.

Lemma fullInterstitial_window :
  fullInterstitialPolicy 3000 3780000.
Proof.
  intros CR E i nowMs a t v Hid Href Hpay Hready Hitem.
  unfold shouldDisplayInterstitialFull. runP.
  rewrite Hid, Href, Hpay, Hready, Hitem. cbn.
  destruct (Z.ltb_spec a 3) as [Hlt|Hge].
  - exists false. repeat split; intros; try lia; try discriminate.
  - exists (inWindow nowMs (Some t)). split; [reflexivity|]. split; [lia|].
    intros _. apply inWindow_ms.
Qed.

(** C3 (as amended). For a full-interstitial slot whose preconditions hold
    (referrer of the site, user not paying, readiness flag true, a durable
    record with a timestamp), the check denies when the attempt count is
    below 3 and otherwise allows exactly when the time since [showTime] is
    strictly between 3 seconds ([3 / 3600] of an hour) and 63 minutes.  With
    attempt count 2 the check 30 minutes after [showTime] is denied; with
    attempt count 3 it is allowed after 30 minutes and denied after 70. *)
Theorem fullInterstitial_policy :
  fullInterstitialPolicy 3000 3780000
  /\ (forall T : Z,
        shouldDisplayInterstitialFull
          (page "https://www.haaretz.co.il/" "anonymous" (T + 1800000))
          "page.full_interstitial.mobile" (T + 1800000) (viewWith (recordOf 2 T))
          = ([], Ret (VBool false))
        /\ shouldDisplayInterstitialFull
          (page "https://www.haaretz.co.il/" "anonymous" (T + 1800000))
          "page.full_interstitial.mobile" (T + 1800000) (viewWith (recordOf 3 T))
          = ([], Ret (VBool true))
        /\ shouldDisplayInterstitialFull
          (page "https://www.haaretz.co.il/" "anonymous" (T + 4200000))
          "page.full_interstitial.mobile" (T + 4200000) (viewWith (recordOf 3 T))
          = ([], Ret (VBool false))).
Proof.
  split; [exact fullInterstitial_window|].
  intros T.
  pose proof (fun a nowMs =>
    fullInterstitial_window specResolver
      (page "https://www.haaretz.co.il/" "anonymous" nowMs)
      "page.full_interstitial.mobile" nowMs a T (viewWith (recordOf a T))
      eq_refl eq_refl eq_refl eq_refl eq_refl) as Hpol.
  split; [|split].
  - destruct (Hpol 2 (T + 1800000)) as (b & -> & Hlow & _).
    rewrite Hlow by lia. reflexivity.
  - destruct (Hpol 3 (T + 1800000)) as (b & -> & _ & Hwin).
    destruct (Hwin ltac:(lia)) as [_ Hin]. rewrite Hin by lia. reflexivity.
  - destruct (Hpol 3 (T + 4200000)) as (b & -> & _ & Hwin).
    destruct b; [|reflexivity].
    destruct (Hwin ltac:(lia)) as [Hout _]. specialize (Hout eq_refl). lia.
Qed.

Lemma fullInterstitial_policy_witness :
  exists b,
    shouldDisplayInterstitialFull
      (page "https://www.haaretz.co.il/" "anonymous" 5000)
      "page.full_interstitial.mobile" 5000 (viewWith (recordOf 3 0))
      = ([], Ret (VBool b))
    /\ (3 <= 3 -> (b = true <-> 3000 < Z.abs (5000 - 0) < 3780000)).
Proof.
  destruct (proj1 fullInterstitial_policy specResolver
              (page "https://www.haaretz.co.il/" "anonymous" 5000)
              "page.full_interstitial.mobile" 5000 3 0 (viewWith (recordOf 3 0))
              eq_refl eq_refl eq_refl eq_refl eq_refl) as (b & Hrun & _ & Hwin).
  exists b. split; [exact Hrun|exact Hwin].
Defined.

(** C3 (as stated) fails: with a lower bound of 10.8 seconds the policy would
    deny a presentation 5 seconds after [showTime], which the check allows. *)
Lemma fullInterstitial_min_cooldown_counterexample :
  ~ fullInterstitialPolicy 10800 3780000.
Proof.
  intros Hclaim.
  destruct (Hclaim specResolver
              (page "https://www.haaretz.co.il/" "anonymous" 5000)
              "page.full_interstitial.mobile" 5000 3 0 (viewWith (recordOf 3 0))
              eq_refl eq_refl eq_refl eq_refl eq_refl) as (b & Hrun & _ & Hwin).
  vm_compute in Hrun. injection Hrun as <-.
  destruct (Hwin ltac:(lia)) as [Hout _]. specialize (Hout eq_refl). lia.
Qed.

Lemma noAttempt_or_below (a : option Z) :
  noAttempt a || attemptBelow a 2 = false <-> exists n, a = Some n /\ 2 <= n.
Proof.
  unfold noAttempt, attemptBelow. destruct a as [n|]; cbn.
  - rewrite orb_false_iff, Z.eqb_neq, Z.ltb_ge. split.
    + intros [_ Hge]. exists n. split; [reflexivity|lia].
    + intros (m & [= <-] & Hge). lia.
  - split; [discriminate|]. intros (n & Hn & _). discriminate.
Qed.

(** C4 (as amended). For a small-interstitial slot: a paying user is denied
    when the session flag is already set and is otherwise allowed, the flag
    being set by the check; a user who is not paying is allowed unless the
    referrer is a page of the site ([isReferrerOfHaaretz]) and a durable
    record exists with an attempt count of 2 or more, in which case the check
    denies. *)
Theorem smallInterstitial_policy :
  smallInterstitialPolicy true.
Proof.
  intros CR E i w Hid. unfold shouldDisplayInterstitialSmall. rewrite Hid.
  split; intros Hpay; rewrite Hpay.
  - runM. eexists _, _. split; [reflexivity|]. cbn. split; [auto|].
    intros ->. split; reflexivity.
  - runM. destruct (localItem w) as [item|] eqn:Hitem; cbn.
    + destruct (isReferrerOfHaaretz E) eqn:Href; cbn.
      * destruct item as [|r]; cbn.
        -- eexists _, _. split; [reflexivity|]. split; [discriminate|].
           intros (_ & r & a & [=] & _).
        -- destruct (noAttempt (attempt r) || attemptBelow (attempt r) 2) eqn:Hatt.
           ++ eexists _, _. split; [reflexivity|]. split; [discriminate|].
              intros (_ & r' & a & [= <-] & Ha & Hge).
              assert (Hf : noAttempt (attempt r) || attemptBelow (attempt r) 2 = false)
                by (apply noAttempt_or_below; eauto).
              congruence.
           ++ eexists _, _. split; [reflexivity|]. split; [|reflexivity].
              intros _. split; [reflexivity|].
              apply noAttempt_or_below in Hatt as (n & Hn & Hge). eauto.
      * eexists _, _. split; [reflexivity|]. split; [discriminate|].
        intros ([=] & _).
    + eexists _, _. split; [reflexivity|]. split; [discriminate|].
      intros (_ & r & a & [=] & _).
Qed.

Lemma smallInterstitial_policy_witness :
  exists b w',
    shouldDisplayInterstitialSmall (page "https://www.haaretz.co.il/" "anonymous" 0)
      "page.interstitial.mobile" (emptyWorld (recordOf 2 0)) = (Ret b, w')
    /\ (b = false <->
        isReferrerOfHaaretz (page "https://www.haaretz.co.il/" "anonymous" 0) = true
        /\ exists r a, localItem (emptyWorld (recordOf 2 0)) = Some (Stored r)
             /\ attempt r = Some a /\ 2 <= a).
Proof.
  exact (proj2 (smallInterstitial_policy specResolver
                  (page "https://www.haaretz.co.il/" "anonymous" 0)
                  "page.interstitial.mobile" (emptyWorld (recordOf 2 0)) eq_refl)
           eq_refl).
Defined.

(** A second check in the same session is denied to a paying user, whatever
    the first one answered: the check itself sets the session flag. *)
Lemma smallInterstitial_paying_once (CR : Type) (E : env) (i : string) (w : world CR) :
  includes i adTypes.interstitialSmall = true ->
  userIsPaying E = true ->
  fst (shouldDisplayInterstitialSmall E i (snd (shouldDisplayInterstitialSmall E i w)))
  = Ret false.
Proof.
  intros Hid Hpay. unfold shouldDisplayInterstitialSmall. rewrite Hid, Hpay.
  reflexivity.
Qed.

(** C4 (as stated) fails: a user who is not paying, arrives without a
    referrer and has a record with two attempts is allowed, where the claim
    has the check deny. *)
Lemma smallInterstitial_referrer_counterexample :
  ~ smallInterstitialPolicy false.
Proof.
  intros Hclaim.
  destruct (proj2 (Hclaim specResolver (page "" "anonymous" 0)
                     "page.interstitial.mobile" (emptyWorld (recordOf 2 0)) eq_refl)
              eq_refl) as (b & w' & Hrun & Hiff).
  vm_compute in Hrun. injection Hrun as <- _.
  assert (Hdeny : true = false); [|discriminate].
  apply Hiff. split; [reflexivity|].
  eexists _, 2. split; [reflexivity|]. split; [reflexivity|lia].
Qed.

(** ** Breakpoint containment *)

Lemma isZeroSize_iff (l : list sizeItem) :
  isZeroSize l = true <-> l = [Dims [0; 0]].
Proof.
  split; [|intros ->; reflexivity].
  intros Hz.
  destruct l as [|[[|[|p|p] [|[|p'|p'] [|z d]]]| |] [|y l']];
    cbn in Hz; try discriminate Hz.
  reflexivity.
Qed.

(** C7. For a responsive slot, [doesBreakpointContainAd] returns true exactly
    when the size mapping has an array under the name of the breakpoint that
    is neither empty nor the zero size [[0, 0]]; with an array there it
    always returns, and with no entry for the breakpoint it throws.  For the
    mapping {tierA: [[0,0]], tierB: [[300,250]]} it is false at tierA and true
    at tierB. *)
Theorem doesBreakpointContainAd_spec :
  (forall (CR : Type) (E : env) (s : AdSlot) (bp : Z) (v : view CR),
     responsive s = true ->
     (doesBreakpointContainAd E (Some s) bp v = ([], Ret true) <->
        exists l, responsiveAdSizeMapping s ≫= entryOf (getBreakpointName E bp)
                    = Some (Sizes l)
                  /\ l <> [] /\ l <> [Dims [0; 0]])
     /\ (forall l, responsiveAdSizeMapping s ≫= entryOf (getBreakpointName E bp)
                     = Some (Sizes l) ->
           exists b, doesBreakpointContainAd E (Some s) bp v = ([], Ret b))
     /\ (responsiveAdSizeMapping s ≫= entryOf (getBreakpointName E bp) = None ->
           exists e, doesBreakpointContainAd E (Some s) bp v = ([], Throw e)))
  /\ doesBreakpointContainAd (page "" "anonymous" 0) (Some tierSlot) 600 (viewWith None)
       = ([], Ret false)
  /\ doesBreakpointContainAd (page "" "anonymous" 0) (Some tierSlot) 1024 (viewWith None)
       = ([], Ret true).
Proof.
  split; [|split; reflexivity].
  intros CR E s bp v Hresp. unfold doesBreakpointContainAd. rewrite Hresp.
  destruct (responsiveAdSizeMapping s) as [m|]; cbn [mbind option_bind].
  2:{ split; [|split].
      - split; [discriminate|]. intros (l & [=] & _).
      - intros l [=].
      - intros _. eexists. reflexivity. }
  destruct (entryOf (getBreakpointName E bp) m) as [[|l]|].
  - split; [|split].
    + split; [discriminate|]. intros (l & [=] & _).
    + intros l [=].
    + intros [=].
  - split; [|split].
    + split.
      * intros [= Hb]. apply andb_true_iff in Hb as [Hlen Hz].
        exists l. split; [reflexivity|]. split.
        -- intros ->. discriminate.
        -- intros Heq. apply isZeroSize_iff in Heq. rewrite Heq in Hz. discriminate.
      * intros (l' & [= <-] & Hne & Hz).
        unfold mret, P_ret. do 2 f_equal. apply andb_true_iff. split.
        -- destruct l; [congruence|reflexivity].
        -- destruct (isZeroSize l) eqn:Hzs; [|reflexivity].
           apply isZeroSize_iff in Hzs. congruence.
    + intros l' _. eexists. reflexivity.
    + intros [=].
  - split; [|split].
    + split; [discriminate|]. intros (l & [=] & _).
    + intros l [=].
    + intros _. eexists. reflexivity.
Qed.

Lemma doesBreakpointContainAd_spec_witness :
  doesBreakpointContainAd (page "" "anonymous" 0) (Some tierSlot) 1024 (viewWith None)
    = ([], Ret true)
  <-> exists l, responsiveAdSizeMapping tierSlot
                  ≫= entryOf (getBreakpointName (page "" "anonymous" 0) 1024)
                = Some (Sizes l)
                /\ l <> [] /\ l <> [Dims [0; 0]].
Proof.
  exact (proj1 (proj1 doesBreakpointContainAd_spec specResolver
                  (page "" "anonymous" 0) tierSlot 1024 (viewWith None) eq_refl)).
Defined.

(** ** The admission gate *)

Section GateProperties.
Context {CR : Type} `{!ConflictResolver CR}.
Variable E : env.

Lemma view_of_emit (l : list event) (w : world CR) : view_of (emit l w) = view_of w.
Proof. reflexivity. Qed.

Lemma heap_emit (l : list event) (w : world CR) : heap (emit l w) = heap w.
Proof. reflexivity. Qed.

Lemma emit_nil (w : world CR) : emit [] w = w.
Proof. destruct w. unfold emit. cbn. rewrite app_nil_r. reflexivity. Qed.

(** The late binding of the element returns, leaves the view alone, and
    afterwards the slot has an element or the page has none for it. *)
Lemma bindHtmlElement_runs (r : ref) (w : world CR) :
  exists w1, bindHtmlElement E r w = (Ret tt, w1)
    /\ view_of w1 = view_of w /\ trace w1 = trace w
    /\ deferredSlots w1 = deferredSlots w /\ bound E r w1.
Proof.
  unfold bindHtmlElement, bound. runM.
  destruct (htmlElement (heap w r)) as [e|] eqn:Hel.
  - exists w. rewrite Hel. repeat split; try reflexivity. left. discriminate.
  - destruct (getElementById E (id (heap w r))) as [e|] eqn:Hdom.
    + eexists. split; [reflexivity|]. repeat split.
      left. cbn. rewrite !(Nat.eqb_refl r). cbn. discriminate.
    + exists w. rewrite Hel. repeat split; try reflexivity. right. assumption.
Qed.

Lemma bindHtmlElement_bound (r : ref) (w : world CR) :
  bound E r w -> bindHtmlElement E r w = (Ret tt, w).
Proof.
  unfold bindHtmlElement, bound. runM. intros [Hel|Hdom].
  - destruct (htmlElement (heap w r)); [reflexivity|congruence].
  - rewrite Hdom. destruct (htmlElement (heap w r)); reflexivity.
Qed.

Lemma emit_emit (l1 l2 : list event) (w : world CR) :
  emit l2 (emit l1 w) = emit (l1 ++ l2) w.
Proof. unfold emit. cbn. rewrite app_assoc. reflexivity. Qed.

Lemma gate_unfold (adSlot : option ref) (w : world CR) :
  exists w1,
    match adSlot with
    | Some r => bindHtmlElement E r w = (Ret tt, w1) /\ bound E r w1
    | None => w1 = w
    end
    /\ view_of w1 = view_of w /\ trace w1 = trace w
    /\ deferredSlots w1 = deferredSlots w
    /\ shouldSendRequestToDfp E adSlot w = gateResult E adSlot w1.
Proof.
  unfold shouldSendRequestToDfp, gateResult.
  destruct adSlot as [r|].
  - destruct (bindHtmlElement_runs r w) as (w1 & Hrun & Hview & Htr & Hdef & Hb).
    exists w1. repeat split; try assumption.
    unfold mbind at 1. unfold M_bind. rewrite Hrun.
    unfold tryCatchM. runM. cbn [fmap option_fmap option_map].
    destruct (gateP E (Some (heap w1 r)) (view_of w1)) as [l [v|e]]; [reflexivity|].
    unfold emit. cbn. rewrite <- ?app_assoc. reflexivity.
  - exists w. repeat split.
Qed.
End GateProperties.

Section GateTheorems.
Context {CR : Type} `{!ConflictResolver CR}.
Variable E : env.

Lemma gateP_not_ready (adSlot : option AdSlot) (v : view CR) :
  isReadyToRenderExternals E = false ->
  gateP E adSlot v = ([], Ret (VBool false)).
Proof.
  intros Hready. destruct adSlot as [s|]; [|reflexivity].
  unfold gateP, andThen. runP. rewrite Hready. reflexivity.
Qed.

(** C1. When the readiness flag is false the gate returns [false] for every
    slot and every state of the page, and nothing is invoked or logged on
    the way: the conjunction stops at the flag, so no later predicate
    (throttle, conflict, referrer, breakpoint, targeting) runs, not even one
    that would throw on this slot. *)
Theorem gate_short_circuits_when_not_ready (adSlot : option ref) (w : world CR) :
  isReadyToRenderExternals E = false ->
  (exists w', shouldSendRequestToDfp E adSlot w = (Ret (VBool false), w')
              /\ trace w' = trace w)
  /\ (forall (s : AdSlot) (v : view CR), gateP E (Some s) v = ([], Ret (VBool false))).
Proof.
  intros Hready. split.
  - destruct (gate_unfold E adSlot w) as (w1 & _ & _ & Htr & _ & ->).
    unfold gateResult. rewrite gateP_not_ready by assumption.
    eexists. split; [reflexivity|]. rewrite emit_nil. assumption.
  - intros s v. apply gateP_not_ready. assumption.
Qed.

Lemma nullOnlyIf_andThen (C : Prop) (p q : P CR value) :
  nullOnlyIf C p -> nullOnlyIf C q -> nullOnlyIf C (andThen p q).
Proof.
  intros Hp Hq v l x. unfold andThen. runP.
  destruct (p v) as [l1 [a|e]] eqn:Hpv; [|discriminate].
  destruct (truthy a) eqn:Ht.
  - destruct (q v) as [l2 o] eqn:Hqv. intros [= <- ->]. eapply Hq; eassumption.
  - intros [= <- <-]. eapply Hp; eassumption.
Qed.

Lemma nullOnlyIf_bool (C : Prop) (b : bool) :
  nullOnlyIf (CR := CR) C (mret (VBool b)).
Proof. intros v l x [= <- <-]. discriminate. Qed.

Lemma nullOnlyIf_call (C : Prop) (method arg : string) (p : P CR value) :
  nullOnlyIf C p -> nullOnlyIf C (callP method arg p).
Proof.
  intros Hp v l x. unfold callP. runP.
  destruct (p v) as [l1 o] eqn:Hpv. intros [= <- ->]. eapply Hp; eassumption.
Qed.

Lemma nullOnlyIf_asValue (C : Prop) (p : P CR bool) : nullOnlyIf C (asValue p).
Proof.
  intros v l x. unfold asValue. runP.
  destruct (p v) as [l1 [b|e]]; [|discriminate]. intros [= <- <-]. discriminate.
Qed.

Lemma nullOnlyIf_isFalse (C : Prop) (p : P CR bool) : nullOnlyIf C (isFalse p).
Proof.
  intros v l x. unfold isFalse. runP.
  destruct (p v) as [l1 [b|e]]; [|discriminate]. intros [= <- <-]. discriminate.
Qed.

(** The paywall check evaluates to [null] exactly under [paywallNull]. *)
Lemma paywall_null_iff (s : AdSlot) (v : view CR) (l : list event) (x : value) :
  shouldDisplayAdMaavaronAfterPayWallBanner E s v = (l, Ret x) ->
  (x = VNull <-> paywallNull E s).
Proof.
  unfold shouldDisplayAdMaavaronAfterPayWallBanner, paywallNull, typeIs.
  destruct (String.eqb_spec (site E) "haaretz") as [Hsite|Hsite]; cbn [andb].
  2: { intros [= <- <-]. split; [discriminate|]. intros (Hc & _). contradiction. }
  destruct (type s) as [t|].
  2: { intros [= <- <-]. split; [discriminate|]. intros (_ & Hc & _). discriminate. }
  destruct (String.eqb_spec t adTypes.maavaron) as [->|Ht].
  2: { intros [= <- <-]. split; [discriminate|]. intros (_ & Hc & _). congruence. }
  destruct (cobj E) as [| |mc loc] eqn:Hcobj.
  - intros [= <- <-]. split; [discriminate|].
    intros (_ & _ & mc & Hc & _). discriminate.
  - runP. intros [= <- <-]. split; [discriminate|].
    intros (_ & _ & mc & Hc & _). discriminate.
  - intros [= <- <-]. unfold orV, andV. cbn [truthy].
    assert (Hyes : forall mc0 : jsonField Z,
              (forall n, mc0 = FVal n -> n < 12) ->
              VNull = VNull
              <-> site E = "haaretz" /\ Some adTypes.maavaron = Some adTypes.maavaron
                  /\ exists mc', Cobj mc0 FNull = Cobj mc' FNull
                       /\ forall n, mc' = FVal n -> n < 12).
    { intros mc0 Hlt. split; [|reflexivity]. intros _.
      split; [exact Hsite|]. split; [reflexivity|].
      exists mc0. split; [reflexivity|exact Hlt]. }
    assert (Hno : forall (x : value) (mc0 : jsonField Z) (loc0 : jsonField string),
              x <> VNull ->
              (loc0 <> FNull \/ exists n, mc0 = FVal n /\ 12 <= n) ->
              x = VNull
              <-> site E = "haaretz" /\ Some adTypes.maavaron = Some adTypes.maavaron
                  /\ exists mc', Cobj mc0 loc0 = Cobj mc' FNull
                       /\ forall n, mc' = FVal n -> n < 12).
    { intros x mc0 loc0 Hx Hwhy. split; [contradiction|].
      intros (_ & _ & mc' & [= <- ->] & Hlt). exfalso.
      destruct Hwhy as [Hl|(n & -> & Hn)]; [congruence|].
      specialize (Hlt n eq_refl). lia. }
    destruct mc as [| |n]; cbn [truthy negb].
    + destruct loc as [| |q]; cbn [truthy].
      * apply Hno; [discriminate|left; discriminate].
      * apply Hyes. intros n [=].
      * destruct (negb (String.eqb q ""));
          (apply Hno; [discriminate|left; discriminate]).
    + destruct loc as [| |q]; cbn [truthy].
      * apply Hno; [discriminate|left; discriminate].
      * apply Hyes. intros n [=].
      * destruct (negb (String.eqb q ""));
          (apply Hno; [discriminate|left; discriminate]).
    + destruct (Z.eqb_spec n 0) as [->|Hn]; cbn [negb truthy].
      * destruct loc as [| |q]; cbn [truthy].
        -- apply Hno; [discriminate|left; discriminate].
        -- apply Hyes. intros n [= <-]. lia.
        -- destruct (negb (String.eqb q ""));
             (apply Hno; [discriminate|left; discriminate]).
      * destruct (Z.leb_spec 12 n) as [Hge|Hlt]; cbn [truthy].
        -- apply Hno; [discriminate|]. right. exists n. split; [reflexivity|exact Hge].
        -- destruct loc as [| |q]; cbn [truthy].
           ++ apply Hno; [discriminate|left; discriminate].
           ++ apply Hyes. intros n' [= <-]. exact Hlt.
           ++ destruct (negb (String.eqb q ""));
                (apply Hno; [discriminate|left; discriminate]).
Qed.

Lemma gateP_null_only (s : AdSlot) :
  nullOnlyIf (paywallNull E s) (gateP E (Some s)).
Proof.
  unfold gateP.
  repeat first
    [ apply nullOnlyIf_andThen
    | apply nullOnlyIf_call
    | apply nullOnlyIf_bool
    | apply nullOnlyIf_asValue
    | apply nullOnlyIf_isFalse ].
  - intros v l x [= <- <-]. destruct (htmlElement s); discriminate.
  - intros v l x Hrun Hx. exact (proj1 (paywall_null_iff s v l x Hrun) Hx).
Qed.
End GateTheorems.

Section GateOutcomes.
Context {CR : Type} `{!ConflictResolver CR}.
Variable E : env.

Lemma gateResult_emits (adSlot : option ref) (w : world CR) :
  exists l, snd (gateResult E adSlot w) = emit l w.
Proof.
  unfold gateResult.
  destruct (gateP E _ (view_of w)) as [l [v|e]]; eexists; reflexivity.
Qed.

Lemma gateResult_after_emit (adSlot : option ref) (l : list event) (w : world CR) :
  fst (gateResult E adSlot (emit l w)) = fst (gateResult E adSlot w).
Proof.
  unfold gateResult. rewrite view_of_emit, heap_emit.
  destruct (gateP E _ (view_of w)) as [l' [v|e]]; reflexivity.
Qed.

Lemma bound_emit (r : ref) (l : list event) (w : world CR) :
  bound E r w -> bound E r (emit l w).
Proof. unfold bound. rewrite heap_emit. trivial. Qed.

(** C5 (as amended). The gate never throws.  When a predicate of the
    conjunction throws, the gate logs the exception and returns [null],
    which is falsy: the slot is not admitted.  When no predicate throws the
    gate returns the value of the conjunction, and that value is [null] in
    one case only: the paywall-banner check evaluates to [null], which it
    does on the haaretz site for a slot of the maavaron type when the stored
    paywall object has a [nextslotLocation] that is [null] and no [mc] from
    12 on.  In every other case the result after an exception differs from
    the result of an ordinary denial. *)
Theorem gate_fail_closed (adSlot : option ref) (w : world CR) :
  exists w1,
    match adSlot with
    | Some r => bindHtmlElement E r w = (Ret tt, w1)
    | None => w1 = w
    end
    /\ (forall l e,
          gateP E ((fun r => heap w1 r) <$> adSlot) (view_of w1) = (l, Throw e) ->
          exists w', shouldSendRequestToDfp E adSlot w = (Ret VNull, w')
                     /\ truthy VNull = false
                     /\ In (ConsoleError "shouldSendRequestToDfp") (trace w'))
    /\ (forall l v,
          gateP E ((fun r => heap w1 r) <$> adSlot) (view_of w1) = (l, Ret v) ->
          exists w', shouldSendRequestToDfp E adSlot w = (Ret v, w')
                     /\ trace w' = trace w ++ l
                     /\ (v = VNull ->
                         exists r, adSlot = Some r /\ paywallNull E (heap w1 r))).
Proof.
  destruct (gate_unfold E adSlot w) as (w1 & Hbind & _ & Htr & _ & Hgate).
  exists w1. split; [destruct adSlot; tauto|].
  unfold gateResult in Hgate. split.
  - intros l e Hthrow. rewrite Hthrow in Hgate.
    eexists. split; [eassumption|]. split; [reflexivity|].
    cbn [trace emit]. apply in_or_app. right. apply in_or_app. right.
    left. reflexivity.
  - intros l v Hret. rewrite Hret in Hgate.
    eexists. split; [eassumption|]. split.
    + cbn [trace emit]. rewrite Htr. reflexivity.
    + intros Hnull. destruct adSlot as [r|].
      * exists r. split; [reflexivity|].
        exact (gateP_null_only E (heap w1 r) _ _ _ Hret Hnull).
      * cbn in Hret. injection Hret as _ <-. discriminate.
Qed.

(** C8. Asking the gate twice in a row about the same slot gives the same
    result: the first call leaves the referrer, the durable records, the
    conflict resolver and the user as they were, and the element it may bind
    to the slot is the one the second call finds bound. *)
Theorem gate_idempotent (adSlot : option ref) (w : world CR) :
  fst (shouldSendRequestToDfp E adSlot (snd (shouldSendRequestToDfp E adSlot w)))
  = fst (shouldSendRequestToDfp E adSlot w).
Proof.
  destruct (gate_unfold E adSlot w) as (w1 & Hbind & _ & _ & _ & ->).
  destruct (gateResult_emits adSlot w1) as (l & ->).
  destruct (gate_unfold E adSlot (emit l w1)) as (w2 & Hbind2 & _ & _ & _ & ->).
  destruct adSlot as [r|].
  - destruct Hbind as [_ Hb], Hbind2 as [Hrun _].
    rewrite (bindHtmlElement_bound E r _ (bound_emit r l w1 Hb)) in Hrun.
    injection Hrun as <-. apply gateResult_after_emit.
  - subst w2. apply gateResult_after_emit.
Qed.
End GateOutcomes.

Lemma gate_short_circuits_when_not_ready_witness :
  (exists w', shouldSendRequestToDfp notReadyPage (Some 0%nat) (worldOf unmappedSlot)
              = (Ret (VBool false), w')
              /\ trace w' = trace (worldOf unmappedSlot))
  /\ exists l e,
       doesBreakpointContainAd (CR := specResolver) notReadyPage (Some unmappedSlot)
         (currentBreakpoint notReadyPage) (viewWith None) = (l, Throw e).
Proof.
  split.
  - exact (proj1 (gate_short_circuits_when_not_ready notReadyPage (Some 0%nat)
                    (worldOf unmappedSlot) eq_refl)).
  - eexists _, _. reflexivity.
Defined.

Lemma gate_fail_closed_witness :
  (exists w', shouldSendRequestToDfp (page "" "anonymous" 0) (Some 0%nat)
                (worldOf unmappedSlot) = (Ret VNull, w')
              /\ truthy VNull = false
              /\ In (ConsoleError "shouldSendRequestToDfp") (trace w'))
  /\ (exists w', shouldSendRequestToDfp (page "" "anonymous" 0) (Some 0%nat)
                   (worldOf (slotOf "page.top" "paying")) = (Ret (VBool false), w')
                 /\ VBool false <> VNull).
Proof.
  split.
  - destruct (gate_fail_closed (page "" "anonymous" 0) (Some 0%nat)
                (worldOf unmappedSlot)) as (w1 & Hbind & Hthrow & _).
    rewrite bindHtmlElement_bound in Hbind by (left; discriminate).
    injection Hbind as <-.
    eapply Hthrow. vm_compute. reflexivity.
  - destruct (gate_fail_closed (page "" "anonymous" 0) (Some 0%nat)
                (worldOf (slotOf "page.top" "paying"))) as (w1 & Hbind & _ & Hret).
    rewrite bindHtmlElement_bound in Hbind by (left; discriminate).
    injection Hbind as <-.
    destruct (Hret _ (VBool false) ltac:(vm_compute; reflexivity)) as (w' & Hrun & _).
    exists w'. split; [exact Hrun|discriminate].
Defined.

(** With [{"nextslotLocation": null}] stored as the paywall object, the gate
    returns [null] for a maavaron slot although no predicate throws and
    nothing is logged: the value of an ordinary denial is here the value of
    the [catch]. *)
Lemma gate_null_without_exception_counterexample :
  exists l w',
    gateP (CR := specResolver) paywallNullPage (Some maavaronInPage)
      (view_of (worldOf maavaronInPage)) = (l, Ret VNull)
    /\ shouldSendRequestToDfp paywallNullPage (Some 0%nat) (worldOf maavaronInPage)
       = (Ret VNull, w')
    /\ ~ In (ConsoleError "shouldSendRequestToDfp") (trace w').
Proof.
  eexists _, _. split; [vm_compute; reflexivity|]. split; [vm_compute; reflexivity|].
  cbn. intros Hin.
  repeat (destruct Hin as [Hin|Hin]; [discriminate Hin|]). exact Hin.
Defined.

(** ** Frames: what the methods leave alone *)

Section Frames.
Context {CR : Type}.
Variable R : world CR -> world CR -> Prop.
Hypothesis R_refl : forall w, R w w.
Hypothesis R_trans : forall w1 w2 w3, R w1 w2 -> R w2 w3 -> R w1 w3.

Lemma framed_ret {A} (a : A) : framed R (mret a : M CR A).
Proof. intros w. apply R_refl. Qed.

Lemma framed_skip : framed R (skip : M CR unit).
Proof. intros w. apply R_refl. Qed.

Lemma framed_throw {A} (e : exn) : framed R (throwM e : M CR A).
Proof. intros w. apply R_refl. Qed.

Lemma framed_gets {A} (f : world CR -> A) : framed R (gets f).
Proof. intros w. apply R_refl. Qed.

Lemma framed_outcome {A} (o : outcome A) : framed R (outcomeM o : M CR A).
Proof. intros w. apply R_refl. Qed.

Lemma framed_modify (f : world CR -> world CR) :
  (forall w, R w (f w)) -> framed R (modify f).
Proof. intros Hf w. apply Hf. Qed.

Lemma framed_bind {A B} (m : M CR A) (f : A -> M CR B) :
  framed R m -> (forall a, framed R (f a)) -> framed R (m ≫= f).
Proof.
  intros Hm Hf w. unfold mbind, M_bind. specialize (Hm w).
  destruct (m w) as [[a|e] w1]; cbn in *; [|assumption].
  eapply R_trans; [eassumption|apply Hf].
Qed.

Lemma framed_tryCatch {A} (m : M CR A) (h : exn -> M CR A) :
  framed R m -> (forall e, framed R (h e)) -> framed R (tryCatchM m h).
Proof.
  intros Hm Hh w. unfold tryCatchM. specialize (Hm w).
  destruct (m w) as [[a|e] w1]; cbn in *; [assumption|].
  eapply R_trans; [eassumption|apply Hh].
Qed.

Lemma framed_liftP {A} (p : P CR A) :
  (forall v w, R w (emit (fst (p v)) w)) -> framed R (liftP p).
Proof.
  intros Hp w. unfold liftP. specialize (Hp (view_of w) w).
  destruct (p (view_of w)) as [l o]. exact Hp.
Qed.

Lemma framed_forOf {A} (xs : list A) (body : A -> M CR unit) :
  (forall x, framed R (body x)) -> framed R (forOf xs body).
Proof.
  intros Hb. induction xs as [|x xs IH]; cbn [forOf].
  - apply framed_skip.
  - apply framed_bind; [apply Hb|intros _; exact IH].
Qed.
End Frames.

Section EmitsP.
Context {CR : Type}.
Variable Q : event -> Prop.

Lemma emitsP_ret {A} (a : A) : emitsP Q (mret a : P CR A).
Proof. intros v. constructor. Qed.

Lemma emitsP_throw {A} (e : exn) : emitsP Q (throwP e : P CR A).
Proof. intros v. constructor. Qed.

Lemma emitsP_ask {A} (f : view CR -> A) : emitsP Q (askP f).
Proof. intros v. constructor. Qed.

Lemma emitsP_outcome {A} (o : outcome A) : emitsP Q (outcomeP o : P CR A).
Proof. intros v. constructor. Qed.

Lemma emitsP_log (ev : event) : Q ev -> emitsP Q (logP ev : P CR unit).
Proof. intros Hq v. cbn. constructor; [assumption|constructor]. Qed.

Lemma emitsP_bind {A B} (p : P CR A) (f : A -> P CR B) :
  emitsP Q p -> (forall a, emitsP Q (f a)) -> emitsP Q (p ≫= f).
Proof.
  intros Hp Hf v. unfold mbind, P_bind. specialize (Hp v).
  destruct (p v) as [l1 [a|e]]; cbn in *; [|assumption].
  specialize (Hf a v). destruct (f a v) as [l2 o]. cbn in *.
  apply Forall_app. split; assumption.
Qed.

Lemma emitsP_extends {A} (p : P CR A) :
  emitsP Q p -> forall v (w : world CR), extendsTrace Q w (emit (fst (p v)) w).
Proof. intros Hp v w. exists (fst (p v)). split; [reflexivity|apply Hp]. Qed.
End EmitsP.

Lemma extendsTrace_refl {CR : Type} (Q : event -> Prop) (w : world CR) :
  extendsTrace Q w w.
Proof. exists []. split; [symmetry; apply app_nil_r|constructor]. Qed.

Lemma extendsTrace_trans {CR : Type} (Q : event -> Prop) (w1 w2 w3 : world CR) :
  extendsTrace Q w1 w2 -> extendsTrace Q w2 w3 -> extendsTrace Q w1 w3.
Proof.
  intros (l1 & H1 & Q1) (l2 & H2 & Q2). exists (l1 ++ l2). split.
  - rewrite H2, H1, app_assoc. reflexivity.
  - apply Forall_app. split; assumption.
Qed.

Lemma sameDeferred_refl {CR : Type} (w : world CR) : sameDeferred w w.
Proof. reflexivity. Qed.

Lemma sameDeferred_trans {CR : Type} (w1 w2 w3 : world CR) :
  sameDeferred w1 w2 -> sameDeferred w2 w3 -> sameDeferred w1 w3.
Proof. unfold sameDeferred. congruence. Qed.

Ltac emitsP_go :=
  repeat first
    [ apply emitsP_ret
    | apply emitsP_throw
    | apply emitsP_ask
    | apply emitsP_outcome
    | apply emitsP_log; cbn; first [exact I | discriminate]
    | apply emitsP_bind; [|intros ?]
    | match goal with
      | |- emitsP _ (if ?b then _ else _) => destruct b
      | |- emitsP _ (match ?x with _ => _ end) => destruct x
      end ].

Ltac framed_go Hrefl Htrans side :=
  repeat first
    [ apply (framed_ret _ Hrefl)
    | apply (framed_skip _ Hrefl)
    | apply (framed_throw _ Hrefl)
    | apply (framed_gets _ Hrefl)
    | apply (framed_outcome _ Hrefl)
    | match goal with
      | |- framed _ (mbind _ _) => apply (framed_bind _ Htrans); [|intros ?]
      | |- framed _ (tryCatchM _ _) => apply (framed_tryCatch _ Htrans); [|intros ?]
      | |- framed _ (forOf _ _) => apply (framed_forOf _ Hrefl Htrans); intros ?
      | |- framed _ (modify _) => apply framed_modify; intros ?; side
      | |- framed _ (liftP _) => apply framed_liftP; intros ? ?; side
      | |- framed _ (if ?b then _ else _) => destruct b
      | |- framed _ (match ?x with _ => _ end) => destruct x
      end
    | progress unfold callM, logM, update ].

(** Side conditions: a write that leaves the trace alone, or adds to it one
    event that is not a call of [defineMaavaron]. *)
Ltac trace_side :=
  first
    [ solve [ exists []; split; [cbn; symmetry; apply app_nil_r|constructor] ]
    | solve [ eexists [_]; split;
              [reflexivity
              |constructor; [cbn; first [exact I | discriminate]|constructor]] ]
    | apply emitsP_extends ].

Ltac deferred_side := reflexivity.

Section MethodFrames.
Context {CR : Type} `{!ConflictResolver CR}.
Variable E : env.

Lemma isMaavaron_emits (s : AdSlot) : emitsP (CR := CR) notMaavaron (isMaavaron E s).
Proof. unfold isMaavaron. emitsP_go. Qed.

Lemma isOutOfPage_emits (s : AdSlot) : emitsP (CR := CR) notMaavaron (isOutOfPage E s).
Proof. unfold isOutOfPage. emitsP_go. Qed.

Lemma isInterstitial_emits (s : AdSlot) :
  emitsP (CR := CR) notMaavaron (isInterstitial E s).
Proof. unfold isInterstitial. emitsP_go. Qed.

Lemma getParsed_emits (item : option storedItem) :
  emitsP (CR := CR) notMaavaron (getParsed item).
Proof. unfold getParsed. emitsP_go. Qed.

Lemma gateP_emits (adSlot : option AdSlot) : emitsP notMaavaron (gateP E adSlot).
Proof.
  unfold gateP, andThen, callP, asValue, isFalse, googleInterstitialShouldDisplay,
    isGoogleInterstitial, shouldDisplayAdMaavaronAfterPayWallBanner,
    doesBreakpointContainAd.
  emitsP_go; apply getParsed_emits.
Qed.

Lemma gate_trace (adSlot : option ref) :
  framed (extendsTrace notMaavaron) (shouldSendRequestToDfp E adSlot).
Proof.
  unfold shouldSendRequestToDfp, bindHtmlElement.
  framed_go (extendsTrace_refl (CR := CR) notMaavaron)
            (extendsTrace_trans (CR := CR) notMaavaron) trace_side.
  apply gateP_emits.
Qed.

Lemma gate_deferred (adSlot : option ref) :
  framed sameDeferred (shouldSendRequestToDfp E adSlot).
Proof.
  unfold shouldSendRequestToDfp, bindHtmlElement.
  framed_go (sameDeferred_refl (CR := CR)) (sameDeferred_trans (CR := CR))
            deferred_side.
Qed.
End MethodFrames.

(** ** Slot definition never takes the maavaron branch *)

Section Maavaron.
Context {CR : Type} `{!ConflictResolver CR}.
Variable E : env.

Lemma isMaavaron_run (s : AdSlot) (v : view CR) :
  isMaavaron E s v
  = ([], match type s with
         | Some _ => Ret false
         | None => Throw (Error "An adSlot cannot by typeless!")
         end).
Proof.
  unfold isMaavaron. destruct (type s) as [t|]; [|reflexivity].
  destruct (isMobile E); [reflexivity|].
  destruct (String.eqb t adTypes.maavaron); reflexivity.
Qed.

Lemma addSizeFor_trace (r : ref) (key : string) :
  framed (extendsTrace notMaavaron) (addSizeFor (CR := CR) r key).
Proof.
  unfold addSizeFor.
  framed_go (extendsTrace_refl (CR := CR) notMaavaron)
            (extendsTrace_trans (CR := CR) notMaavaron) trace_side.
Qed.

Lemma defineSlotAsRegular_trace (r : ref) (s : AdSlot) :
  framed (extendsTrace notMaavaron) (defineSlotAsRegular E r s).
Proof.
  unfold defineSlotAsRegular.
  framed_go (extendsTrace_refl (CR := CR) notMaavaron)
            (extendsTrace_trans (CR := CR) notMaavaron) trace_side;
  first [ apply gate_trace | apply isOutOfPage_emits | apply isInterstitial_emits
        | apply addSizeFor_trace
        | match goal with
          | |- context [if ?b then _ else _] =>
              destruct b; apply framed_modify; intros ?; trace_side
          end ].
Qed.

Lemma defineSlot_regular (r : ref) (w : world CR) :
  defineSlot E r w
  = match type (heap w r) with
    | Some _ => defineSlotAsRegular E r (heap w r) w
    | None => (Throw (Error "An adSlot cannot by typeless!"), w)
    end.
Proof.
  unfold defineSlot. runM. cbn. rewrite isMaavaron_run, emit_nil.
  destruct (type (heap w r)); reflexivity.
Qed.

Lemma defineSlot_trace (r : ref) :
  framed (extendsTrace notMaavaron) (defineSlot E r).
Proof.
  intros w. rewrite defineSlot_regular.
  destruct (type (heap w r)).
  - apply defineSlotAsRegular_trace.
  - apply extendsTrace_refl.
Qed.
End Maavaron.

(** C10. [isMaavaron] returns false for every slot whose type is a string,
    on a mobile user agent or not, the maavaron type included.  [defineSlot]
    therefore always continues with its regular branch (or throws for a slot
    without a type, before any branch): none of the events it adds to the
    trace is a call of [defineMaavaron] or a passback definition. *)
Theorem isMaavaron_always_false :
  (forall (CR : Type) (E : env) (s : AdSlot) (t : string) (v : view CR),
     type s = Some t -> isMaavaron E s v = ([], Ret false))
  /\ (forall (CR : Type) (H : ConflictResolver CR) (E : env) (r : ref) (w : world CR)
        (t : string),
        type (heap w r) = Some t ->
        defineSlot E r w = defineSlotAsRegular E r (heap w r) w)
  /\ (forall (CR : Type) (H : ConflictResolver CR) (E : env) (r : ref) (w : world CR),
        extendsTrace notMaavaron w (snd (defineSlot E r w))).
Proof.
  split; [|split].
  - intros CR E s t v Ht. rewrite isMaavaron_run, Ht. reflexivity.
  - intros CR H E r w t Ht. rewrite defineSlot_regular, Ht. reflexivity.
  - intros CR H E r w. apply defineSlot_trace.
Qed.

Lemma isMaavaron_always_false_witness :
  isMaavaron (CR := specResolver) (page "" "anonymous" 0)
    (slotOf "page.top" "all") (viewWith None) = ([], Ret false)
  /\ isMaavaron (CR := specResolver) (page "" "anonymous" 0)
       maavaronSlot (viewWith None) = ([], Ret false).
Proof.
  split.
  - exact (proj1 isMaavaron_always_false specResolver (page "" "anonymous" 0)
             (slotOf "page.top" "all") adTypes.regular (viewWith None) eq_refl).
  - exact (proj1 isMaavaron_always_false specResolver (page "" "anonymous" 0)
             maavaronSlot adTypes.maavaron (viewWith None) eq_refl).
Defined.

(** ** Releasing deferred slots *)

Section Release.
Context {CR : Type} `{!ConflictResolver CR}.
Variable E : env.

Ltac deferred_go :=
  framed_go (sameDeferred_refl (CR := CR)) (sameDeferred_trans (CR := CR)) deferred_side.

Lemma bindHtmlElement_heap (r : ref) (w w1 : world CR) :
  bindHtmlElement E r w = (Ret tt, w1) -> heap w1 r = boundSlot E (heap w r).
Proof.
  unfold bindHtmlElement, boundSlot. runM.
  destruct (htmlElement (heap w r)) as [e|];
    [|destruct (getElementById E (id (heap w r))) as [e|]];
    intros [= <-]; cbn; rewrite ?(Nat.eqb_refl r); reflexivity.
Qed.

Lemma gate_value (r : ref) (w : world CR) :
  fst (shouldSendRequestToDfp E (Some r) w)
  = Ret (gateValue E (boundSlot E (heap w r)) (view_of w)).
Proof.
  destruct (gate_unfold E (Some r) w) as (w1 & [Hrun _] & Hview & _ & _ & ->).
  unfold gateResult, gateValue. cbn [fmap option_fmap option_map].
  rewrite (bindHtmlElement_heap r w w1 Hrun), Hview.
  destruct (gateP E _ (view_of w)) as [l [x|ex]]; reflexivity.
Qed.

Lemma gate_returns (adSlot : option ref) (w : world CR) :
  exists v, fst (shouldSendRequestToDfp E adSlot w) = Ret v.
Proof.
  destruct (gate_unfold E adSlot w) as (w1 & _ & _ & _ & _ & ->).
  unfold gateResult. destruct (gateP E _ (view_of w1)) as [l [v|e]]; eexists; reflexivity.
Qed.

Lemma gate_value_emit (r : ref) (l : list event) (w : world CR) :
  fst (shouldSendRequestToDfp E (Some r) (emit l w))
  = fst (shouldSendRequestToDfp E (Some r) w).
Proof. rewrite !gate_value. reflexivity. Qed.

Lemma defineSlot_deferred (r : ref) : framed (CR := CR) sameDeferred (defineSlot E r).
Proof.
  unfold defineSlot, defineSlotAsMaavaron, defineSlotAsRegular, defineMaavaron.
  deferred_go; first [apply gate_deferred | unfold addSizeFor; deferred_go].
Qed.

Lemma show_deferred (r : ref) : framed (CR := CR) sameDeferred (show E r).
Proof. unfold show. deferred_go. Qed.

Lemma defineAndShow_deferred (r : ref) : framed (CR := CR) sameDeferred (defineAndShow E r).
Proof.
  unfold defineAndShow.
  deferred_go; first [apply defineSlot_deferred | apply show_deferred].
Qed.

Lemma run_bind {A B} (m : M CR A) (f : A -> M CR B) (w : world CR) :
  (m ≫= f) w
  = match m w with
    | (Ret a, w') => f a w'
    | (Throw e, w') => (Throw e, w')
    end.
Proof. reflexivity. Qed.

Lemma run_gets {A} (f : world CR -> A) (w : world CR) : gets f w = (Ret (f w), w).
Proof. reflexivity. Qed.

Lemma run_outcome {A} (o : outcome A) (w : world CR) : outcomeM o w = (o, w).
Proof. reflexivity. Qed.

Lemma run_modify (f : world CR -> world CR) (w : world CR) :
  modify f w = (Ret tt, f w).
Proof. reflexivity. Qed.

Lemma run_call {A} (method arg : string) (m : M CR A) (w : world CR) :
  callM method arg m w = m (emit [Invoked method arg] w).
Proof. reflexivity. Qed.

(** One round of the loop, after the lookup of the key: the gate is asked
    and returns; a slot it refuses is left alone, a slot it admits leaves the
    set and is defined and shown. *)
Lemma releaseDeferred_run (key : string) (w : world CR) :
  releaseDeferred E key w
  = match adSlots w !! key with
    | None => (Ret tt, w)
    | Some r =>
        let w1 := snd (shouldSendRequestToDfp E (Some r)
                         (emit [Invoked "shouldSendRequestToDfp" key] w)) in
        if admits E key w
        then defineAndShow E r (set_deferredSlots (deleteKey key (deferredSlots w1)) w1)
        else (Ret tt, w1)
    end.
Proof.
  unfold releaseDeferred, admits. rewrite run_bind. unfold gets at 1.
  destruct (adSlots w !! key) as [r|]; [|reflexivity].
  rewrite run_bind, run_call.
  rewrite <- (gate_value_emit r [Invoked "shouldSendRequestToDfp" key] w).
  destruct (gate_returns (Some r) (emit [Invoked "shouldSendRequestToDfp" key] w))
    as (v & Hv).
  destruct (shouldSendRequestToDfp E (Some r) (emit _ w)) as [o w1].
  cbn [fst snd] in *. subst o.
  destruct (truthy v); reflexivity.
Qed.

(** The key leaves the set exactly when the gate admits the slot registered
    under it. *)
Lemma releaseDeferred_deferred (key : string) (w : world CR) :
  deferredSlots (snd (releaseDeferred E key w))
  = if admits E key w then deleteKey key (deferredSlots w) else deferredSlots w.
Proof.
  rewrite releaseDeferred_run. unfold admits.
  destruct (adSlots w !! key) as [r|]; [|reflexivity].
  pose proof (gate_deferred E (Some r) (emit [Invoked "shouldSendRequestToDfp" key] w)) as Hd.
  unfold sameDeferred in Hd. cbn [deferredSlots emit] in Hd.
  cbv zeta.
  destruct (match fst (shouldSendRequestToDfp E (Some r) w) with
            | Ret v => truthy v
            | Throw _ => false
            end).
  - rewrite (defineAndShow_deferred r _).
    unfold set_deferredSlots. cbn [deferredSlots]. rewrite Hd. reflexivity.
  - exact Hd.
Qed.
End Release.

(** ** Work on one slot leaves the others alone *)

Section Keeps.
Context {CR : Type} `{!ConflictResolver CR}.
Variable E : env.

Lemma keeps_refl (r : ref) (w : world CR) : keeps r w w.
Proof. repeat split; auto. Qed.

Lemma keeps_trans (r : ref) (w1 w2 w3 : world CR) :
  keeps r w1 w2 -> keeps r w2 w3 -> keeps r w1 w3.
Proof.
  intros (Hv1 & Hh1 & Hi1 & Ha1) (Hv2 & Hh2 & Hi2 & Ha2).
  split; [congruence|]. split; [|split; [congruence|]].
  - intros r' Hr'. rewrite Hh2, Hh1 by assumption. reflexivity.
  - intros k. destruct (Ha2 k) as [Hk2|[Hk2 Hs2]].
    + rewrite Hk2. apply Ha1.
    + right. split; congruence.
Qed.

Lemma keeps_emit (r : ref) (l : list event) (w : world CR) : keeps r w (emit l w).
Proof. repeat split; auto. Qed.

Lemma keeps_set_deferredSlots (r : ref) (d : list string) (w : world CR) :
  keeps r w (set_deferredSlots d w).
Proof. repeat split; auto. Qed.

Lemma keeps_set_heap (r : ref) (s : AdSlot) (w : world CR) :
  id s = id (heap w r) -> keeps r w (set_heap r s w).
Proof.
  intros Hid. split; [reflexivity|]. split; [|split].
  - intros r' Hr'. cbn. destruct (Nat.eqb_spec r' r); [contradiction|reflexivity].
  - cbn. rewrite Nat.eqb_refl. assumption.
  - intros k. left. reflexivity.
Qed.

Ltac keeps_side :=
  first [ apply keeps_emit
        | apply keeps_set_deferredSlots
        | apply keeps_set_heap; reflexivity ].

Ltac keeps_go r :=
  framed_go (keeps_refl r) (keeps_trans r) keeps_side.

Lemma bindHtmlElement_keeps (r : ref) : framed (CR := CR) (keeps r) (bindHtmlElement E r).
Proof.
  intros w. unfold bindHtmlElement. runM.
  destruct (htmlElement (heap w r)) as [e|]; [apply keeps_refl|].
  destruct (getElementById E (id (heap w r))) as [e|]; [|apply keeps_refl].
  cbn. split; [reflexivity|]. split; [|split].
  - intros r' Hr'. cbn. destruct (Nat.eqb_spec r' r); [contradiction|reflexivity].
  - cbn. rewrite !(Nat.eqb_refl r). reflexivity.
  - intros k. cbn. destruct (decide (k = id (heap w r))) as [->|Hne].
    + right. split; [reflexivity|]. apply lookup_insert_eq.
    + left. apply lookup_insert_ne. congruence.
Qed.

Lemma gate_keeps (r : ref) : framed (CR := CR) (keeps r) (shouldSendRequestToDfp E (Some r)).
Proof.
  unfold shouldSendRequestToDfp.
  apply (framed_bind _ (keeps_trans r)); [apply bindHtmlElement_keeps|intros _].
  keeps_go r.
Qed.

Lemma addSizeFor_keeps (r : ref) (key : string) :
  framed (CR := CR) (keeps r) (addSizeFor r key).
Proof. unfold addSizeFor. keeps_go r. Qed.

Lemma defineSlot_keeps (r : ref) : framed (CR := CR) (keeps r) (defineSlot E r).
Proof.
  unfold defineSlot, defineSlotAsMaavaron, defineSlotAsRegular, defineMaavaron.
  keeps_go r; first [apply gate_keeps | apply addSizeFor_keeps].
Qed.

Lemma show_keeps (r : ref) : framed (CR := CR) (keeps r) (show E r).
Proof. unfold show. keeps_go r. Qed.

Lemma defineAndShow_keeps (r : ref) : framed (CR := CR) (keeps r) (defineAndShow E r).
Proof.
  unfold defineAndShow.
  keeps_go r; first [apply defineSlot_keeps | apply show_keeps].
Qed.

Lemma releaseDeferred_keeps (key : string) (r : ref) (w : world CR) :
  adSlots w !! key = Some r -> keeps r w (snd (releaseDeferred E key w)).
Proof.
  intros Hr. rewrite releaseDeferred_run, Hr. cbv zeta.
  assert (Hg : keeps r w (snd (shouldSendRequestToDfp E (Some r)
                                 (emit [Invoked "shouldSendRequestToDfp" key] w)))).
  { eapply keeps_trans; [apply keeps_emit|apply gate_keeps]. }
  destruct (admits E key w); [|exact Hg].
  eapply keeps_trans; [exact Hg|].
  eapply keeps_trans; [apply keeps_set_deferredSlots|apply defineAndShow_keeps].
Qed.
End Keeps.

(** ** The loop over the deferred set *)

Section Drain.
Context {CR : Type} `{!ConflictResolver CR}.
Variable E : env.

Lemma admits_value (k : string) (w : world CR) :
  admits E k w
  = match adSlots w !! k with
    | Some r => truthy (gateValue E (boundSlot E (heap w r)) (view_of w))
    | None => false
    end.
Proof.
  unfold admits. destruct (adSlots w !! k) as [r|]; [|reflexivity].
  rewrite gate_value. reflexivity.
Qed.

Lemma keeps_wellKeyed (r : ref) (w w' : world CR) :
  wellKeyed w -> keeps r w w' -> wellKeyed w'.
Proof.
  intros Hwk (_ & Hheap & Hid & Hreg) k r' Hk.
  destruct (Hreg k) as [Hsame|[-> Hr]].
  - rewrite Hsame in Hk. specialize (Hwk k r' Hk).
    destruct (Nat.eq_dec r' r) as [->|Hne]; [congruence|].
    rewrite Hheap by assumption. assumption.
  - rewrite Hr in Hk. injection Hk as <-. assumption.
Qed.

Lemma keeps_admits (k k' : string) (r : ref) (w w' : world CR) :
  wellKeyed w -> adSlots w !! k = Some r -> keeps r w w' -> k' <> k ->
  admits E k' w' = admits E k' w.
Proof.
  intros Hwk Hk (Hview & Hheap & Hid & Hreg) Hne.
  rewrite !admits_value.
  assert (Hsame : adSlots w' !! k' = adSlots w !! k').
  { destruct (Hreg k') as [Hs|[Heq _]]; [assumption|].
    rewrite (Hwk k r Hk) in Heq. contradiction. }
  rewrite Hsame. destruct (adSlots w !! k') as [r'|] eqn:Hk'; [|reflexivity].
  assert (r' <> r).
  { intros ->. apply Hne. rewrite <- (Hwk k' r Hk'), <- (Hwk k r Hk). reflexivity. }
  rewrite Hheap, Hview by assumption. reflexivity.
Qed.

Lemma elem_of_deleteKey (k key : string) (l : list string) :
  k ∈ deleteKey key l <-> k <> key /\ k ∈ l.
Proof. unfold deleteKey. exact (list_elem_of_filter (fun x => x <> key) l k). Qed.

(** A pass over [keys] that no exception cuts short leaves in the set the
    ids the gate refused, and the ids outside [keys]. *)
Lemma drain_members (keys : list string) :
  forall w : world CR,
    wellKeyed w -> NoDup keys ->
    fst (forOf keys (releaseDeferred E) w) = Ret tt ->
    forall k, k ∈ deferredSlots (snd (forOf keys (releaseDeferred E) w))
              <-> k ∈ deferredSlots w /\ ~ (k ∈ keys /\ admits E k w = true).
Proof.
  induction keys as [|k0 ks IH]; intros w Hwk Hnd Hret k.
  - cbn. split; [|tauto]. intros Hin. split; [assumption|].
    intros [Hk _]. apply elem_of_nil in Hk. assumption.
  - apply NoDup_cons in Hnd as [Hk0 Hnd].
    cbn [forOf] in *. rewrite run_bind in *.
    pose proof (releaseDeferred_deferred E k0 w) as Hdel.
    assert (Hinv : wellKeyed (snd (releaseDeferred E k0 w))
                   /\ forall k', k' <> k0 ->
                        admits E k' (snd (releaseDeferred E k0 w)) = admits E k' w).
    { destruct (adSlots w !! k0) as [r|] eqn:Hr.
      - pose proof (releaseDeferred_keeps E k0 r w Hr) as Hkeep. split.
        + eapply keeps_wellKeyed; eassumption.
        + intros k' Hne. eapply keeps_admits; eassumption.
      - rewrite releaseDeferred_run, Hr. cbn. split; [assumption|reflexivity]. }
    destruct Hinv as [Hwk1 Hadm].
    destruct (releaseDeferred E k0 w) as [[[]|e] w1]; [|discriminate].
    cbn [fst snd] in *.
    rewrite (IH w1 Hwk1 Hnd Hret k), Hdel. rewrite elem_of_cons.
    destruct (admits E k0 w) eqn:Ha0.
    + rewrite elem_of_deleteKey. split.
      * intros [[Hne Hin] Hno]. split; [assumption|].
        intros [[->|Hks] Ha]; [congruence|].
        apply Hno. rewrite Hadm by assumption. tauto.
      * intros [Hin Hno]. assert (k <> k0) by (intros ->; tauto).
        split; [tauto|]. intros [Hks Ha]. rewrite Hadm in Ha by assumption. tauto.
    + split.
      * intros [Hin Hno]. split; [assumption|].
        intros [[->|Hks] Ha]; [congruence|].
        assert (k <> k0) by (intros ->; contradiction).
        apply Hno. rewrite Hadm by assumption. tauto.
      * intros [Hin Hno]. split; [assumption|]. intros [Hks Ha].
        assert (k <> k0) by (intros ->; contradiction).
        rewrite Hadm in Ha by assumption. tauto.
Qed.
End Drain.

(** ** [releaseSlotDependencies] as a whole *)

Section ReleaseAll.
Context {CR : Type} `{!ConflictResolver CR}.
Variable E : env.

Lemma onlyTrace_refl (w : world CR) : onlyTrace w w.
Proof. exists []. symmetry. apply emit_nil. Qed.

Lemma onlyTrace_trans (w1 w2 w3 : world CR) :
  onlyTrace w1 w2 -> onlyTrace w2 w3 -> onlyTrace w1 w3.
Proof. intros (l1 & ->) (l2 & ->). exists (l1 ++ l2). apply emit_emit. Qed.

Lemma hide_onlyTrace (r : ref) : framed (CR := CR) onlyTrace (hide r).
Proof.
  unfold hide.
  framed_go onlyTrace_refl onlyTrace_trans ltac:(eexists; reflexivity).
Qed.

Lemma hideBlocked_onlyTrace (b : string) : framed onlyTrace (hideBlocked b).
Proof.
  unfold hideBlocked.
  framed_go onlyTrace_refl onlyTrace_trans ltac:(eexists; reflexivity);
    apply hide_onlyTrace.
Qed.

Lemma admits_emit (k : string) (l : list event) (w : world CR) :
  admits E k (emit l w) = admits E k w.
Proof. rewrite !admits_value. reflexivity. Qed.

Lemma releaseDeferred_view (key : string) :
  framed (fun w1 w2 : world CR => view_of w2 = view_of w1) (releaseDeferred E key).
Proof.
  intros w. destruct (adSlots w !! key) as [r|] eqn:Hr.
  - exact (proj1 (releaseDeferred_keeps E key r w Hr)).
  - rewrite releaseDeferred_run, Hr. reflexivity.
Qed.

Lemma emitsP_any {A} (p : P CR A) : emitsP (fun _ => True) p.
Proof. intros v. apply Forall_forall. trivial. Qed.

Lemma trace_grows_trans (w1 w2 w3 : world CR) :
  extendsTrace (fun _ => True) w1 w2 -> extendsTrace (fun _ => True) w2 w3 ->
  extendsTrace (fun _ => True) w1 w3.
Proof. apply extendsTrace_trans. Qed.

Ltac grows_go :=
  framed_go (extendsTrace_refl (CR := CR) (fun _ => True)) trace_grows_trans
    ltac:(first [ solve [ exists []; split; [cbn; symmetry; apply app_nil_r|constructor] ]
                | solve [ eexists [_]; split; [reflexivity|repeat constructor] ]
                | apply emitsP_extends; apply emitsP_any ]).

Lemma gate_grows (adSlot : option ref) :
  framed (extendsTrace (fun _ => True)) (shouldSendRequestToDfp E adSlot).
Proof. unfold shouldSendRequestToDfp, bindHtmlElement. grows_go. Qed.

Lemma defineAndShow_grows (r : ref) :
  framed (extendsTrace (fun _ => True)) (defineAndShow E r).
Proof.
  unfold defineAndShow, defineSlot, defineSlotAsMaavaron, defineSlotAsRegular,
    defineMaavaron, show.
  grows_go;
    first [ apply gate_grows
          | unfold addSizeFor; grows_go
          | match goal with
            | |- context [if ?b then _ else _] =>
                destruct b; apply framed_modify; intros ?;
                eexists [_]; split; [reflexivity|repeat constructor]
            end ].
Qed.

(** A round of the loop asks the gate about the slot registered under the
    key. *)
Lemma releaseDeferred_asks_gate (key : string) (r : ref) (w : world CR) :
  adSlots w !! key = Some r ->
  In (Invoked "shouldSendRequestToDfp" key) (trace (snd (releaseDeferred E key w))).
Proof.
  intros Hr. rewrite releaseDeferred_run, Hr. cbv zeta.
  destruct (gate_grows (Some r) (emit [Invoked "shouldSendRequestToDfp" key] w))
    as (l1 & Hl1 & _).
  assert (Hin : In (Invoked "shouldSendRequestToDfp" key)
                  (trace (snd (shouldSendRequestToDfp E (Some r)
                                 (emit [Invoked "shouldSendRequestToDfp" key] w))))).
  { rewrite Hl1. cbn [trace emit]. apply in_or_app. left. apply in_or_app. right.
    left. reflexivity. }
  destruct (admits E key w); [|exact Hin].
  match goal with
  | |- In _ (trace (snd (defineAndShow E r ?w1))) =>
      destruct (defineAndShow_grows r w1) as (l2 & -> & _)
  end.
  apply in_or_app. left. exact Hin.
Qed.

(** The release never throws. *)
Lemma release_returns (r : ref) (w : world CR) :
  fst (releaseSlotDependencies E r w) = Ret tt.
Proof.
  unfold releaseSlotDependencies, tryCatchM.
  destruct (releaseSlotDependenciesTry E r w) as [[[]|e] w1]; [reflexivity|].
  destruct (DEBUG E); reflexivity.
Qed.

(** When nothing is thrown in the [try] block: the outcome is registered,
    and the ids that leave the deferred set are the ones the gate admits,
    and only when the resolved slot is blocking. *)
Lemma release_members (r : ref) (w : world CR) :
  wellKeyed w -> NoDup (deferredSlots w) ->
  fst (releaseSlotDependenciesTry E r w) = Ret tt ->
  exists cr' blocking,
    updateResolvedSlot (conflictResolver w) (id (heap w r))
      (lastResolvedSize (heap w r)) = Ret cr'
    /\ isBlocking cr' (id (heap w r)) = Ret blocking
    /\ conflictResolver (snd (releaseSlotDependencies E r w)) = cr'
    /\ forall k,
         k ∈ deferredSlots (snd (releaseSlotDependencies E r w))
         <-> k ∈ deferredSlots w
             /\ ~ (blocking = true
                   /\ admits E k (set_conflictResolver cr' w) = true).
Proof.
  intros Hwk Hnd Hret.
  unfold releaseSlotDependencies, tryCatchM.
  destruct (releaseSlotDependenciesTry E r w) as [o w'] eqn:Hrun.
  cbn [fst] in Hret. subst o. cbn [snd].
  unfold releaseSlotDependenciesTry in Hrun.
  rewrite run_bind, run_gets in Hrun.
  rewrite run_bind, run_gets in Hrun.
  rewrite run_bind, run_outcome in Hrun.
  destruct (updateResolvedSlot _ _ _) as [cr'|e]; [|discriminate].
  rewrite run_bind, run_modify in Hrun.
  rewrite run_bind, run_outcome in Hrun.
  set (w0 := set_conflictResolver cr' w) in *.
  destruct (isBlocking cr' _) as [blocking|e] eqn:Hblocking; [|discriminate].
  exists cr', blocking. split; [reflexivity|]. split; [exact Hblocking|].
  destruct blocking.
  - rewrite run_bind, run_outcome in Hrun.
    destruct (getBlockedSlotsIds cr' _) as [bs|e]; [|discriminate].
    rewrite run_bind in Hrun.
    pose proof (framed_forOf onlyTrace onlyTrace_refl onlyTrace_trans bs
                  (hideBlocked (CR := CR)) hideBlocked_onlyTrace w0) as (l & Hl).
    destruct (forOf bs hideBlocked w0) as [[[]|e] w1]; [|discriminate].
    cbn [snd] in Hl. subst w1.
    rewrite run_bind, run_gets in Hrun.
    change (deferredSlots (emit l w0)) with (deferredSlots w) in Hrun.
    assert (Hwk1 : wellKeyed (emit l w0)) by exact Hwk.
    pose proof (drain_members E (deferredSlots w) (emit l w0) Hwk1 Hnd) as Hd.
    rewrite Hrun in Hd. cbn [fst snd] in Hd. specialize (Hd eq_refl).
    split.
    + pose proof (framed_forOf (fun w1 w2 : world CR => view_of w2 = view_of w1)
                    (fun _ => eq_refl) (fun _ _ _ H1 H2 => eq_trans H2 H1)
                    (deferredSlots w) (releaseDeferred E) releaseDeferred_view
                    (emit l w0)) as Hview.
      rewrite Hrun in Hview. cbn [snd] in Hview.
      change (conflictResolver w') with (v_resolver (view_of w')).
      rewrite Hview. reflexivity.
    + intros k. rewrite (Hd k), admits_emit.
      change (deferredSlots (emit l w0)) with (deferredSlots w).
      split; intros [Hin Hno]; (split; [assumption|]); tauto.
  - unfold skip, mret, M_ret in Hrun. injection Hrun as <-. split; [reflexivity|].
    intros k. cbn. split; [|tauto]. intros Hin. split; [assumption|].
    intros [[=] _].
Qed.
End ReleaseAll.

(** ** The claims about the release of deferred slots *)

Lemma admits_false_on_throw {CR : Type} `{!ConflictResolver CR} (E : env)
  (key : string) (r : ref) (w : world CR) (l : list event) (e : exn) :
  adSlots w !! key = Some r ->
  gateP E (Some (boundSlot E (heap w r))) (view_of w) = (l, Throw e) ->
  admits E key w = false.
Proof.
  intros Hr Hthrow. rewrite admits_value, Hr. unfold gateValue. rewrite Hthrow.
  reflexivity.
Qed.

(** C2 (as amended). A round of the loop over the deferred set asks the gate
    about the slot registered under the key, and the key leaves the set
    exactly when the gate admits that slot; a slot the gate refuses, blocked
    or not, stays in the set.  For a whole release in which nothing throws
    (registry keyed by slot id, deferred set without duplicates): the outcome
    is registered with the resolver, and an id leaves the deferred set exactly
    when the resolved slot is blocking and the gate admits the slot
    registered under the id; after the outcome of a slot that is not blocking
    the set is not iterated at all. *)
Theorem drain_removes_admitted :
  (forall (CR : Type) (H : ConflictResolver CR) (E : env) (key : string) (w : world CR),
     (forall r, adSlots w !! key = Some r ->
        In (Invoked "shouldSendRequestToDfp" key)
           (trace (snd (releaseDeferred E key w))))
     /\ deferredSlots (snd (releaseDeferred E key w))
        = if admits E key w then deleteKey key (deferredSlots w) else deferredSlots w)
  /\ (forall (CR : Type) (H : ConflictResolver CR) (E : env) (r : ref) (w : world CR),
        wellKeyed w -> NoDup (deferredSlots w) ->
        fst (releaseSlotDependenciesTry E r w) = Ret tt ->
        exists cr' blocking,
          updateResolvedSlot (conflictResolver w) (id (heap w r))
            (lastResolvedSize (heap w r)) = Ret cr'
          /\ isBlocking cr' (id (heap w r)) = Ret blocking
          /\ conflictResolver (snd (releaseSlotDependencies E r w)) = cr'
          /\ forall k,
               k ∈ deferredSlots (snd (releaseSlotDependencies E r w))
               <-> k ∈ deferredSlots w
                   /\ ~ (blocking = true
                         /\ admits E k (set_conflictResolver cr' w) = true)).
Proof.
  split.
  - intros CR H E key w. split.
    + intros r. apply releaseDeferred_asks_gate.
    + apply releaseDeferred_deferred.
  - intros CR H E r w. apply release_members.
Qed.

Lemma refusedWorld_wellKeyed : wellKeyed refusedWorld.
Proof.
  intros k r Hk. cbn in Hk.
  apply lookup_insert_Some in Hk as [[<- <-]|[_ Hk]]; [reflexivity|].
  apply lookup_insert_Some in Hk as [[<- <-]|[_ Hk]]; [reflexivity|].
  rewrite lookup_empty in Hk. discriminate.
Defined.

Lemma drain_removes_admitted_witness :
  exists cr' blocking,
    updateResolvedSlot (conflictResolver refusedWorld) (id (heap refusedWorld 0%nat))
      (lastResolvedSize (heap refusedWorld 0%nat)) = Ret cr'
    /\ isBlocking cr' (id (heap refusedWorld 0%nat)) = Ret blocking
    /\ conflictResolver (snd (releaseSlotDependencies samplePage 0%nat refusedWorld)) = cr'
    /\ forall k,
         k ∈ deferredSlots (snd (releaseSlotDependencies samplePage 0%nat refusedWorld))
         <-> k ∈ deferredSlots refusedWorld
             /\ ~ (blocking = true
                   /\ admits samplePage k (set_conflictResolver cr' refusedWorld) = true).
Proof.
  apply (proj2 drain_removes_admitted specResolver _ samplePage 0%nat refusedWorld).
  - exact refusedWorld_wellKeyed.
  - apply NoDup_singleton.
  - vm_compute. reflexivity.
Defined.

(** C2 (as stated) fails.  After the empty outcome of [page.top], the slot
    [page.side] is no longer blocked but the gate refuses it (it targets
    paying users): it is still in the deferred set after the release.  And
    after the outcome of [page.footer], which blocks nothing, the deferred set
    is not iterated: [page.side], not blocked and admissible, stays in the set
    and the gate is not asked. *)
Lemma drain_keeps_refused_counterexample :
  (isBlocked (conflictResolver (snd (releaseSlotDependencies samplePage 0%nat refusedWorld)))
     "page.side" = Ret false
   /\ deferredSlots (snd (releaseSlotDependencies samplePage 0%nat refusedWorld))
      = ["page.side"])
  /\ (isBlocked (conflictResolver (snd (releaseSlotDependencies samplePage 0%nat idleWorld)))
        "page.side" = Ret false
      /\ admits samplePage "page.side"
           (snd (releaseSlotDependencies samplePage 0%nat idleWorld)) = true
      /\ deferredSlots (snd (releaseSlotDependencies samplePage 0%nat idleWorld))
         = ["page.side"]
      /\ trace (snd (releaseSlotDependencies samplePage 0%nat idleWorld)) = []).
Proof. vm_compute. repeat split. Qed.

(** C6 (as amended). [releaseSlotDependencies] never throws to its caller.
    An exception inside a gate predicate while a deferred slot is evaluated
    makes the gate refuse the slot, and after a refusal the loop goes on with
    the remaining keys.  An exception while an admitted slot is defined or
    shown ends the loop: the remaining keys are not visited, so the world is
    the one the failing round left, in which every other key is in the
    deferred set as before. *)
Theorem drain_stops_at_first_exception :
  (forall (CR : Type) (H : ConflictResolver CR) (E : env) (r : ref) (w : world CR),
     fst (releaseSlotDependencies E r w) = Ret tt)
  /\ (forall (CR : Type) (H : ConflictResolver CR) (E : env) (key : string) (r : ref)
        (w : world CR) (l : list event) (e : exn),
        adSlots w !! key = Some r ->
        gateP E (Some (boundSlot E (heap w r))) (view_of w) = (l, Throw e) ->
        admits E key w = false)
  /\ (forall (CR : Type) (H : ConflictResolver CR) (E : env) (key : string)
        (rest : list string) (w : world CR),
        admits E key w = false ->
        exists w1, releaseDeferred E key w = (Ret tt, w1)
          /\ deferredSlots w1 = deferredSlots w
          /\ forOf (key :: rest) (releaseDeferred E) w
             = forOf rest (releaseDeferred E) w1)
  /\ (forall (CR : Type) (H : ConflictResolver CR) (E : env) (key : string)
        (rest : list string) (w w' : world CR) (e : exn),
        releaseDeferred E key w = (Throw e, w') ->
        admits E key w = true
        /\ forOf (key :: rest) (releaseDeferred E) w = (Throw e, w')
        /\ forall k, k <> key -> (k ∈ deferredSlots w' <-> k ∈ deferredSlots w)).
Proof.
  split; [|split; [|split]].
  - intros CR H E r w. apply release_returns.
  - intros CR H E key r w l e. apply admits_false_on_throw.
  - intros CR H E key rest w Hno.
    pose proof (releaseDeferred_deferred E key w) as Hdel.
    pose proof (releaseDeferred_run E key w) as Hrun.
    rewrite Hno in Hdel, Hrun.
    assert (Hret : exists w1, releaseDeferred E key w = (Ret tt, w1)).
    { destruct (adSlots w !! key); eexists; exact Hrun. }
    destruct Hret as (w1 & Hw1). exists w1. rewrite Hw1 in Hdel.
    split; [assumption|]. split; [assumption|].
    cbn [forOf]. rewrite run_bind, Hw1. reflexivity.
  - intros CR H E key rest w w' e Hthrow.
    pose proof (releaseDeferred_deferred E key w) as Hdel.
    pose proof (releaseDeferred_run E key w) as Hrun.
    rewrite Hthrow in Hdel, Hrun. cbn [snd] in Hdel.
    destruct (admits E key w) eqn:Ha.
    + split; [reflexivity|]. split.
      * cbn [forOf]. rewrite run_bind, Hthrow. reflexivity.
      * intros k Hne. rewrite Hdel, elem_of_deleteKey. tauto.
    + destruct (adSlots w !! key); discriminate.
Qed.

Lemma drain_stops_at_first_exception_witness :
  admits samplePage "page.side" abortDrainWorld = true
  /\ (exists e w',
        forOf ["page.side"; "page.bottom"] (releaseDeferred samplePage) abortDrainWorld
        = (Throw e, w')
        /\ forall k, k <> "page.side" ->
             (k ∈ deferredSlots w' <-> k ∈ deferredSlots abortDrainWorld)).
Proof.
  destruct (proj2 (proj2 (proj2 drain_stops_at_first_exception)) specResolver _
              samplePage "page.side" ["page.bottom"] abortDrainWorld
              (snd (releaseDeferred samplePage "page.side" abortDrainWorld))
              (TypeError "this.responsiveAdSizeMapping[key].map is not a function"))
    as (Ha & Hloop & Hrest).
  - vm_compute. reflexivity.
  - split; [exact Ha|]. eexists _, _. split; [exact Hloop|exact Hrest].
Defined.

(** C6 (as stated) fails.  [page.side] passes the gate and throws while it
    is defined (its size mapping is not an array at another breakpoint); the
    exception leaves the loop, so [page.bottom], which the gate would admit,
    is never evaluated: it is still in the deferred set and not shown, and the
    trace has no call of the gate for it. *)
Lemma drain_aborted_counterexample :
  fst (releaseSlotDependenciesTry samplePage 0%nat abortWorld)
    = Throw (TypeError "this.responsiveAdSizeMapping[key].map is not a function")
  /\ deferredSlots (snd (releaseSlotDependencies samplePage 0%nat abortWorld))
     = ["page.bottom"]
  /\ admits samplePage "page.bottom"
       (snd (releaseSlotDependencies samplePage 0%nat abortWorld)) = true
  /\ shown (heap (snd (releaseSlotDependencies samplePage 0%nat abortWorld)) 2%nat) = false
  /\ ~ In (Invoked "shouldSendRequestToDfp" "page.bottom")
         (trace (snd (releaseSlotDependencies samplePage 0%nat abortWorld))).
Proof.
  split; [vm_compute; reflexivity|].
  split; [vm_compute; reflexivity|].
  split; [vm_compute; reflexivity|].
  split; [vm_compute; reflexivity|].
  vm_compute. intuition discriminate.
Qed.

(** * More properties *)

(** ** The gate admits exactly when every condition holds *)

Section GateConditions.
Context {CR : Type} `{!ConflictResolver CR}.
Variable E : env.

Lemma passes_andThen (p q : P CR value) (v : view CR) :
  passes (andThen p q) v <-> passes p v /\ passes q v.
Proof.
  unfold passes, andThen. runP.
  destruct (p v) as [l1 [a|e]] eqn:Hp.
  - destruct (truthy a) eqn:Ha.
    + destruct (q v) as [l2 o] eqn:Hq. split.
      * intros (l & x & [= <- ->] & Hx). split; eauto.
      * intros [_ (l & x & [= <- ->] & Hx)]. eauto.
    + split.
      * intros (l & x & [= <- <-] & Hx). congruence.
      * intros [(l & x & [= <- <-] & Hx) _]. congruence.
  - split.
    + intros (l & x & [=] & _).
    + intros [(l & x & [=] & _) _].
Qed.

Lemma passes_bool (b : bool) (v : view CR) :
  passes (mret (VBool b)) v <-> b = true.
Proof.
  unfold passes. split.
  - intros (l & x & [= <- <-] & Hx). exact Hx.
  - intros ->. eexists _, _. split; reflexivity.
Qed.

Lemma passes_call (method arg : string) (p : P CR value) (v : view CR) :
  passes (callP method arg p) v <-> passes p v.
Proof.
  unfold passes, callP. runP. destruct (p v) as [l1 o]. split.
  - intros (l & x & [= <- ->] & Hx). eauto.
  - intros (l & x & [= <- ->] & Hx). eauto.
Qed.

Lemma passes_asValue (p : P CR bool) (v : view CR) :
  passes (asValue p) v <-> exists l, p v = (l, Ret true).
Proof.
  unfold passes, asValue. runP. destruct (p v) as [l1 [b|e]]; split.
  - intros (l & x & [= <- <-] & Hx). cbn in Hx. subst b. eauto.
  - intros (l & [= <- ->]). eexists _, _. split; reflexivity.
  - intros (l & x & [=] & _).
  - intros (l & [=]).
Qed.

Lemma passes_isFalse (p : P CR bool) (v : view CR) :
  passes (isFalse p) v <-> exists l, p v = (l, Ret false).
Proof.
  unfold passes, isFalse. runP. destruct (p v) as [l1 [b|e]]; split.
  - intros (l & x & [= <- <-] & Hx). cbn in Hx. apply negb_true_iff in Hx.
    subst b. eauto.
  - intros (l & [= <- ->]). eexists _, _. split; reflexivity.
  - intros (l & x & [=] & _).
  - intros (l & [=]).
Qed.

Lemma typeIs_iff (s : AdSlot) (t : string) : typeIs s t = true <-> type s = Some t.
Proof.
  unfold typeIs. destruct (type s) as [t'|].
  - rewrite String.eqb_eq. split; congruence.
  - split; discriminate.
Qed.

Lemma gateP_passes (s : AdSlot) (v : view CR) :
  passes (gateP E (Some s)) v <-> gateConditions E s v.
Proof.
  unfold gateP, gateConditions.
  rewrite !passes_andThen, !passes_call, !passes_bool, !passes_asValue, passes_isFalse.
  assert (Hel : passes (mret (match htmlElement s with
                               | Some _ => VObj
                               | None => VBool (negb (isWebView E)
                                                && typeIs s adTypes.interstitial)
                               end)) v
                <-> htmlElement s <> None
                    \/ (isWebView E = false /\ type s = Some adTypes.interstitial)).
  { destruct (htmlElement s) as [e|].
    - split; [intros _; left; discriminate|]. intros _. eexists _, _. split; reflexivity.
    - rewrite passes_bool, andb_true_iff, negb_true_iff, typeIs_iff.
      split; [tauto|]. intros [Hn|Hi]; [congruence|assumption]. }
  assert (Hbl : (exists l, (cr ← askP v_resolver; outcomeP (isBlocked cr (id s))) v
                           = (l, Ret false))
                <-> isBlocked (v_resolver v) (id s) = Ret false).
  { runP. split.
    - intros (l & [= _ Hb]). exact Hb.
    - intros ->. eexists. reflexivity. }
  rewrite Hel, Hbl, negb_true_iff. tauto.
Qed.

(** The gate on a registered slot returns, and its value is truthy exactly
    when every condition holds for the slot with its element bound. *)
Lemma gate_admits_exactly (r : ref) (w : world CR) :
  exists x, fst (shouldSendRequestToDfp E (Some r) w) = Ret x
    /\ (truthy x = true <-> gateConditions E (boundSlot E (heap w r)) (view_of w)).
Proof.
  rewrite gate_value. eexists. split; [reflexivity|].
  rewrite <- gateP_passes. unfold gateValue, passes.
  destruct (gateP E _ (view_of w)) as [l [x|e]]; split.
  - intros Hx. eauto.
  - intros (l' & x' & [= <- <-] & Hx). exact Hx.
  - discriminate.
  - intros (l' & x' & [=] & _).
Qed.
(** X1. The gate on a registered slot returns, and its value is truthy
    exactly when every one of its conditions holds for the slot with its
    element bound: the page is ready, the slot has an element or is an
    interstitial outside a web view, the interstitial window, the conflict
    resolver, the referrer lists, the web view, the removed ad blocker, the
    paywall banner, the breakpoint, the application cookie and the targeting
    of the user all let it pass. *)
Theorem gate_admits_iff_conditions (r : ref) (w : world CR) :
  exists x, fst (shouldSendRequestToDfp E (Some r) w) = Ret x
    /\ (truthy x = true <-> gateConditions E (boundSlot E (heap w r)) (view_of w)).
Proof.
  rewrite gate_value. exists (gateValue E (boundSlot E (heap w r)) (view_of w)).
  split; [reflexivity|].
  rewrite <- gateP_passes. unfold gateValue, passes.
  destruct (gateP E _ (view_of w)) as [l [x|e]]; split.
  - intros Hx. exists l, x. split; [reflexivity|exact Hx].
  - intros (l' & x' & [= <- <-] & Hx). exact Hx.
  - discriminate.
  - intros (l' & x' & [=] & _).
Qed.
End GateConditions.

(** ** The generic time window and the durable record *)

Section Throttle.
Context {CR : Type} `{!ConflictResolver CR}.
Variable E : env.

(** X2. [googleInterstitialShouldDisplay] lets every slot pass whose type
    does not contain ['.new_interstitial'], whatever the storage holds.  For
    a slot of that type it denies exactly when the durable record has a
    timestamp and the time since it is strictly between 3 seconds and 63
    minutes; the attempt count plays no part.  A slot without a type makes it
    throw. *)
Theorem googleInterstitial_window (s : AdSlot) (v : view CR) :
  (forall t, type s = Some t -> includes t adTypes.interstitial = false ->
     googleInterstitialShouldDisplay E s v = ([], Ret true))
  /\ (forall t, type s = Some t -> includes t adTypes.interstitial = true ->
        exists l b, googleInterstitialShouldDisplay E s v = (l, Ret b)
          /\ (b = false <->
              exists r ms, v_localItem v = Some (Stored r)
                /\ showTime r = Some (Some ms)
                /\ 3000 < Z.abs (now E - ms) < 3780000))
  /\ (type s = None ->
        exists e, googleInterstitialShouldDisplay E s v = ([], Throw e)).
Proof.
  unfold googleInterstitialShouldDisplay, isGoogleInterstitial.
  split; [|split].
  - intros t Ht Hno. rewrite Ht. runP. rewrite Hno. reflexivity.
  - intros t Ht Hyes. rewrite Ht. runP. rewrite Hyes. cbn -[inWindow].
    destruct (v_localItem v) as [[|r]|] eqn:Hitem; cbn -[inWindow].
    + eexists _, _. split; [reflexivity|]. split; [discriminate|].
      intros (r & ms & [=] & _).
    + destruct (showTime r) as [[ms|]|] eqn:Hshow; cbn -[inWindow].
      * eexists _, _. split; [reflexivity|].
        rewrite negb_false_iff, inWindow_ms. split.
        -- intros Hin. exists r, ms. auto.
        -- intros (r' & ms' & [= <-] & Hs & Hin). congruence.
      * eexists _, _. split; [reflexivity|]. split; [discriminate|].
        intros (r' & ms' & [= <-] & Hs & _). congruence.
      * eexists _, _. split; [reflexivity|]. split; [discriminate|].
        intros (r' & ms' & [= <-] & Hs & _). congruence.
    + eexists _, _. split; [reflexivity|]. split; [discriminate|].
      intros (r & ms & [=] & _).
  - intros Ht. rewrite Ht. eexists. reflexivity.
Qed.

Lemma forOf_cons {A} (x : A) (xs : list A) (body : A -> M CR unit) (w : world CR) :
  forOf (x :: xs) body w
  = match body x w with
    | (Ret _, w') => forOf xs body w'
    | (Throw e, w') => (Throw e, w')
    end.
Proof. reflexivity. Qed.

Lemma timerFired_run (nowMs : option Z) (w : world CR) :
  exists w' r,
    interstitialTimerFired nowMs w = (Ret tt, w')
    /\ localItem w' = Some (Stored r)
    /\ attempt r = Some (addOne (attemptsOf (localItem w)))
    /\ showTime r = match nowMs with
                    | Some t => Some (Some t)
                    | None => match localItem w with
                              | Some (Stored r0) => showTime r0
                              | _ => None
                              end
                    end.
Proof.
  unfold interstitialTimerFired, getParsed, attemptsOf. runM. runP.
  destruct (localItem w) as [[|r0]|]; cbn.
  - destruct nowMs; eexists _, _; repeat split.
  - assert (Ha : (if noAttempt (attempt r0) then 0 else default 0 (attempt r0))
                 = default 0 (attempt r0)).
    { unfold noAttempt. destruct (attempt r0) as [n|]; [|reflexivity].
      cbn. destruct (Z.eqb_spec n 0); congruence. }
    rewrite Ha. destruct nowMs; eexists _, _; repeat split.
  - destruct nowMs; eexists _, _; repeat split.
Qed.
End Throttle.

Lemma googleInterstitial_window_witness :
  type (slotOf "page.top" "all") = Some adTypes.regular
  /\ includes adTypes.regular adTypes.interstitial = false
  /\ googleInterstitialShouldDisplay samplePage (slotOf "page.top" "all") (viewWith None)
     = ([], Ret true).
Proof.
  split; [reflexivity|]. split; [reflexivity|].
  exact (proj1 (googleInterstitial_window samplePage (slotOf "page.top" "all")
                  (viewWith None)) adTypes.regular eq_refl eq_refl).
Defined.

Section DurableRecord.
Context {CR : Type} `{!ConflictResolver CR}.
Variable E : env.

(** X3. A durable record that is not valid JSON never makes a policy throw:
    it is read as an empty record.  The generic window and the
    small-interstitial policy (user not paying) then allow, the
    full-interstitial policy returns a falsy value, and the next timer
    replaces the record by one with a single attempt. *)
Theorem malformed_record_is_empty :
  (forall (s : AdSlot) (t : string) (v : view CR),
     type s = Some t -> v_localItem v = Some Malformed ->
     exists l, googleInterstitialShouldDisplay E s v = (l, Ret true))
  /\ (forall (i : string) (nowMs : Z) (v : view CR),
        v_localItem v = Some Malformed ->
        exists l x, shouldDisplayInterstitialFull E i nowMs v = (l, Ret x)
                    /\ truthy x = false)
  /\ (forall (i : string) (w : world CR),
        localItem w = Some Malformed ->
        includes i adTypes.interstitialSmall = true -> userIsPaying E = false ->
        exists w', shouldDisplayInterstitialSmall E i w = (Ret true, w')
                   /\ timers w' = timers w)
  /\ (forall (nowMs : option Z) (w : world CR),
        localItem w = Some Malformed ->
        exists w', interstitialTimerFired nowMs w = (Ret tt, w')
          /\ localItem w' = Some (Stored {| attempt := Some 1;
                                            showTime := Some <$> nowMs |})).
Proof.
  split; [|split; [|split]].
  - intros s t v Ht Hitem.
    unfold googleInterstitialShouldDisplay, isGoogleInterstitial. rewrite Ht. runP.
    destruct (includes t adTypes.interstitial); cbn; [|eauto].
    rewrite Hitem. cbn. eauto.
  - intros i nowMs v Hitem. unfold shouldDisplayInterstitialFull. runP.
    rewrite Hitem.
    destruct (_ || _); cbn; eexists _, _; split; reflexivity.
  - intros i w Hitem Hid Hpay. unfold shouldDisplayInterstitialSmall.
    rewrite Hid, Hpay. runM. rewrite Hitem.
    destruct (isReferrerOfHaaretz E); cbn; eexists; split; reflexivity.
  - intros nowMs w Hitem. unfold interstitialTimerFired. runM. rewrite Hitem.
    destruct nowMs; cbn; eexists; split; reflexivity.
Qed.

End DurableRecord.

Lemma malformed_record_is_empty_witness :
  exists l x,
    shouldDisplayInterstitialFull (CR := specResolver)
      (page "https://www.haaretz.co.il/" "anonymous" 0)
      "page.full_interstitial.mobile" 0 (viewWith (Some Malformed)) = (l, Ret x)
    /\ truthy x = false.
Proof.
  exact (proj1 (proj2 (malformed_record_is_empty
                         (page "https://www.haaretz.co.il/" "anonymous" 0)))
           "page.full_interstitial.mobile" 0 (viewWith (Some Malformed)) eq_refl).
Defined.

Section RecordOverTime.
Context {CR : Type} `{!ConflictResolver CR}.

(** Below [2 ^ 53] in absolute value the sum is exact. *)
Lemma addOne_exact (a : Z) : - 2 ^ 53 <= a + 1 <= 2 ^ 53 -> addOne a = a + 1.
Proof.
  intros Ha. unfold addOne, toDouble.
  destruct (Z.leb_spec (Z.abs (a + 1)) (2 ^ 53)) as [_|Hgt]; [reflexivity|lia].
Qed.

Lemma timers_fired (nows : list (option Z)) :
  forall w : world CR,
    - 2 ^ 53 <= attemptsOf (localItem w) ->
    attemptsOf (localItem w) + Z.of_nat (length nows) <= 2 ^ 53 ->
    exists w', forOf nows interstitialTimerFired w = (Ret tt, w')
      /\ match nows with
         | [] => w' = w
         | _ => exists r, localItem w' = Some (Stored r)
                  /\ attempt r
                     = Some (attemptsOf (localItem w) + Z.of_nat (length nows))
         end.
Proof.
  induction nows as [|n ns IH]; intros w Hlo Hhi.
  - exists w. split; reflexivity.
  - destruct (timerFired_run n w) as (w1 & r1 & Hrun & Hitem & Hatt & _).
    rewrite forOf_cons, Hrun. cbn [length] in Hhi.
    rewrite addOne_exact in Hatt by lia.
    assert (Ha1 : attemptsOf (localItem w1) = attemptsOf (localItem w) + 1).
    { unfold attemptsOf at 1. rewrite Hitem, Hatt. reflexivity. }
    destruct (IH w1) as (w' & Hrest & Hpost); [lia|lia|].
    exists w'. split; [exact Hrest|].
    destruct ns as [|n' ns'].
    + subst w'. exists r1. split; [assumption|]. rewrite Hatt. reflexivity.
    + destruct Hpost as (r & Hr & Ha). exists r. split; [assumption|].
      rewrite Ha, Ha1. cbn [length]. f_equal. lia.
Qed.

(** X4. For a durable record that is absent, is text that [JSON.parse]
    rejects, or parses to a value other than [null]: a firing of the timer
    that [setInterstitialShowingData] queues adds one to the attempt count,
    counting from 0 when there is no record, when the text does not parse,
    and when the record has no count.  [n] firings add [n] as long as the
    count stays within the integers that doubles hold exactly, from
    [- 2 ^ 53] up to [2 ^ 53]; at [2 ^ 53] the count stops: a firing leaves
    it as it is.  Starting without a record, fewer than three firings leave
    the full-interstitial policy refusing, on every page and at every
    time. *)
Theorem attempts_are_counted :
  (forall (nows : list (option Z)) (w : world CR),
     nows <> [] ->
     - 2 ^ 53 <= attemptsOf (localItem w) ->
     attemptsOf (localItem w) + Z.of_nat (length nows) <= 2 ^ 53 ->
     exists w' r,
       forOf nows interstitialTimerFired w = (Ret tt, w')
       /\ localItem w' = Some (Stored r)
       /\ attempt r = Some (attemptsOf (localItem w) + Z.of_nat (length nows)))
  /\ (forall (nowMs : option Z) (w : world CR),
        attemptsOf (localItem w) = 2 ^ 53 ->
        exists w' r,
          interstitialTimerFired nowMs w = (Ret tt, w')
          /\ localItem w' = Some (Stored r)
          /\ attempt r = Some (2 ^ 53))
  /\ (forall (E : env) (nows : list (option Z)) (w : world CR) (i : string) (nowMs : Z),
        localItem w = None -> (length nows < 3)%nat ->
        exists l x,
          shouldDisplayInterstitialFull E i nowMs
            (view_of (snd (forOf nows interstitialTimerFired w))) = (l, Ret x)
          /\ truthy x = false).
Proof.
  split; [|split].
  - intros nows w Hne Hlo Hhi.
    destruct (timers_fired nows w Hlo Hhi) as (w' & Hrun & Hpost).
    destruct nows as [|n ns]; [congruence|].
    destruct Hpost as (r & Hr & Ha). eauto.
  - intros nowMs w Ha.
    destruct (timerFired_run nowMs w) as (w' & r & Hrun & Hitem & Hatt & _).
    exists w', r. split; [exact Hrun|]. split; [exact Hitem|].
    rewrite Hatt, Ha. reflexivity.
  - intros E nows w i nowMs Hnone Hlen.
    assert (Hzero : attemptsOf (localItem w) = 0) by (rewrite Hnone; reflexivity).
    destruct (timers_fired nows w) as (w' & Hrun & Hpost);
      [rewrite Hzero; lia|rewrite Hzero; lia|].
    rewrite Hrun. cbn [snd].
    unfold shouldDisplayInterstitialFull. runP. cbn [v_localItem view_of].
    destruct nows as [|n ns].
    + subst w'. rewrite Hnone. cbn. rewrite !orb_true_r. cbn.
      eexists _, _. split; reflexivity.
    + destruct Hpost as (r & Hr & Ha). rewrite Hr.
      destruct (_ || _); cbn; [eexists _, _; split; reflexivity|].
      destruct (showTime r); [|eexists _, _; split; reflexivity].
      rewrite Ha, Hnone. cbn [attemptsOf attemptBelow].
      destruct (Z.ltb_spec (0 + Z.of_nat (length (n :: ns))) 3) as [_|Hge];
        [eexists _, _; split; reflexivity|lia].
Qed.

(** X5. Successive calls of [setInterstitialShowingData] queue their writes
    100 ms further apart each: the call made with multiplier [m] waits
    [m * 100] ms and leaves the multiplier at [m + 1], so [n] calls queue the
    delays [m * 100], [(m + 1) * 100], ... in the order of the calls and
    nothing else of the world changes. *)
Theorem writes_are_spaced (nows : list (option Z)) :
  forall w : world CR,
    exists w', forOf nows setInterstitialShowingData w = (Ret tt, w')
      /\ timers w' = timers w ++ delaysFrom (interstitialTimeoutMultiplier w) nows
      /\ interstitialTimeoutMultiplier w'
         = interstitialTimeoutMultiplier w + Z.of_nat (length nows)
      /\ localItem w' = localItem w /\ sessionItem w' = sessionItem w
      /\ trace w' = trace w /\ deferredSlots w' = deferredSlots w.
Proof.
  induction nows as [|n ns IH]; intros w.
  - exists w. cbn. rewrite app_nil_r, Z.add_0_r. repeat split.
  - rewrite forOf_cons. unfold setInterstitialShowingData at 1. rewrite run_modify.
    destruct (IH (set_timer (interstitialTimeoutMultiplier w * 100, n) w))
      as (w' & Hrun & Ht & Hm & Hl & Hs & Htr & Hd).
    exists w'. split; [exact Hrun|]. cbn in Ht, Hm, Hl, Hs, Htr, Hd.
    rewrite Ht, Hm, <- app_assoc. cbn [delaysFrom app length].
    repeat split; try assumption. lia.
Qed.
End RecordOverTime.

Lemma attempts_are_counted_witness :
  [None; Some 5; None] <> []
  /\ - 2 ^ 53 <= attemptsOf (localItem (emptyWorld (recordOf 2 0)))
  /\ attemptsOf (localItem (emptyWorld (recordOf 2 0)))
     + Z.of_nat (length [None; Some 5; None]) <= 2 ^ 53
  /\ exists w' r,
       forOf [None; Some 5; None] interstitialTimerFired (emptyWorld (recordOf 2 0))
         = (Ret tt, w')
       /\ localItem w' = Some (Stored r)
       /\ attempt r = Some 5.
Proof.
  assert (H1 : [None; Some 5; None] <> ([] : list (option Z))) by discriminate.
  assert (H2 : - 2 ^ 53 <= attemptsOf (localItem (emptyWorld (recordOf 2 0))))
    by (vm_compute; discriminate).
  assert (H3 : attemptsOf (localItem (emptyWorld (recordOf 2 0)))
               + Z.of_nat (length [None; Some 5; None]) <= 2 ^ 53)
    by (vm_compute; discriminate).
  split; [exact H1|]. split; [exact H2|]. split; [exact H3|].
  exact (proj1 attempts_are_counted [None; Some 5; None]
           (emptyWorld (recordOf 2 0)) H1 H2 H3).
Defined.

(** ** Showing a slot *)

Section Show.
Context {CR : Type} `{!ConflictResolver CR}.
Variable E : env.

Lemma boundSlot_shown (s : AdSlot) : shown (boundSlot E s) = shown s.
Proof.
  unfold boundSlot. destruct (htmlElement s), (getElementById E (id s)); reflexivity.
Qed.

Lemma boundSlot_id (s : AdSlot) : id (boundSlot E s) = id s.
Proof.
  unfold boundSlot. destruct (htmlElement s), (getElementById E (id s)); reflexivity.
Qed.

(** The first step of [show]: the late binding of the element. *)
Lemma show_binds (r : ref) (w : world CR) :
  exists w1 : world CR,
    match htmlElement (heap w r), getElementById E (id (heap w r)) with
    | None, Some e =>
        update r (set_htmlElement (Some e)) ;;
        update r (set_target (default adTargets.all (audtarget e)))
    | _, _ => skip
    end w = (Ret tt, w1)
    /\ trace w1 = trace w /\ heap w1 r = boundSlot E (heap w r).
Proof.
  unfold boundSlot.
  destruct (htmlElement (heap w r)) as [el|];
    [|destruct (getElementById E (id (heap w r))) as [el|]];
    runM; cbn; eexists; (split; [reflexivity|]); cbn;
    rewrite ?(Nat.eqb_refl r); split; reflexivity.
Qed.

Lemma isInterstitial_run (s : AdSlot) (v : view CR) :
  isInterstitial E s v
  = ([], match type s with
         | Some t => Ret (isMobile E && String.eqb t adTypes.interstitial)
         | None => Throw (Error "An adSlot cannot by typeless!")
         end).
Proof.
  unfold isInterstitial. destruct (type s) as [t|]; [|reflexivity].
  destruct (isMobile E); reflexivity.
Qed.

Lemma run_liftP {A} (p : P CR A) (w : world CR) :
  liftP p w = (snd (p (view_of w)), emit (fst (p (view_of w))) w).
Proof. unfold liftP. destruct (p (view_of w)); reflexivity. Qed.

Lemma show_run (r : ref) (w : world CR) :
  match showDecision E (boundSlot E (heap w r)) with
  | None =>
      exists e w', show (CR := CR) E r w = (Throw e, w')
        /\ trace w' = trace w /\ heap w' r = boundSlot E (heap w r)
  | Some true =>
      exists w' l, show (CR := CR) E r w = (Ret tt, w')
        /\ trace w' = trace w ++ l ++ [Gpt "cmd.push" ("show " +:+ id (heap w r))]
        /\ (l = [] \/ l = [Gpt "pubads.setTargeting" "user"])
        /\ heap w' r = set_shown true (boundSlot E (heap w r))
  | Some false =>
      exists w' l, show (CR := CR) E r w = (Ret tt, w')
        /\ trace w' = trace w ++ l /\ Forall notGpt l
        /\ heap w' r = boundSlot E (heap w r)
  end.
Proof.
  unfold show. rewrite run_bind, run_gets, run_bind.
  destruct (show_binds r w) as (w1 & -> & Htr & Hheap).
  rewrite run_bind, run_gets, Hheap.
  rewrite <- (boundSlot_id (heap w r)), <- Htr.
  revert Hheap. generalize (boundSlot E (heap w r)) as s. intros s Hheap.
  clear Htr. unfold showDecision.
  destruct (shown s) eqn:Hsh; cbn [negb].
  - rewrite run_bind. cbn.
    destruct (DEBUG E); runM; cbn.
    + eexists _, [_]. repeat split; [repeat constructor|exact Hheap].
    + exists w1, []. rewrite app_nil_r. repeat split; [constructor|exact Hheap].
  - assert (Hpush : forall w2 : world CR, heap w2 r = s -> trace w2 = trace w1 ->
      exists w' l,
        ((if isTM E && isWebView E && includes (id s) ".inread" && cookieUser E
          then logM (Gpt "pubads.setTargeting" "user") else skip) ;;
         update r (set_shown true) ;;
         logM (Gpt "cmd.push" ("show " +:+ id s))) w2 = (Ret tt, w')
        /\ trace w' = trace w1 ++ l ++ [Gpt "cmd.push" ("show " +:+ id s)]
        /\ (l = [] \/ l = [Gpt "pubads.setTargeting" "user"])
        /\ heap w' r = set_shown true s).
    { intros w2 H2 Ht2.
      destruct (isTM E && isWebView E && includes (id s) ".inread" && cookieUser E);
        runM; cbn.
      - eexists _, [_]. split; [reflexivity|]. cbn.
        rewrite (Nat.eqb_refl r), H2, Ht2, <- app_assoc.
        repeat split. right. reflexivity.
      - eexists _, []. split; [reflexivity|]. cbn.
        rewrite (Nat.eqb_refl r), H2, Ht2.
        repeat split. left. reflexivity. }
    destruct (htmlElement s) as [el|] eqn:Hel.
    + rewrite run_bind. cbn [mret M_ret]. apply Hpush; [exact Hheap|reflexivity].
    + rewrite run_bind, run_liftP, isInterstitial_run. cbn [fst snd].
      rewrite emit_nil.
      destruct (type s) as [t|] eqn:Ht.
      * destruct (isMobile E && String.eqb t adTypes.interstitial).
        -- apply Hpush; [exact Hheap|reflexivity].
        -- destruct (DEBUG E); runM; cbn.
           ++ eexists _, [_]. repeat split; [repeat constructor|exact Hheap].
           ++ exists w1, []. rewrite app_nil_r. repeat split; [constructor|exact Hheap].
      * eexists _, w1. repeat split. exact Hheap.
Qed.
Lemma boundSlot_type (s : AdSlot) : type (boundSlot E s) = type s.
Proof.
  unfold boundSlot. destruct (htmlElement s), (getElementById E (id s)); reflexivity.
Qed.

Lemma boundSlot_idem (s : AdSlot) : boundSlot E (boundSlot E s) = boundSlot E s.
Proof.
  unfold boundSlot.
  destruct (htmlElement s) eqn:Hel, (getElementById E (id s)) eqn:Hdom;
    cbn; rewrite ?Hel, ?Hdom; reflexivity.
Qed.

Lemma notGpt_not_in (l : list event) (call arg : string) :
  Forall notGpt l -> ~ In (Gpt call arg) l.
Proof.
  intros Hall Hin. rewrite Forall_forall in Hall.
  exact (Hall _ (proj2 (list_elem_of_In _ _) Hin)).
Qed.

(** X7. [show] asks the ad service to display a slot exactly when the slot is
    not marked shown and either has its element (bound before, or found in
    the page now) or is of the interstitial type on a mobile user agent. *)
Theorem show_reaches_backend_iff (r : ref) (w w' : world CR) (o : outcome unit) :
  show E r w = (o, w') ->
  exists l, trace w' = trace w ++ l
    /\ (In (Gpt "cmd.push" ("show " +:+ id (heap w r))) l
        <-> shown (heap w r) = false
            /\ (htmlElement (boundSlot E (heap w r)) <> None
                \/ (isMobile E = true
                    /\ type (heap w r) = Some adTypes.interstitial))).
Proof.
  intros Hshow. pose proof (show_run r w) as Hrun.
  unfold showDecision in Hrun.
  rewrite boundSlot_shown, boundSlot_type in Hrun.
  destruct (shown (heap w r)) eqn:Hsh.
  - destruct Hrun as (w1 & l & H1 & Htr & Hl & _).
    rewrite Hshow in H1. injection H1 as -> <-.
    exists l. split; [exact Htr|]. split.
    + intros Hin. exfalso. exact (notGpt_not_in _ _ _ Hl Hin).
    + intros [Hd _]. discriminate.
  - destruct (htmlElement (boundSlot E (heap w r))) as [el|] eqn:Hel.
    + destruct Hrun as (w1 & l & H1 & Htr & _ & _).
      rewrite Hshow in H1. injection H1 as -> <-.
      eexists. split; [exact Htr|]. split.
      * intros _. split; [reflexivity|]. left. discriminate.
      * intros _. apply in_or_app. right. left. reflexivity.
    + destruct (type (heap w r)) as [t|] eqn:Ht.
      * destruct (isMobile E) eqn:Hmob; cbn in Hrun;
          [destruct (String.eqb_spec t adTypes.interstitial) as [->|Hne]|].
        -- destruct Hrun as (w1 & l & H1 & Htr & _ & _).
           rewrite Hshow in H1. injection H1 as -> <-.
           eexists. split; [exact Htr|]. split.
           ++ intros _. split; [reflexivity|]. right. split; reflexivity.
           ++ intros _. apply in_or_app. right. left. reflexivity.
        -- destruct Hrun as (w1 & l & H1 & Htr & Hl & _).
           rewrite Hshow in H1. injection H1 as -> <-.
           exists l. split; [exact Htr|]. split.
           ++ intros Hin. exfalso. exact (notGpt_not_in _ _ _ Hl Hin).
           ++ intros [_ [Hc|[_ Hc]]]; [congruence|].
              injection Hc as ->. congruence.
        -- destruct Hrun as (w1 & l & H1 & Htr & Hl & _).
           rewrite Hshow in H1. injection H1 as -> <-.
           exists l. split; [exact Htr|]. split.
           ++ intros Hin. exfalso. exact (notGpt_not_in _ _ _ Hl Hin).
           ++ intros [_ [Hc|[Hc _]]]; congruence.
      * destruct Hrun as (e & w1 & H1 & Htr & _).
        rewrite Hshow in H1. injection H1 as -> <-.
        exists []. split; [rewrite app_nil_r; exact Htr|]. split.
        -- intros [].
        -- intros [_ [Hc|[_ Hc]]]; congruence.
Qed.
End Show.

Lemma show_reaches_backend_iff_witness :
  exists l, trace (snd (show samplePage 0%nat (worldOf (slotOf "page.top" "all"))))
              = [] ++ l
    /\ (In (Gpt "cmd.push" "show page.top") l
        <-> false = false
            /\ (Some {| audtarget := None |} <> None
                \/ (isMobile samplePage = true
                    /\ Some adTypes.regular = Some adTypes.interstitial))).
Proof.
  exact (show_reaches_backend_iff samplePage 0%nat
           (worldOf (slotOf "page.top" "all")) _ _ eq_refl).
Defined.

Section ShownOnce.
Context {CR : Type} `{!ConflictResolver CR}.

Lemma staysShown_refl (w : world CR) : staysShown w w.
Proof. intros r Hr. exact Hr. Qed.

Lemma staysShown_trans (w1 w2 w3 : world CR) :
  staysShown w1 w2 -> staysShown w2 w3 -> staysShown w1 w3.
Proof. intros H1 H2 r Hr. apply H2, H1, Hr. Qed.

Ltac shown_side :=
  intros ? ?; cbn;
  repeat match goal with
         | |- context [Nat.eqb ?a ?b] => destruct (Nat.eqb_spec a b) as [->|]
         end;
  cbn; first [assumption | reflexivity].

Ltac shown_go := framed_go staysShown_refl staysShown_trans shown_side.

Lemma gate_staysShown (E : env) (adSlot : option ref) :
  framed staysShown (shouldSendRequestToDfp E adSlot).
Proof. unfold shouldSendRequestToDfp, bindHtmlElement. shown_go. Qed.

Lemma show_staysShown (E : env) (r : ref) : framed (CR := CR) staysShown (show E r).
Proof. unfold show. shown_go. Qed.

Lemma defineSlot_staysShown (E : env) (r : ref) :
  framed (CR := CR) staysShown (defineSlot E r).
Proof.
  unfold defineSlot, defineSlotAsMaavaron, defineSlotAsRegular, defineMaavaron.
  shown_go; first [apply gate_staysShown | unfold addSizeFor; shown_go].
Qed.

Lemma release_staysShown (E : env) (r : ref) :
  framed staysShown (releaseSlotDependencies E r).
Proof.
  unfold releaseSlotDependencies, releaseSlotDependenciesTry, hideBlocked, hide,
    releaseDeferred, defineAndShow.
  shown_go;
    first [ apply gate_staysShown | apply defineSlot_staysShown
          | apply show_staysShown ].
Qed.

(** X6. A slot is shown at most once, whatever becomes of the page.  On a
    slot that is marked shown, [show] returns without any call to the ad
    service and leaves the mark.  A [show] that calls the ad service marks the
    slot, so no later [show] of the slot calls it again, on the same page or
    on a changed one; a [show] that made no call (the element was missing)
    leaves this open.  The mark is never taken away by the gate, by
    [defineSlot], by [show] or by the release of deferred slots. *)
Theorem show_at_most_once (E E' : env) (r : ref) (w : world CR) :
  (shown (heap w r) = true ->
     exists w' l, show E r w = (Ret tt, w')
       /\ trace w' = trace w ++ l /\ Forall notGpt l
       /\ shown (heap w' r) = true)
  /\ (forall o w1 l1,
        show E r w = (o, w1) -> trace w1 = trace w ++ l1 -> ~ Forall notGpt l1 ->
        shown (heap w1 r) = true
        /\ exists w2 l, show E' r w1 = (Ret tt, w2)
             /\ trace w2 = trace w1 ++ l /\ Forall notGpt l)
  /\ (forall (adSlot : option ref) (r' : ref),
        staysShown w (snd (shouldSendRequestToDfp E adSlot w))
        /\ staysShown w (snd (defineSlot E r' w))
        /\ staysShown w (snd (show E r' w))
        /\ staysShown w (snd (releaseSlotDependencies E r' w))).
Proof.
  assert (Hmarked : forall (E0 : env) (w0 : world CR),
            shown (heap w0 r) = true ->
            exists w' l, show E0 r w0 = (Ret tt, w')
              /\ trace w' = trace w0 ++ l /\ Forall notGpt l
              /\ shown (heap w' r) = true).
  { intros E0 w0 Hsh. pose proof (show_run E0 r w0) as Hrun.
    unfold showDecision in Hrun. rewrite boundSlot_shown, Hsh in Hrun.
    destruct Hrun as (w' & l & Hshow & Htr & Hl & Hheap).
    exists w', l. repeat split; try assumption.
    rewrite Hheap, boundSlot_shown. exact Hsh. }
  split; [apply Hmarked|]. split.
  - intros o w1 l1 H1 Htr1 Hcall.
    assert (Hsh : shown (heap w1 r) = true).
    { pose proof (show_run E r w) as Hrun.
      destruct (showDecision E (boundSlot E (heap w r))) as [[]|].
      - destruct Hrun as (w' & l & Hshow & _ & _ & Hheap).
        rewrite H1 in Hshow. injection Hshow as _ <-. rewrite Hheap. reflexivity.
      - destruct Hrun as (w' & l & Hshow & Htr & Hl & _).
        rewrite H1 in Hshow. injection Hshow as _ <-.
        rewrite Htr1 in Htr. apply app_inv_head in Htr. subst l1. contradiction.
      - destruct Hrun as (e & w' & Hshow & Htr & _).
        rewrite H1 in Hshow. injection Hshow as _ <-.
        rewrite Htr1 in Htr. rewrite <- (app_nil_r (trace w)) in Htr at 2.
        apply app_inv_head in Htr. subst l1. exfalso. apply Hcall. constructor. }
    split; [exact Hsh|].
    destruct (Hmarked E' w1 Hsh) as (w2 & l & Hshow & Htr & Hl & _).
    exists w2, l. repeat split; assumption.
  - intros adSlot r'. repeat split.
    + apply gate_staysShown.
    + apply defineSlot_staysShown.
    + apply show_staysShown.
    + apply release_staysShown.
Qed.
End ShownOnce.

Lemma show_at_most_once_witness :
  (shown (set_shown true (slotOf "page.top" "all")) = true
   /\ exists w' l,
        show webViewPage 0%nat (worldOf (set_shown true (slotOf "page.top" "all")))
          = (Ret tt, w')
        /\ trace w' = [] ++ l /\ Forall notGpt l /\ shown (heap w' 0%nat) = true)
  /\ exists w1 w2 l,
       show samplePage 0%nat (worldOf (slotOf "page.top" "all")) = (Ret tt, w1)
       /\ trace w1 = [Gpt "cmd.push" "show page.top"]
       /\ shown (heap w1 0%nat) = true
       /\ show webViewPage 0%nat w1 = (Ret tt, w2)
       /\ trace w2 = trace w1 ++ l /\ Forall notGpt l.
Proof.
  split.
  - split; [reflexivity|].
    exact (proj1 (show_at_most_once webViewPage samplePage 0%nat
                    (worldOf (set_shown true (slotOf "page.top" "all")))) eq_refl).
  - assert (Hcall : ~ Forall notGpt [Gpt "cmd.push" "show page.top"]).
    { intros H. inversion H as [|? ? Hg _]. exact Hg. }
    destruct (proj1 (proj2 (show_at_most_once samplePage webViewPage 0%nat
                              (worldOf (slotOf "page.top" "all"))))
                (Ret tt) (snd (show samplePage 0%nat (worldOf (slotOf "page.top" "all"))))
                [Gpt "cmd.push" "show page.top"]
                ltac:(vm_compute; reflexivity) ltac:(vm_compute; reflexivity) Hcall)
      as (Hsh & w2 & l & Hshow & Htr & Hl).
    eexists _, w2, l. split; [vm_compute; reflexivity|].
    split; [vm_compute; reflexivity|]. split; [exact Hsh|].
    split; [exact Hshow|]. split; [exact Htr|exact Hl].
Defined.

(** ** Defining a slot *)

Section Define.
Context {CR : Type} `{!ConflictResolver CR}.
Variable E : env.

Lemma gateP_quiet (adSlot : option AdSlot) : emitsP notGpt (gateP E adSlot).
Proof.
  unfold gateP, andThen, callP, asValue, isFalse, googleInterstitialShouldDisplay,
    isGoogleInterstitial, shouldDisplayAdMaavaronAfterPayWallBanner,
    doesBreakpointContainAd, getParsed.
  emitsP_go.
Qed.

Lemma gate_quiet (adSlot : option ref) :
  framed (extendsTrace notGpt) (shouldSendRequestToDfp E adSlot).
Proof.
  unfold shouldSendRequestToDfp, bindHtmlElement.
  framed_go (extendsTrace_refl (CR := CR) notGpt)
            (extendsTrace_trans (CR := CR) notGpt) trace_side.
  apply gateP_quiet.
Qed.

Lemma bind_not_this {A} (m : M CR A) (f : A -> M CR defined) (w : world CR) :
  (forall a w', fst (f a w') <> Ret DThis) -> fst ((m ≫= f) w) <> Ret DThis.
Proof.
  intros Hf. rewrite run_bind. destruct (m w) as [[a|e] w']; [apply Hf|discriminate].
Qed.

(** X8. [defineSlot] on a slot with a type returns the slot itself, having
    made no call to the ad service, when the gate refuses the slot; and it
    returns the slot itself only then. *)
Theorem defineSlot_refused_is_untouched (r : ref) (w : world CR) (t : string) :
  type (heap w r) = Some t ->
  (~ gateConditions E (boundSlot E (heap w r)) (view_of w) ->
     exists w', defineSlot E r w = (Ret DThis, w') /\ extendsTrace notGpt w w')
  /\ (fst (defineSlot E r w) = Ret DThis ->
      ~ gateConditions E (boundSlot E (heap w r)) (view_of w)).
Proof.
  intros Ht. rewrite defineSlot_regular, Ht. unfold defineSlotAsRegular.
  rewrite run_bind, run_call.
  set (w0 := emit [Invoked "shouldSendRequestToDfp" (id (heap w r))] w).
  destruct (gate_admits_exactly E r w0) as (x & Hx & Hiff).
  change (heap w0 r) with (heap w r) in Hiff.
  change (view_of w0) with (view_of w) in Hiff.
  pose proof (gate_quiet (Some r) w0) as Hq.
  destruct (shouldSendRequestToDfp E (Some r) w0) as [o w1].
  cbn [fst snd] in Hx, Hq. subst o.
  destruct (truthy x) eqn:Htr; cbn [negb].
  - split.
    + intros Hno. exfalso. apply Hno, Hiff. reflexivity.
    + intros Hthis. exfalso. revert Hthis.
      repeat (apply bind_not_this; intros ? ?).
      match goal with |- context [if ?b then _ else _] => destruct b end;
        [repeat (apply bind_not_this; intros ? ?)|]; discriminate.
  - split.
    + intros _. exists w1. split; [reflexivity|].
      apply (extendsTrace_trans notGpt w w0 w1); [|exact Hq].
      exists [Invoked "shouldSendRequestToDfp" (id (heap w r))].
      split; [reflexivity|repeat constructor].
    + intros _ Hc. apply Hiff in Hc. discriminate.
Qed.

Lemma entryOf_setEntry (key key' : string) (e : mappingEntry)
  (m : list (string * mappingEntry)) :
  entryOf key' (setEntry key e m)
  = if String.eqb key key' then Some e else entryOf key' m.
Proof.
  induction m as [|[k e0] m IH]; cbn.
  - destruct (String.eqb key key'); reflexivity.
  - destruct (String.eqb_spec k key) as [->|Hk]; cbn.
    + destruct (String.eqb key key'); reflexivity.
    + destruct (String.eqb_spec k key') as [->|Hk'].
      * destruct (String.eqb_spec key key') as [->|_]; [contradiction|reflexivity].
      * exact IH.
Qed.

Lemma isZeroSize_unwrapFluid (l : list sizeItem) :
  isZeroSize (map unwrapFluid l) = isZeroSize l.
Proof.
  destruct l as [|[[|[|p|p] [|[|p'|p'] [|z d]]]| |] [|y l']]; reflexivity.
Qed.

Lemma addSizeFor_containment (r : ref) (key : string) :
  framed (sameContainment E r) (addSizeFor (CR := CR) r key).
Proof.
  intros w. unfold addSizeFor. runM.
  destruct (responsiveAdSizeMapping (heap w r)) as [m|] eqn:Hm; cbn;
    [|intros bp v; reflexivity].
  destruct (entryOf key m) as [[|l]|] eqn:Hentry; cbn;
    try (intros bp v; reflexivity).
  intros bp v. cbn. rewrite (Nat.eqb_refl r). unfold doesBreakpointContainAd.
  cbn. rewrite Hm. cbn.
  destruct (responsive (heap w r)); [|reflexivity].
  rewrite entryOf_setEntry.
  destruct (String.eqb_spec key (getBreakpointName E bp)) as [<-|_]; [|reflexivity].
  rewrite Hentry, length_map, isZeroSize_unwrapFluid. reflexivity.
Qed.

Lemma sameContainment_refl (r : ref) (w : world CR) : sameContainment E r w w.
Proof. intros bp v. reflexivity. Qed.

Lemma sameContainment_trans (r : ref) (w1 w2 w3 : world CR) :
  sameContainment E r w1 w2 -> sameContainment E r w2 w3 -> sameContainment E r w1 w3.
Proof. intros H1 H2 bp v. rewrite H2. apply H1. Qed.

Ltac containment_go r :=
  framed_go (sameContainment_refl r) (sameContainment_trans r)
    ltac:(intros ? ?; cbn; rewrite ?(Nat.eqb_refl r); reflexivity).

Lemma gate_containment (r : ref) :
  framed (sameContainment E r) (shouldSendRequestToDfp E (Some r)).
Proof. unfold shouldSendRequestToDfp, bindHtmlElement. containment_go r. Qed.

(** X9. [defineSlot] rewrites the size mapping of a responsive slot in place,
    and may stop half way with an exception; whatever it did,
    [doesBreakpointContainAd] answers for the slot, at every breakpoint, what
    it answered before. *)
Theorem defineSlot_keeps_breakpoints (r : ref) (w : world CR) (breakpoint : Z)
  (v : view CR) :
  doesBreakpointContainAd E (Some (heap (snd (defineSlot E r w)) r)) breakpoint v
  = doesBreakpointContainAd E (Some (heap w r)) breakpoint v.
Proof.
  revert breakpoint v. change (sameContainment E r w (snd (defineSlot E r w))).
  revert w. change (framed (sameContainment E r) (defineSlot E r)).
  unfold defineSlot, defineSlotAsMaavaron, defineSlotAsRegular, defineMaavaron.
  containment_go r;
    first [ apply gate_containment | apply addSizeFor_containment
          | match goal with
            | |- context [if ?b then _ else _] =>
                destruct b; apply framed_modify; intros ?; intros ? ?; reflexivity
            end ].
Qed.
End Define.

Lemma defineSlot_refused_is_untouched_witness :
  type (heap (worldOf (slotOf "page.side" "paying")) 0%nat) = Some adTypes.regular
  /\ exists w', defineSlot samplePage 0%nat (worldOf (slotOf "page.side" "paying"))
                = (Ret DThis, w')
       /\ extendsTrace notGpt (worldOf (slotOf "page.side" "paying")) w'.
Proof.
  split; [reflexivity|].
  apply (proj1 (defineSlot_refused_is_untouched samplePage 0%nat
                  (worldOf (slotOf "page.side" "paying")) adTypes.regular eq_refl)).
  intros Hc. unfold gateConditions in Hc.
  decompose [and] Hc.
  match goal with
  | Hu : doesUserTypeMatchBannerTargeting _ _ = true |- _ => vm_compute in Hu; discriminate Hu
  end.
Defined.

(** ** Types, referrer lists and the order of slots *)

Lemma includes_indexOf (s key : string) : (-1 <? indexOf s key) = includes s key.
Proof.
  unfold indexOf, includes. destruct (String.index 0 key s) as [n|]; [|reflexivity].
  apply Z.ltb_lt. lia.
Qed.

Lemma includes_empty (s : string) : includes s "" = true.
Proof. unfold includes. destruct s; reflexivity. Qed.

(** X10. [getAdType] throws for the empty id only.  For any other id it
    returns one of the five types: the first of maavaron, popunder, talkback
    and interstitial whose name the id contains, and regular exactly when the
    id contains none of the four names. *)
Theorem getAdType_classifies (i : string) :
  (i = "" -> exists e, getAdType i = Throw e)
  /\ (i <> "" ->
      exists t, getAdType i = Ret t
        /\ (t = adTypes.maavaron <-> includes i adTypes.maavaron = true)
        /\ (t = adTypes.popunder
            <-> includes i adTypes.maavaron = false
                /\ includes i adTypes.popunder = true)
        /\ (t = adTypes.talkback
            <-> includes i adTypes.maavaron = false
                /\ includes i adTypes.popunder = false
                /\ includes i adTypes.talkback = true)
        /\ (t = adTypes.interstitial
            <-> includes i adTypes.maavaron = false
                /\ includes i adTypes.popunder = false
                /\ includes i adTypes.talkback = false
                /\ includes i adTypes.interstitial = true)
        /\ (t = adTypes.regular
            <-> includes i adTypes.maavaron = false
                /\ includes i adTypes.popunder = false
                /\ includes i adTypes.talkback = false
                /\ includes i adTypes.interstitial = false)).
Proof.
  split.
  - intros ->. eexists. reflexivity.
  - intros Hne. unfold getAdType. rewrite !includes_indexOf.
    destruct (String.eqb_spec i "") as [->|_]; [contradiction|].
    destruct (includes i adTypes.maavaron);
      [|destruct (includes i adTypes.popunder);
        [|destruct (includes i adTypes.talkback);
          [|destruct (includes i adTypes.interstitial)]]];
      eexists; (split; [reflexivity|]);
      repeat split; intros; try discriminate; try tauto;
      repeat match goal with H : _ /\ _ |- _ => destruct H end;
      try discriminate.
Qed.

Lemma getAdType_classifies_witness :
  "page.popunder.maavaron" <> ""
  /\ exists t, getAdType "page.popunder.maavaron" = Ret t
       /\ (t = adTypes.maavaron
           <-> includes "page.popunder.maavaron" adTypes.maavaron = true).
Proof.
  split; [discriminate|].
  destruct (proj2 (getAdType_classifies "page.popunder.maavaron") ltac:(discriminate))
    as (t & Ht & Hm & _).
  exists t. split; assumption.
Defined.

Section Predicates.
Context {CR : Type} `{!ConflictResolver CR}.
Variable E : env.

(** X11. For a slot with a type, [isOutOfPage], [isInterstitial] and
    [isMaavaron] return without an event.  A slot that is an interstitial is
    out of page; on a mobile user agent the two agree, and hold for the
    interstitial type only; elsewhere no slot is an interstitial and the
    popunder type alone is out of page.  Without a type, all three throw. *)
Theorem typed_slot_predicates (s : AdSlot) (v : view CR) :
  (forall t, type s = Some t ->
     exists oop int : bool,
       isOutOfPage E s v = ([], Ret oop)
       /\ isInterstitial E s v = ([], Ret int)
       /\ isMaavaron E s v = ([], Ret false)
       /\ (int = true -> oop = true)
       /\ (isMobile E = true ->
           oop = int /\ (int = true <-> t = adTypes.interstitial))
       /\ (isMobile E = false ->
           int = false /\ (oop = true <-> t = adTypes.popunder)))
  /\ (type s = None ->
      exists e1 e2 e3,
        isOutOfPage E s v = ([], Throw e1)
        /\ isInterstitial E s v = ([], Throw e2)
        /\ isMaavaron E s v = ([], Throw e3)).
Proof.
  unfold isOutOfPage, isInterstitial, isMaavaron. split.
  - intros t ->. destruct (isMobile E).
    + exists (String.eqb t adTypes.interstitial), (String.eqb t adTypes.interstitial).
      repeat split; try tauto; try discriminate.
      * apply String.eqb_eq.
      * apply String.eqb_eq.
    + destruct (String.eqb_spec t adTypes.maavaron) as [->|Hm];
        [|destruct (String.eqb_spec t adTypes.popunder) as [->|Hp];
          [|destruct (String.eqb t adTypes.talkback), (String.eqb t adTypes.regular)]].
      all: eexists _, false; repeat split; try reflexivity; try discriminate;
        try tauto; try congruence.
  - intros ->. eexists _, _, _. repeat split.
Qed.
End Predicates.

Lemma typed_slot_predicates_witness :
  type (slotOf "page.top" "all") = Some adTypes.regular
  /\ exists oop int : bool,
       isOutOfPage samplePage (slotOf "page.top" "all") (viewWith None) = ([], Ret oop)
       /\ isInterstitial samplePage (slotOf "page.top" "all") (viewWith None)
          = ([], Ret int)
       /\ (int = true -> oop = true).
Proof.
  split; [reflexivity|].
  destruct (proj1 (typed_slot_predicates samplePage (slotOf "page.top" "all")
                     (viewWith None)) adTypes.regular eq_refl)
    as (oop & int & H1 & H2 & _ & H3 & _).
  exists oop, int. repeat split; assumption.
Defined.

Section Referrers.
Context {CR : Type} `{!ConflictResolver CR}.
Variable E : env.

Lemma referrerListed_iff (l : list string) :
  referrerListed E l = true
  <-> exists x, In x l /\ includes (referrer E) x = true.
Proof.
  induction l as [|y l IH]; cbn.
  - split; [discriminate|intros (x & [] & _)].
  - rewrite includes_indexOf. destruct (includes (referrer E) y) eqn:Hy.
    + split; [|reflexivity]. intros _. exists y. split; [left; reflexivity|exact Hy].
    + rewrite IH. split.
      * intros (x & Hin & Hx). exists x. split; [right; exact Hin|exact Hx].
      * intros (x & [->|Hin] & Hx); [congruence|]. exists x. split; assumption.
Qed.

Lemma splitComma_trailing (c : string) :
  exists h l, splitComma (c +:+ ",") = (h :: l) ++ [""].
Proof.
  induction c as [|a c (h & l & IH)].
  - exists "", []. reflexivity.
  - change (String a c +:+ ",") with (String a (c +:+ ",")).
    cbn [splitComma]. rewrite IH. destruct (Ascii.eqb a ",").
    + exists "", (h :: l). reflexivity.
    + exists (String a h), l. reflexivity.
Qed.

Lemma referrerList_trailing (c : string) : In "" (referrerList (Some (c +:+ ","))).
Proof.
  unfold referrerList.
  destruct (String.eqb_spec (c +:+ ",") "") as [Hc|_].
  - destruct c; discriminate Hc.
  - destruct (splitComma_trailing c) as (h & l & ->).
    apply in_or_app. right. left. reflexivity.
Qed.

(** X12. A slot is blacklisted exactly when some entry of its blacklist
    occurs in the referrer, and whitelisted exactly when its whitelist is
    empty or some entry of it occurs in the referrer.  The lists are split at
    commas and nothing more: a configured list that ends in a comma has an
    empty entry, which occurs in every referrer, so such a blacklist refuses
    the slot everywhere and such a whitelist allows it everywhere. *)
Theorem referrer_lists (s : AdSlot) :
  (isBlacklisted E s = true
   <-> exists x, In x (blacklistReferrers s) /\ includes (referrer E) x = true)
  /\ (isWhitelisted E s = true
      <-> whitelistReferrers s = []
          \/ exists x, In x (whitelistReferrers s) /\ includes (referrer E) x = true)
  /\ (forall c, blacklistReferrers s = referrerList (Some (c +:+ ",")) ->
        isBlacklisted E s = true)
  /\ (forall c, whitelistReferrers s = referrerList (Some (c +:+ ",")) ->
        isWhitelisted E s = true).
Proof.
  assert (Hb : isBlacklisted E s = true
     <-> exists x, In x (blacklistReferrers s) /\ includes (referrer E) x = true).
  { unfold isBlacklisted. destruct (blacklistReferrers s) as [|y l] eqn:Hl.
    - cbn. split; [discriminate|intros (x & [] & _)].
    - cbn [length Nat.eqb negb]. apply referrerListed_iff. }
  assert (Hw : isWhitelisted E s = true
     <-> whitelistReferrers s = []
         \/ exists x, In x (whitelistReferrers s) /\ includes (referrer E) x = true).
  { unfold isWhitelisted. destruct (whitelistReferrers s) as [|y l] eqn:Hl.
    - cbn. split; [left; reflexivity|reflexivity].
    - cbn [length Nat.eqb negb]. rewrite referrerListed_iff. split.
      + intros Hx. right. exact Hx.
      + intros [Hnil|Hx]; [discriminate|exact Hx]. }
  split; [exact Hb|]. split; [exact Hw|]. split.
  - intros c Hc. apply Hb. exists "". split.
    + rewrite Hc. apply referrerList_trailing.
    + apply includes_empty.
  - intros c Hc. apply Hw. right. exists "". split.
    + rewrite Hc. apply referrerList_trailing.
    + apply includes_empty.
Qed.
End Referrers.

Lemma referrer_lists_witness :
  blacklistReferrers trailingCommaSlot = referrerList (Some ("ads.example.com" +:+ ","))
  /\ isBlacklisted samplePage trailingCommaSlot = true.
Proof.
  split; [reflexivity|].
  exact (proj1 (proj2 (proj2 (referrer_lists samplePage
                                trailingCommaSlot)))
           "ads.example.com" eq_refl).
Defined.


(** ** The comparator is consistent *)

Lemma ascii_compare_refl (a : ascii) : Ascii.compare a a = Eq.
Proof. unfold Ascii.compare. apply N.compare_refl. Qed.

Lemma ascii_compare_lt_trans (a b c : ascii) :
  Ascii.compare a b = Lt -> Ascii.compare b c = Lt -> Ascii.compare a c = Lt.
Proof. unfold Ascii.compare. rewrite !N.compare_lt_iff. lia. Qed.

Lemma string_compare_le_trans (a b c : string) :
  String.compare a b <> Gt -> String.compare b c <> Gt -> String.compare a c <> Gt.
Proof.
  revert b c. induction a as [|x a IH]; intros [|y b] [|z c]; cbn;
    try congruence.
  destruct (Ascii.compare x y) eqn:Hxy; [| |congruence];
    (destruct (Ascii.compare y z) eqn:Hyz; [| |congruence]).
  - apply Ascii.compare_eq_iff in Hxy, Hyz. subst. rewrite ascii_compare_refl.
    apply IH.
  - apply Ascii.compare_eq_iff in Hxy. subst. rewrite Hyz. congruence.
  - apply Ascii.compare_eq_iff in Hyz. subst. rewrite Hxy. congruence.
  - rewrite (ascii_compare_lt_trans _ _ _ Hxy Hyz). congruence.
Qed.

Lemma sortSlots_unpinned (a b : string) :
  includes a "billboard" = false ->
  sortSlots a b
  = match firstChar a with
    | None => Throw (TypeError "First[0] is undefined")
    | Some _ => Ret (if includes b "billboard" then 1 else 0)
    end.
Proof.
  intros Ha. unfold sortSlots. rewrite Ha. cbn.
  destruct a as [|x a]; [reflexivity|]. cbn [firstChar].
  rewrite single_char_not_pinned. cbn.
  destruct (includes b "billboard"); reflexivity.
Qed.

Lemma sortSlots_pinned_unpinned (a b : string) :
  includes a "billboard" = true -> includes b "billboard" = false ->
  sortSlots a b = Ret (-1).
Proof. intros Ha Hb. unfold sortSlots. rewrite Ha, Hb. reflexivity. Qed.

Lemma mayPrecede_pinned (a b : string) :
  includes a "billboard" = true -> includes b "billboard" = true ->
  mayPrecede a b
  <-> indexOf a "billboard" < indexOf b "billboard"
      \/ (indexOf a "billboard" = indexOf b "billboard" /\ String.compare a b <> Gt).
Proof.
  intros Ha Hb. unfold mayPrecede. rewrite (sortSlots_both_pinned a b Ha Hb).
  destruct (Z.eqb_spec (indexOf a "billboard" - indexOf b "billboard") 0) as [He|Hne].
  - destruct (String.compare a b); split.
    all: try (intros _; right; split; [lia|congruence]).
    all: try (intros _; eexists; split; [reflexivity|lia]).
    + intros (c & [= <-] & Hc). lia.
    + intros [Hlt|[_ Hc]]; [lia|congruence].
  - split.
    + intros (c & [= <-] & Hc). left. lia.
    + intros [Hlt|[Heq _]]; [|lia]. eexists. split; [reflexivity|lia].
Qed.

(** X13. [sortSlots] throws exactly when its first argument is the empty
    string.  On other ids it is a consistent comparator: swapping the
    arguments negates the result, and the order it induces is transitive, so
    that it orders the ids it is given. *)
Theorem sortSlots_consistent :
  (forall b, exists e, sortSlots "" b = Throw e)
  /\ (forall a b, a <> "" -> exists c, sortSlots a b = Ret c)
  /\ (forall a b c, a <> "" -> b <> "" ->
        sortSlots a b = Ret c -> sortSlots b a = Ret (- c))
  /\ (forall a b c, a <> "" -> b <> "" -> c <> "" ->
        mayPrecede a b -> mayPrecede b c -> mayPrecede a c).
Proof.
  split; [|split; [|split]].
  - intros b. eexists. reflexivity.
  - intros a b Ha. destruct (includes a "billboard") eqn:Hpa.
    + destruct (includes b "billboard") eqn:Hpb.
      * rewrite (sortSlots_both_pinned a b Hpa Hpb). eexists. reflexivity.
      * rewrite (sortSlots_pinned_unpinned a b Hpa Hpb). eexists. reflexivity.
    + rewrite (sortSlots_unpinned a b Hpa). destruct a; [contradiction|].
      eexists. reflexivity.
  - intros a b c Ha Hb.
    destruct (includes a "billboard") eqn:Hpa, (includes b "billboard") eqn:Hpb.
    + rewrite (sortSlots_both_pinned a b Hpa Hpb), (sortSlots_both_pinned b a Hpb Hpa).
      rewrite (String.compare_antisym a b).
      destruct (Z.eqb_spec (indexOf a "billboard" - indexOf b "billboard") 0) as [He|Hne];
        destruct (Z.eqb_spec (indexOf b "billboard" - indexOf a "billboard") 0) as [He'|Hne'];
        try lia.
      * intros [= <-]. destruct (String.compare b a); reflexivity.
      * intros [= <-]. f_equal. lia.
    + rewrite (sortSlots_pinned_unpinned a b Hpa Hpb), (sortSlots_unpinned b a Hpb), Hpa.
      destruct b; [contradiction|]. intros [= <-]. reflexivity.
    + rewrite (sortSlots_pinned_unpinned b a Hpb Hpa), (sortSlots_unpinned a b Hpa), Hpb.
      destruct a; [contradiction|]. intros [= <-]. reflexivity.
    + rewrite (sortSlots_unpinned a b Hpa), (sortSlots_unpinned b a Hpb), Hpa, Hpb.
      destruct a; [contradiction|]. destruct b; [contradiction|].
      intros [= <-]. reflexivity.
  - intros a b c Ha Hb Hc Hab Hbc.
    destruct (includes a "billboard") eqn:Hpa.
    + destruct (includes c "billboard") eqn:Hpc.
      * destruct (includes b "billboard") eqn:Hpb.
        -- rewrite mayPrecede_pinned in Hab, Hbc |- * by assumption.
           destruct Hab as [Hab|[Hab Hab']], Hbc as [Hbc|[Hbc Hbc']]; try (left; lia).
           right. split; [lia|]. exact (string_compare_le_trans a b c Hab' Hbc').
        -- destruct Hbc as (x & Hx & Hle).
           rewrite (sortSlots_unpinned b c Hpb), Hpc in Hx.
           destruct b; [contradiction|]. injection Hx as <-. lia.
      * exists (-1). split; [apply sortSlots_pinned_unpinned; assumption|lia].
    + assert (Hpb : includes b "billboard" = false).
      { destruct (includes b "billboard") eqn:Hpb; [|reflexivity].
        destruct Hab as (x & Hx & Hle).
        rewrite (sortSlots_unpinned a b Hpa), Hpb in Hx.
        destruct a; [contradiction|]. injection Hx as <-. lia. }
      assert (Hpc : includes c "billboard" = false).
      { destruct (includes c "billboard") eqn:Hpc; [|reflexivity].
        destruct Hbc as (x & Hx & Hle).
        rewrite (sortSlots_unpinned b c Hpb), Hpc in Hx.
        destruct b; [contradiction|]. injection Hx as <-. lia. }
      exists 0. split; [|lia].
      rewrite (sortSlots_unpinned a c Hpa), Hpc. destruct a; [contradiction|].
      reflexivity.
Qed.

Lemma sortSlots_consistent_witness :
  "z.other" <> "" /\ "a.billboard.1" <> ""
  /\ sortSlots "z.other" "a.billboard.1" = Ret 1
  /\ sortSlots "a.billboard.1" "z.other" = Ret (- 1).
Proof.
  split; [discriminate|]. split; [discriminate|]. split; [reflexivity|].
  exact (proj1 (proj2 (proj2 sortSlots_consistent))
           "z.other" "a.billboard.1" 1 ltac:(discriminate) ltac:(discriminate) eq_refl).
Defined.


(** ** The conditions of the gate, one by one *)

Section Conditions.
Context {CR : Type} `{!ConflictResolver CR}.
Variable E : env.

(** X14. [shouldDisplayAdMaavaronAfterPayWallBanner] always returns, and
    fails open: its value is falsy exactly on the haaretz site, for a slot of
    the maavaron type, when the stored paywall object parses, its [mc] is
    missing, [null] or a number below 12, and its [nextslotLocation] is
    missing, [null], empty or contains [pop].  A stored object that does not
    parse lets the slot through. *)
Theorem paywall_fails_open (s : AdSlot) (v : view CR) :
  exists l x,
    shouldDisplayAdMaavaronAfterPayWallBanner E s v = (l, Ret x)
    /\ (truthy x = false
        <-> site E = "haaretz"
            /\ type s = Some adTypes.maavaron
            /\ exists mc loc,
                 cobj E = Cobj mc loc
                 /\ (forall n, mc = FVal n -> n < 12)
                 /\ (forall p, loc = FVal p -> p = "" \/ includes p "pop" = true)).
Proof.
  unfold shouldDisplayAdMaavaronAfterPayWallBanner, typeIs.
  destruct (String.eqb_spec (site E) "haaretz") as [Hsite|Hsite]; cbn [andb].
  2: { eexists _, _. split; [reflexivity|]. cbn. split; [discriminate|].
       intros (Hc & _). contradiction. }
  destruct (type s) as [t|].
  2: { eexists _, _. split; [reflexivity|]. cbn. split; [discriminate|].
       intros (_ & Hc & _). discriminate. }
  destruct (String.eqb_spec t adTypes.maavaron) as [->|Ht].
  2: { eexists _, _. split; [reflexivity|]. cbn. split; [discriminate|].
       intros (_ & Hc & _). congruence. }
  destruct (cobj E) as [| |mc loc] eqn:Hcobj.
  - eexists _, _. split; [reflexivity|]. cbn. split; [discriminate|].
    intros (_ & _ & mc & loc & Hc & _). discriminate.
  - eexists _, _. split; [reflexivity|]. cbn. split; [discriminate|].
    intros (_ & _ & mc & loc & Hc & _). discriminate.
  - eexists _, _. split; [reflexivity|].
    assert (Hmc : truthy (andV match mc with
                               | FVal n => VNum n
                               | FNull => VNull
                               | FMissing => VUndefined
                               end
                               match mc with
                               | FVal n => VBool (12 <=? n)
                               | _ => VBool false
                               end) = false
                  <-> forall n, mc = FVal n -> n < 12).
    { destruct mc as [| |n]; unfold andV; cbn.
      - split; [intros _ n [=]|reflexivity].
      - split; [intros _ n [=]|reflexivity].
      - destruct (Z.eqb_spec n 0) as [->|Hn]; cbn.
        + split; [intros _ n [= <-]; lia|reflexivity].
        + destruct (Z.leb_spec 12 n); split; try discriminate; try reflexivity.
          * intros Hc. specialize (Hc n eq_refl). lia.
          * intros _ n' [= <-]. assumption. }
    assert (Hloc : truthy (andV match loc with
                                | FVal l => VStr l
                                | FNull => VNull
                                | FMissing => VUndefined
                                end
                                match loc with
                                | FVal l => VBool (negb (includes l "pop"))
                                | _ => VBool false
                                end) = false
                   <-> forall p, loc = FVal p -> p = "" \/ includes p "pop" = true).
    { destruct loc as [| |p]; unfold andV; cbn.
      - split; [intros _ p [=]|reflexivity].
      - split; [intros _ p [=]|reflexivity].
      - destruct (String.eqb_spec p "") as [->|Hp]; cbn.
        + split; [intros _ p [= <-]; left; reflexivity|reflexivity].
        + destruct (includes p "pop") eqn:Hpop; cbn; split;
            try discriminate; try reflexivity.
          * intros _ p' [= <-]. right. exact Hpop.
          * intros Hc. destruct (Hc p eq_refl) as [Hc'|Hc']; congruence. }
    unfold orV at 1. cbn [truthy]. unfold orV.
    match goal with
    | |- context [if truthy ?a then ?a else ?b] =>
        destruct (truthy a) eqn:Ha
    end.
    + rewrite Ha. split; [discriminate|].
      intros (_ & _ & mc' & loc' & [= <- <-] & Hm & _).
      apply Hmc in Hm. congruence.
    + split.
      * intros Hb. split; [exact Hsite|]. split; [reflexivity|].
        exists mc, loc. split; [reflexivity|]. split; [apply Hmc; reflexivity|apply Hloc, Hb].
      * intros (_ & _ & mc' & loc' & [= <- <-] & _ & Hl). apply Hloc, Hl.
Qed.

(** X15. In a web view the gate refuses every slot whose id contains
    [interstitial], and every slot that has no element, bound or in the
    page. *)
Theorem gate_in_web_view (r : ref) (w : world CR) :
  isWebView E = true ->
  includes (id (heap w r)) "interstitial" = true
  \/ htmlElement (boundSlot E (heap w r)) = None ->
  exists x, fst (shouldSendRequestToDfp E (Some r) w) = Ret x /\ truthy x = false.
Proof.
  intros Hweb Hs. destruct (gate_admits_exactly E r w) as (x & Hx & Hiff).
  exists x. split; [exact Hx|].
  destruct (truthy x); [|reflexivity]. exfalso.
  destruct (proj1 Hiff eq_refl) as (_ & Hel & _ & _ & _ & _ & Hwv & _).
  destruct Hs as [Hid|Hnone].
  - unfold shouldDisplayAdInWebView in Hwv.
    assert (Hid' : id (boundSlot E (heap w r)) = id (heap w r)).
    { unfold boundSlot.
      destruct (htmlElement (heap w r)), (getElementById E (id (heap w r)));
        reflexivity. }
    rewrite Hweb, Hid' in Hwv. cbn in Hwv. rewrite Hid in Hwv. discriminate.
  - destruct Hel as [Hel|[Hc _]]; congruence.
Qed.

(** X16. The targeting of a slot against the type of the user, for every
    account but the one that sees everything: the target [all] matches every
    user; [nonPaying] matches exactly the users that [anonymous] or
    [registered] match; [paying], [digitalOnly] and [digitalAndPrint] match
    the same users, and none that [nonPaying] matches; any other target
    matches no one.  The exempt account matches every target. *)
Theorem user_targeting :
  (String.eqb (ssoUserName E) "pilosmadar@gmail.com" = true ->
     forall t, doesUserTypeMatchBannerTargeting E t = true)
  /\ (String.eqb (ssoUserName E) "pilosmadar@gmail.com" = false ->
      doesUserTypeMatchBannerTargeting E adTargets.all = true
      /\ doesUserTypeMatchBannerTargeting E adTargets.nonPaying
         = doesUserTypeMatchBannerTargeting E adTargets.anonymous
           || doesUserTypeMatchBannerTargeting E adTargets.registered
      /\ doesUserTypeMatchBannerTargeting E adTargets.digitalOnly
         = doesUserTypeMatchBannerTargeting E adTargets.paying
      /\ doesUserTypeMatchBannerTargeting E adTargets.digitalAndPrint
         = doesUserTypeMatchBannerTargeting E adTargets.paying
      /\ (doesUserTypeMatchBannerTargeting E adTargets.paying = true ->
          doesUserTypeMatchBannerTargeting E adTargets.nonPaying = false)
      /\ (forall t,
            ~ In t [adTargets.all; adTargets.nonPaying; adTargets.anonymous;
                    adTargets.registered; adTargets.paying; adTargets.digitalOnly;
                    adTargets.digitalAndPrint] ->
            doesUserTypeMatchBannerTargeting E t = false)).
Proof.
  unfold doesUserTypeMatchBannerTargeting. split.
  - intros -> t. reflexivity.
  - intros ->. cbn. repeat split.
    + destruct (String.eqb_spec (userType E) UserTypes.paying) as [->|_];
        [reflexivity|discriminate].
    + intros t Hin.
      repeat match goal with
      | |- context [String.eqb t ?x] =>
          destruct (String.eqb_spec t x) as [->|_];
            [exfalso; apply Hin; cbn; tauto|]
      end.
      reflexivity.
Qed.
End Conditions.

Lemma gate_in_web_view_witness :
  isWebView webViewPage = true
  /\ includes (id (heap (worldOf (slotOf "page.interstitial" "all")) 0%nat))
       "interstitial" = true
  /\ exists x,
       fst (shouldSendRequestToDfp webViewPage (Some 0%nat)
              (worldOf (slotOf "page.interstitial" "all"))) = Ret x
       /\ truthy x = false.
Proof.
  split; [reflexivity|]. split; [reflexivity|].
  exact (gate_in_web_view webViewPage 0%nat
           (worldOf (slotOf "page.interstitial" "all")) eq_refl (or_introl eq_refl)).
Defined.

Lemma user_targeting_witness :
  String.eqb (ssoUserName samplePage) "pilosmadar@gmail.com" = false
  /\ doesUserTypeMatchBannerTargeting samplePage adTargets.all = true.
Proof.
  split; [reflexivity|].
  exact (proj1 (proj2 (user_targeting samplePage) eq_refl)).
Defined.


(** ** Which interstitial policy applies *)

Section Dispatch.
Context {CR : Type} `{!ConflictResolver CR}.
Variable E : env.

(** X17. [interstitialShouldDisplay] lets every slot through whose id does
    not contain [interstitial].  For the others, a paying user on the
    homepage is refused before any stored state is read or written, an id
    that names neither the small nor the full interstitial is refused, and
    only an id of the small interstitial can change anything but the trace. *)
Theorem interstitialShouldDisplay_dispatch (isHomepage : bool) (s : AdSlot)
  (w : world CR) :
  (includes (id s) "interstitial" = false ->
     interstitialShouldDisplay E isHomepage s w = (Ret (VBool true), w))
  /\ (includes (id s) "interstitial" = true ->
      isHomepage = true -> userIsPaying E = true ->
      interstitialShouldDisplay E isHomepage s w = (Ret (VBool false), w))
  /\ (includes (id s) "interstitial" = true ->
      includes (id s) adTypes.interstitialSmall = false ->
      includes (id s) adTypes.interstitialFull = false ->
      interstitialShouldDisplay E isHomepage s w = (Ret (VBool false), w))
  /\ (includes (id s) adTypes.interstitialSmall = false ->
      onlyTrace w (snd (interstitialShouldDisplay E isHomepage s w))).
Proof.
  unfold interstitialShouldDisplay. repeat split.
  - intros ->. reflexivity.
  - intros -> -> ->. reflexivity.
  - intros -> -> ->. cbn. destruct (isHomepage && userIsPaying E); reflexivity.
  - intros ->.
    destruct (negb (includes (id s) "interstitial")); [apply onlyTrace_refl|].
    destruct (isHomepage && userIsPaying E); [apply onlyTrace_refl|].
    destruct (includes (id s) adTypes.interstitialFull); [|apply onlyTrace_refl].
    rewrite run_liftP. cbn [snd]. eexists. reflexivity.
Qed.
End Dispatch.

Lemma interstitialShouldDisplay_dispatch_witness :
  includes (id (slotOf "page.top" "all")) "interstitial" = false
  /\ interstitialShouldDisplay samplePage true (slotOf "page.top" "all") (emptyWorld None)
     = (Ret (VBool true), emptyWorld None).
Proof.
  split; [reflexivity|].
  exact (proj1 (interstitialShouldDisplay_dispatch samplePage true
                  (slotOf "page.top" "all") (emptyWorld None)) eq_refl).
Defined.

(** ** Refreshing slots *)

Section Refresh.
Context {CR : Type} `{!ConflictResolver CR}.
Variable E : env.

(** The gate on a registered slot, step by step: the element is bound, the
    conditions are evaluated on the bound slot, and only the trace grows
    after the binding. *)
Lemma gate_run (r : ref) (w : world CR) :
  exists w1 l,
    bindHtmlElement E r w = (Ret tt, w1)
    /\ shouldSendRequestToDfp E (Some r) w
       = (Ret (gateValue E (boundSlot E (heap w r)) (view_of w)), emit l w1)
    /\ Forall notGpt l
    /\ heap w1 r = boundSlot E (heap w r)
    /\ trace w1 = trace w
    /\ keeps r w w1.
Proof.
  destruct (gate_unfold E (Some r) w) as (w1 & [Hrun _] & Hview & Htr & _ & Hgate).
  pose proof (bindHtmlElement_heap E r w w1 Hrun) as Hheap.
  pose proof (bindHtmlElement_keeps E r w) as Hkeeps. rewrite Hrun in Hkeeps.
  pose proof (gateP_quiet E (Some (heap w1 r)) (view_of w1)) as Hq.
  unfold gateResult in Hgate. cbn [fmap option_fmap option_map] in Hgate.
  unfold gateValue. rewrite <- Hheap, <- Hview.
  destruct (gateP E (Some (heap w1 r)) (view_of w1)) as [l [x|e]]; cbn [fst] in Hq.
  - exists w1, l. repeat split; try assumption; apply Hkeeps.
  - exists w1, (l ++ [ConsoleError "shouldSendRequestToDfp"]).
    repeat split; try assumption; try apply Hkeeps.
    apply Forall_app. split; [exact Hq|repeat constructor].
Qed.

(** X18. [refreshSlot] on a name that is not registered throws a
    [TypeError] (the gate refuses the missing slot, and [hide] is called on
    it) without any call to the ad service.  On a registered name it
    returns; it pushes the [hide] command exactly when the gate refuses the
    slot, and the [refresh] command exactly when the gate admits the slot and
    the slot has its element. *)
Theorem refreshSlot_refreshes_or_hides (adUnitName : string) (w : world CR) :
  (adSlots w !! adUnitName = None ->
     exists what w', refreshSlot E adUnitName w = (Throw (TypeError what), w')
       /\ extendsTrace notGpt w w')
  /\ (forall r, adSlots w !! adUnitName = Some r ->
        exists w' l, refreshSlot E adUnitName w = (Ret tt, w')
          /\ trace w' = trace w ++ l
          /\ (In (Gpt "cmd.push" ("hide " +:+ id (heap w r))) l
              <-> ~ gateConditions E (boundSlot E (heap w r)) (view_of w))
          /\ (In (Gpt "cmd.push" ("refresh " +:+ id (heap w r))) l
              <-> gateConditions E (boundSlot E (heap w r)) (view_of w)
                  /\ htmlElement (boundSlot E (heap w r)) <> None)).
Proof.
  unfold refreshSlot. split.
  - intros Hnone. rewrite run_bind, run_gets, Hnone, run_bind.
    pose proof (gate_quiet E None w) as Hq.
    destruct (gate_unfold E None w) as (w1 & -> & _ & _ & _ & Hgate).
    rewrite Hgate in Hq |- *. unfold gateResult in *. cbn in *.
    eexists _, _. split; [reflexivity|exact Hq].
  - intros r Hr. rewrite run_bind, run_gets, Hr, run_bind.
    destruct (gate_admits_exactly E r w) as (x & Hx & Hiff).
    destruct (gate_run r w) as (w1 & l & _ & Hgate & Hl & Hheap & Htr & _).
    rewrite Hgate in Hx |- *. cbn [fst] in Hx. injection Hx as Hx. rewrite Hx.
    assert (Hid : id (heap w1 r) = id (heap w r)).
    { rewrite Hheap. apply boundSlot_id. }
    rewrite <- Hheap in Hiff. rewrite <- Hheap, <- Hid.
    destruct (truthy x) eqn:Hadm.
    + unfold refreshOf, refresh. rewrite run_call, run_bind, run_gets.
      cbn [heap emit].
      destruct (htmlElement (heap w1 r)) as [el|] eqn:Hel.
      * eexists _, _. split; [reflexivity|]. cbn [trace emit].
        rewrite Htr, <- !app_assoc. split; [reflexivity|]. split; split.
        -- intros Hin. exfalso. apply in_app_or in Hin.
           destruct Hin as [Hin|[Hin|[Hin|[]]]];
             first [discriminate Hin | exact (notGpt_not_in _ _ _ Hl Hin)].
        -- intros Hno. exfalso. apply Hno, Hiff. reflexivity.
        -- intros _. split; [apply Hiff; reflexivity|discriminate].
        -- intros _. apply in_or_app. right. right. left. reflexivity.
      * assert (Hquiet : exists w' l', 
                  (if DEBUG E
                   then logM (ConsoleError "calling refresh for an ad slot that is missing a required DOM element!")
                   else skip) (emit [Invoked "refresh" ""] (emit l w1)) = (Ret tt, w')
                  /\ trace w' = trace w ++ l' /\ Forall notGpt l').
        { destruct (DEBUG E); eexists _, _; (split; [reflexivity|]); cbn [trace emit];
            rewrite Htr, <- ?app_assoc; (split; [reflexivity|]);
            apply Forall_app; (split; [exact Hl|repeat constructor]). }
        destruct Hquiet as (w' & l' & -> & Htr' & Hl').
        exists w', l'. split; [reflexivity|]. split; [exact Htr'|]. split; split.
        -- intros Hin. exfalso. exact (notGpt_not_in _ _ _ Hl' Hin).
        -- intros Hno. exfalso. apply Hno, Hiff. reflexivity.
        -- intros Hin. exfalso. exact (notGpt_not_in _ _ _ Hl' Hin).
        -- intros [_ Hc]. contradiction.
    + unfold hideOf, hide. rewrite run_call, run_bind, run_gets.
      cbn [heap emit].
      eexists _, _. split; [reflexivity|]. cbn [trace emit].
      rewrite Htr, <- !app_assoc. split; [reflexivity|]. split; split.
      * intros _ Hc. apply Hiff in Hc. discriminate.
      * intros _. apply in_or_app. right. right. left. reflexivity.
      * intros Hin. exfalso. apply in_app_or in Hin.
        destruct Hin as [Hin|[Hin|[Hin|[]]]];
          first [discriminate Hin | exact (notGpt_not_in _ _ _ Hl Hin)].
      * intros [Hc _]. apply Hiff in Hc. discriminate.
Qed.
End Refresh.

Lemma refreshSlot_refreshes_or_hides_witness :
  adSlots (worldOf (slotOf "page.top" "all")) !! "missing" = None
  /\ exists what w',
       refreshSlot samplePage "missing" (worldOf (slotOf "page.top" "all"))
       = (Throw (TypeError what), w')
       /\ extendsTrace notGpt (worldOf (slotOf "page.top" "all")) w'.
Proof.
  split; [reflexivity|].
  exact (proj1 (refreshSlot_refreshes_or_hides samplePage "missing"
                  (worldOf (slotOf "page.top" "all"))) eq_refl).
Defined.


Section RefreshLoops.
Context {CR : Type} `{!ConflictResolver CR}.
Variable E : env.

Lemma prefix_append (a b : string) : String.prefix a (a +:+ b) = true.
Proof.
  induction a as [|c a IH]; [destruct b; reflexivity|].
  change (String c a +:+ b) with (String c (a +:+ b)). cbn.
  destruct (ascii_dec c c); [exact IH|contradiction].
Qed.

Lemma registryGrows_refl (w : world CR) : registryGrows w w.
Proof. intros k Hk. exact Hk. Qed.

Lemma registryGrows_trans (w1 w2 w3 : world CR) :
  registryGrows w1 w2 -> registryGrows w2 w3 -> registryGrows w1 w3.
Proof. intros H1 H2 k Hk. apply H2, H1, Hk. Qed.

Ltac registry_side :=
  first [ solve [ intros k Hk; exact Hk ]
        | solve [ intros k Hk; cbn; apply lookup_insert_is_Some';
                  right; exact Hk ] ].

Ltac registry_go :=
  framed_go registryGrows_refl registryGrows_trans registry_side.

Lemma gate_registry (adSlot : option ref) :
  framed registryGrows (shouldSendRequestToDfp E adSlot).
Proof. unfold shouldSendRequestToDfp, bindHtmlElement. registry_go. Qed.

Ltac refresh_side :=
  first
    [ solve [ exists []; split; [cbn; symmetry; apply app_nil_r|constructor] ]
    | solve [ eexists [_]; split;
              [reflexivity
              |constructor;
               [cbn; first [ exact I
                           | split; [reflexivity|];
                             first [left; apply prefix_append
                                   |right; apply prefix_append] ]
               |constructor]] ]
    | apply emitsP_extends ].

Ltac refresh_go :=
  framed_go (extendsTrace_refl (CR := CR) refreshOrHide)
            (extendsTrace_trans (CR := CR) refreshOrHide) refresh_side.

Lemma gateP_refreshOrHide (adSlot : option AdSlot) :
  emitsP refreshOrHide (gateP E adSlot).
Proof.
  unfold gateP, andThen, callP, asValue, isFalse, googleInterstitialShouldDisplay,
    isGoogleInterstitial, shouldDisplayAdMaavaronAfterPayWallBanner,
    doesBreakpointContainAd, getParsed.
  emitsP_go.
Qed.

Lemma gate_refreshOrHide (adSlot : option ref) :
  framed (extendsTrace refreshOrHide) (shouldSendRequestToDfp E adSlot).
Proof.
  unfold shouldSendRequestToDfp, bindHtmlElement. refresh_go.
  apply gateP_refreshOrHide.
Qed.

Lemma refreshSlot_trace (k : string) :
  framed (extendsTrace refreshOrHide) (refreshSlot E k).
Proof.
  unfold refreshSlot, refreshOf, hideOf, refresh, hide.
  refresh_go; apply gate_refreshOrHide.
Qed.

Lemma refreshResponsive_trace (k : string) :
  framed (extendsTrace refreshOrHide) (refreshResponsive E k).
Proof.
  unfold refreshResponsive, refresh, hide.
  refresh_go; apply gate_refreshOrHide.
Qed.

Lemma refreshSlot_deferred (k : string) : framed sameDeferred (refreshSlot E k).
Proof.
  unfold refreshSlot, refreshOf, hideOf, refresh, hide.
  framed_go (sameDeferred_refl (CR := CR)) (sameDeferred_trans (CR := CR))
    deferred_side; apply gate_deferred.
Qed.

Lemma refreshResponsive_deferred (k : string) :
  framed sameDeferred (refreshResponsive E k).
Proof.
  unfold refreshResponsive, refresh, hide.
  framed_go (sameDeferred_refl (CR := CR)) (sameDeferred_trans (CR := CR))
    deferred_side; apply gate_deferred.
Qed.

Lemma refreshSlot_registry (k : string) : framed registryGrows (refreshSlot E k).
Proof.
  unfold refreshSlot, refreshOf, hideOf, refresh, hide.
  registry_go; apply gate_registry.
Qed.

Lemma refreshResponsive_registry (k : string) :
  framed registryGrows (refreshResponsive E k).
Proof.
  unfold refreshResponsive, refresh, hide.
  registry_go; apply gate_registry.
Qed.

Lemma refresh_returns (r : ref) (w : world CR) : fst (refresh E r w) = Ret tt.
Proof.
  unfold refresh. rewrite run_bind, run_gets.
  destruct (htmlElement (heap w r)); [reflexivity|].
  destruct (DEBUG E); reflexivity.
Qed.

Lemma refreshSlot_returns (k : string) (w : world CR) :
  is_Some (adSlots w !! k) -> fst (refreshSlot E k w) = Ret tt.
Proof.
  intros [r Hr]. unfold refreshSlot. rewrite run_bind, run_gets, Hr, run_bind.
  destruct (gate_returns E (Some r) w) as [v Hv].
  destruct (shouldSendRequestToDfp E (Some r) w) as [o w1]. cbn [fst] in Hv. subst o.
  destruct (truthy v); unfold refreshOf, hideOf; rewrite run_call;
    [apply refresh_returns|reflexivity].
Qed.

Lemma refreshResponsive_returns (k : string) (w : world CR) :
  is_Some (adSlots w !! k) -> fst (refreshResponsive E k w) = Ret tt.
Proof.
  intros [r Hr]. unfold refreshResponsive.
  rewrite run_bind, run_gets, Hr, run_bind, run_gets.
  destruct (responsive (heap w r) && negb (typeIs (heap w r) adTypes.maavaron));
    [|reflexivity].
  destruct (negb (bool_decide (lastResolvedWithBreakpoint (heap w r)
                               = Some (currentBreakpoint E)))); [|reflexivity].
  rewrite run_bind.
  destruct (gate_returns E (Some r) w) as [v Hv].
  destruct (shouldSendRequestToDfp E (Some r) w) as [o w1]. cbn [fst] in Hv. subst o.
  destruct (truthy v); [|reflexivity].
  rewrite run_bind. destruct (DEBUG E); cbn; apply refresh_returns.
Qed.

Lemma forOf_returns (body : string -> M CR unit) (keys : list string) :
  (forall k, framed registryGrows (body k)) ->
  (forall k w, is_Some (adSlots w !! k) -> fst (body k w) = Ret tt) ->
  forall w : world CR,
    (forall k, In k keys -> is_Some (adSlots w !! k)) ->
    fst (forOf keys body w) = Ret tt.
Proof.
  intros Hreg Hret. induction keys as [|k keys IH]; intros w Hin; [reflexivity|].
  cbn [forOf]. rewrite run_bind.
  pose proof (Hret k w (Hin k (or_introl eq_refl))) as Hk.
  pose proof (Hreg k w) as Hg.
  destruct (body k w) as [o w1]. cbn [fst snd] in Hk, Hg. subst o.
  apply IH. intros k' Hk'. apply Hg, Hin. right. exact Hk'.
Qed.

(** X19. Over ids that are all registered, as the keys of the registry are,
    [refreshAllSlots] and [refreshAllSlotsInPage] return; every call they
    make into the ad service is a pushed [refresh] or [hide] command; and
    the set of deferred ids is left as it is. *)
Theorem refresh_loops_return (keys : list string) (w : world CR) :
  (forall k, In k keys -> is_Some (adSlots w !! k)) ->
  (exists w', refreshAllSlots E keys w = (Ret tt, w')
     /\ extendsTrace refreshOrHide w w'
     /\ deferredSlots w' = deferredSlots w)
  /\ (exists w', refreshAllSlotsInPage E keys w = (Ret tt, w')
      /\ extendsTrace refreshOrHide w w'
      /\ deferredSlots w' = deferredSlots w).
Proof.
  intros Hin. unfold refreshAllSlots, refreshAllSlotsInPage. split.
  - pose proof (forOf_returns (refreshResponsive E) keys
                  refreshResponsive_registry refreshResponsive_returns w Hin) as Hret.
    pose proof (framed_forOf _ (extendsTrace_refl refreshOrHide)
                  (extendsTrace_trans refreshOrHide) keys _
                  refreshResponsive_trace w) as Htr.
    pose proof (framed_forOf _ sameDeferred_refl sameDeferred_trans keys _
                  refreshResponsive_deferred w) as Hdef.
    destruct (forOf keys (refreshResponsive E) w) as [o w'].
    cbn [fst snd] in *. subst o. exists w'. repeat split; assumption.
  - pose proof (forOf_returns (refreshSlot E) keys
                  refreshSlot_registry refreshSlot_returns w Hin) as Hret.
    pose proof (framed_forOf _ (extendsTrace_refl refreshOrHide)
                  (extendsTrace_trans refreshOrHide) keys _
                  refreshSlot_trace w) as Htr.
    pose proof (framed_forOf _ sameDeferred_refl sameDeferred_trans keys _
                  refreshSlot_deferred w) as Hdef.
    destruct (forOf keys (refreshSlot E) w) as [o w'].
    cbn [fst snd] in *. subst o. exists w'. repeat split; assumption.
Qed.
End RefreshLoops.

Lemma refresh_loops_return_witness :
  (forall k, In k ["page.top"] ->
     is_Some (adSlots (worldOf (slotOf "page.top" "all")) !! k))
  /\ exists w',
       refreshAllSlotsInPage samplePage ["page.top"] (worldOf (slotOf "page.top" "all"))
       = (Ret tt, w')
       /\ extendsTrace refreshOrHide (worldOf (slotOf "page.top" "all")) w'
       /\ deferredSlots w' = deferredSlots (worldOf (slotOf "page.top" "all")).
Proof.
  assert (Hin : forall k, In k ["page.top"] ->
                  is_Some (adSlots (worldOf (slotOf "page.top" "all")) !! k)).
  { intros k [<-|[]]. exists 0%nat. reflexivity. }
  split; [exact Hin|].
  exact (proj2 (refresh_loops_return samplePage ["page.top"]
                  (worldOf (slotOf "page.top" "all")) Hin)).
Defined.


Section Breakpoints.
Context {CR : Type} `{!ConflictResolver CR}.
Variable E : env.

Lemma refresh_run (r : ref) (w : world CR) :
  exists l, refresh E r w = (Ret tt, emit l w).
Proof.
  unfold refresh. rewrite run_bind, run_gets.
  destruct (htmlElement (heap w r)); [eexists; reflexivity|].
  destruct (DEBUG E); [eexists; reflexivity|].
  exists []. rewrite emit_nil. reflexivity.
Qed.

Lemma countSwitched_run (breakpoint : Z) (keys : list string) :
  forall (count : Z) (w : world CR),
    (forall k, In k keys -> is_Some (adSlots w !! k)) ->
    exists l,
      countSwitched E breakpoint keys count w
      = (Ret (count + Z.of_nat (length (List.filter (resolvedElsewhere breakpoint w) keys))),
         emit l w).
Proof.
  induction keys as [|k keys IH]; intros count w Hin.
  - exists []. rewrite emit_nil. cbn. rewrite Z.add_0_r. reflexivity.
  - destruct (Hin k (or_introl eq_refl)) as [r Hr].
    assert (Hin' : forall k', In k' keys -> is_Some (adSlots w !! k')).
    { intros k' Hk'. apply Hin. right. exact Hk'. }
    cbn [countSwitched List.filter]. rewrite run_bind, run_gets, Hr, run_bind, run_gets.
    unfold resolvedElsewhere at 1. rewrite Hr.
    destruct (responsive (heap w r) && resolvedAt (heap w r)); cbn [andb].
    + destruct (negb (bool_decide (lastResolvedWithBreakpoint (heap w r)
                                   = Some breakpoint))).
      * rewrite run_bind, run_call.
        destruct (refresh_run r (emit [Invoked "refresh" ""] w)) as [l1 ->].
        destruct (IH (count + 1) (emit l1 (emit [Invoked "refresh" ""] w)) Hin')
          as [l2 ->].
        change (resolvedElsewhere breakpoint (emit l1 (emit [Invoked "refresh" ""] w)))
          with (resolvedElsewhere breakpoint w).
        rewrite !emit_emit. eexists. f_equal. f_equal. cbn [length]. lia.
      * exact (IH count w Hin').
    + exact (IH count w Hin').
Qed.

(** X20. [switchedToBreakpoint] throws for the breakpoint [0].  For any
    other breakpoint, over registered ids, it returns the number of ids whose
    slot is responsive and was last resolved at a different breakpoint, and
    nothing but the trace has changed. *)
Theorem switchedToBreakpoint_counts (breakpoint : Z) (keys : list string)
  (w : world CR) :
  (breakpoint = 0 ->
     exists e, switchedToBreakpoint E breakpoint keys w = (Throw e, w))
  /\ (breakpoint <> 0 ->
      (forall k, In k keys -> is_Some (adSlots w !! k)) ->
      exists w',
        switchedToBreakpoint E breakpoint keys w
        = (Ret (Z.of_nat (length (List.filter (resolvedElsewhere breakpoint w) keys))), w')
        /\ onlyTrace w w').
Proof.
  unfold switchedToBreakpoint. split.
  - intros ->. eexists. reflexivity.
  - intros Hbp Hin. destruct (Z.eqb_spec breakpoint 0) as [|_]; [contradiction|].
    destruct (countSwitched_run breakpoint keys 0 w Hin) as [l ->].
    eexists. split; [reflexivity|]. exists l. reflexivity.
Qed.
End Breakpoints.

Lemma switchedToBreakpoint_counts_witness :
  1000 <> 0
  /\ (forall k, In k ["page.top"] -> is_Some (adSlots (worldOf resolvedTierSlot) !! k))
  /\ exists w',
       switchedToBreakpoint samplePage 1000 ["page.top"] (worldOf resolvedTierSlot)
       = (Ret 1, w')
       /\ onlyTrace (worldOf resolvedTierSlot) w'.
Proof.
  assert (Hin : forall k, In k ["page.top"] ->
                  is_Some (adSlots (worldOf resolvedTierSlot) !! k)).
  { intros k [<-|[]]. exists 0%nat. reflexivity. }
  split; [discriminate|]. split; [exact Hin|].
  exact (proj2 (switchedToBreakpoint_counts samplePage 1000 ["page.top"]
                  (worldOf resolvedTierSlot)) ltac:(discriminate) Hin).
Defined.

Section ShowLoops.
Context {CR : Type} `{!ConflictResolver CR}.
Variable E : env.

Ltac show_side :=
  first
    [ solve [ exists []; split; [cbn; symmetry; apply app_nil_r|constructor] ]
    | solve [ eexists [_]; split;
              [reflexivity
              |constructor;
               [cbn; first [ exact I
                           | left; split; [reflexivity|apply prefix_append]
                           | right; reflexivity ]
               |constructor]] ]
    | apply emitsP_extends ].

Ltac show_go :=
  framed_go (extendsTrace_refl (CR := CR) showPush)
            (extendsTrace_trans (CR := CR) showPush) show_side.

Lemma gateP_showPush (adSlot : option AdSlot) :
  emitsP showPush (gateP E adSlot).
Proof.
  unfold gateP, andThen, callP, asValue, isFalse, googleInterstitialShouldDisplay,
    isGoogleInterstitial, shouldDisplayAdMaavaronAfterPayWallBanner,
    doesBreakpointContainAd, getParsed.
  emitsP_go.
Qed.

Lemma gate_showPush (adSlot : option ref) :
  framed (extendsTrace showPush) (shouldSendRequestToDfp E adSlot).
Proof.
  unfold shouldSendRequestToDfp, bindHtmlElement. show_go.
  apply gateP_showPush.
Qed.

Lemma show_showPush (r : ref) :
  framed (CR := CR) (extendsTrace showPush) (show E r).
Proof.
  unfold show, isInterstitial. show_go.
  all: try (apply emitsP_ret || apply emitsP_throw).
  all: emitsP_go.
Qed.

Lemma showDeferred_trace (k : string) :
  framed (extendsTrace showPush) (showDeferred E k).
Proof.
  unfold showDeferred. show_go;
    first [apply gate_showPush | apply show_showPush].
Qed.

Lemma showIfAdmitted_trace (p k : string) :
  framed (extendsTrace showPush) (showIfAdmitted E p k).
Proof.
  unfold showIfAdmitted. show_go;
    first [apply gate_showPush | apply show_showPush].
Qed.

Lemma showDeferred_deferred (k : string) : framed sameDeferred (showDeferred E k).
Proof.
  unfold showDeferred.
  framed_go (sameDeferred_refl (CR := CR)) (sameDeferred_trans (CR := CR))
    deferred_side; first [apply gate_deferred | apply show_deferred].
Qed.

Lemma showIfAdmitted_deferred (p k : string) :
  framed sameDeferred (showIfAdmitted E p k).
Proof.
  unfold showIfAdmitted.
  framed_go (sameDeferred_refl (CR := CR)) (sameDeferred_trans (CR := CR))
    deferred_side; first [apply gate_deferred | apply show_deferred].
Qed.

Lemma sameFlags_refl (w : world CR) : sameFlags w w.
Proof. intros r. reflexivity. Qed.

Lemma sameFlags_trans (w1 w2 w3 : world CR) :
  sameFlags w1 w2 -> sameFlags w2 w3 -> sameFlags w1 w3.
Proof. intros H1 H2 r. rewrite H2. apply H1. Qed.

Ltac flags_side :=
  intros ?; cbn;
  repeat match goal with
         | |- context [Nat.eqb ?a ?b] => destruct (Nat.eqb_spec a b) as [->|]
         end;
  reflexivity.

Ltac flags_go := framed_go sameFlags_refl sameFlags_trans flags_side.

Lemma gate_flags (adSlot : option ref) :
  framed sameFlags (shouldSendRequestToDfp E adSlot).
Proof. unfold shouldSendRequestToDfp, bindHtmlElement. flags_go. Qed.

Lemma defineSlot_flags (r : ref) : framed (CR := CR) sameFlags (defineSlot E r).
Proof.
  unfold defineSlot, defineSlotAsMaavaron, defineSlotAsRegular, defineMaavaron.
  flags_go; first [apply gate_flags | unfold addSizeFor; flags_go].
Qed.

Lemma show_flags (r : ref) : framed (CR := CR) sameFlags (show E r).
Proof. unfold show. flags_go. Qed.

Lemma showCommand_flags (r : ref) : framed (CR := CR) sameFlags (showCommand E r).
Proof.
  unfold showCommand, setInterstitialShowingData. flags_go.
  apply defineSlot_flags.
Qed.

Lemma showCommand_deferred (r : ref) :
  framed (CR := CR) sameDeferred (showCommand E r).
Proof.
  unfold showCommand, setInterstitialShowingData.
  framed_go (sameDeferred_refl (CR := CR)) (sameDeferred_trans (CR := CR))
    deferred_side.
  apply defineSlot_deferred.
Qed.

Lemma showDeferred_flags (k : string) : framed sameFlags (showDeferred E k).
Proof.
  unfold showDeferred. flags_go; first [apply gate_flags | apply show_flags].
Qed.

Lemma showIfAdmitted_flags (p k : string) : framed sameFlags (showIfAdmitted E p k).
Proof.
  unfold showIfAdmitted. flags_go; first [apply gate_flags | apply show_flags].
Qed.

Lemma grows_bind_after {A B} (m : M CR A) (f : A -> M CR B) (ev : event)
  (w : world CR) :
  (forall a, framed (extendsTrace (fun _ => True)) (f a)) ->
  (exists l, trace (snd (m w)) = trace w ++ ev :: l) ->
  exists l, trace (snd ((m ≫= f) w)) = trace w ++ ev :: l.
Proof.
  intros Hf [l Hl]. rewrite run_bind.
  destruct (m w) as [[a|e] w1]; cbn [snd] in *; [|exists l; exact Hl].
  destruct (Hf a w1) as (l2 & Hl2 & _). rewrite Hl2, Hl, <- app_assoc.
  eexists. reflexivity.
Qed.

Ltac command_grows_go :=
  framed_go (extendsTrace_refl (CR := CR) (fun _ => True))
            (extendsTrace_trans (CR := CR) (fun _ => True))
    ltac:(first [ solve [ exists []; split; [cbn; symmetry; apply app_nil_r|constructor] ]
                | solve [ eexists [_]; split; [reflexivity|repeat constructor] ]
                | apply emitsP_extends; apply emitsP_any ]).

(** When the slot is deferred or has no backend slot, the command starts
    with the call of [defineSlot]. *)
Lemma showCommand_defines (r : ref) (w : world CR) :
  deferredSlot (heap w r) || negb (slotTruthy (slot (heap w r))) = true ->
  exists l, trace (snd (showCommand E r w))
            = trace w ++ Invoked "defineSlot" (id (heap w r)) :: l.
Proof.
  intros Hcond. unfold showCommand. rewrite run_bind, run_gets. cbn beta.
  rewrite Hcond.
  apply grows_bind_after.
  { intros _. unfold setInterstitialShowingData. command_grows_go. }
  apply grows_bind_after.
  { intros d. command_grows_go. }
  rewrite run_call.
  destruct (defineSlot_trace E r (emit [Invoked "defineSlot" (id (heap w r))] w))
    as (l1 & Htr1 & _).
  rewrite Htr1. cbn [trace emit]. rewrite <- app_assoc. eexists. reflexivity.
Qed.

(** Otherwise the command defines nothing: it queues the write of the
    throttle record, where the code does, and calls [display]. *)
Lemma showCommand_displays (r : ref) (w : world CR) :
  deferredSlot (heap w r) || negb (slotTruthy (slot (heap w r))) = false ->
  extendsTrace displayOnly w (snd (showCommand E r w)).
Proof.
  intros Hcond. unfold showCommand, setInterstitialShowingData.
  rewrite run_bind, run_gets. cbn beta. rewrite Hcond.
  match goal with
  | |- extendsTrace ?Q w (snd (?m w)) =>
      cut (framed (extendsTrace Q) m); [intros H; exact (H w)|]
  end.
  framed_go (extendsTrace_refl (CR := CR) displayOnly)
            (extendsTrace_trans (CR := CR) displayOnly)
    ltac:(first [ solve [ exists []; split; [cbn; symmetry; apply app_nil_r|constructor] ]
                | solve [ eexists [_]; split; [reflexivity|repeat constructor] ] ]).
Qed.
(** X21. [showAllDeferredSlots] and [showAllSlots] themselves call the ad
    service only to push [show] commands, with the targeting that goes with
    them; they leave the set of deferred ids and the [deferredSlot] flag of
    every slot as they are, whether they return or throw.  The command that
    [show] pushes, once the ad service runs it, leaves that set and those
    flags alone as well; it starts with a call of [defineSlot] when the slot
    is deferred or has no backend slot, and otherwise defines nothing: it
    schedules the throttle record where the code does and calls [display]. *)
Theorem show_loops_only_show (priorityFilter : string) (keys : list string)
  (r : ref) (w : world CR) :
  (extendsTrace showPush w (snd (showAllDeferredSlots E w))
   /\ deferredSlots (snd (showAllDeferredSlots E w)) = deferredSlots w
   /\ sameFlags w (snd (showAllDeferredSlots E w)))
  /\ (extendsTrace showPush w (snd (showAllSlots E priorityFilter keys w))
      /\ deferredSlots (snd (showAllSlots E priorityFilter keys w)) = deferredSlots w
      /\ sameFlags w (snd (showAllSlots E priorityFilter keys w)))
  /\ (deferredSlots (snd (showCommand E r w)) = deferredSlots w
      /\ sameFlags w (snd (showCommand E r w)))
  /\ (deferredSlot (heap w r) || negb (slotTruthy (slot (heap w r))) = true ->
      exists l, trace (snd (showCommand E r w))
                = trace w ++ Invoked "defineSlot" (id (heap w r)) :: l)
  /\ (deferredSlot (heap w r) || negb (slotTruthy (slot (heap w r))) = false ->
      extendsTrace displayOnly w (snd (showCommand E r w))).
Proof.
  split; [|split; [|split; [|split]]].
  - split; [|split]; revert w.
    + change (framed (extendsTrace showPush) (showAllDeferredSlots E)).
      unfold showAllDeferredSlots. show_go. apply showDeferred_trace.
    + change (framed sameDeferred (showAllDeferredSlots E)).
      unfold showAllDeferredSlots.
      framed_go (sameDeferred_refl (CR := CR)) (sameDeferred_trans (CR := CR))
        deferred_side. apply showDeferred_deferred.
    + change (framed sameFlags (showAllDeferredSlots E)).
      unfold showAllDeferredSlots. flags_go. apply showDeferred_flags.
  - split; [|split]; revert w.
    + change (framed (extendsTrace showPush) (showAllSlots E priorityFilter keys)).
      unfold showAllSlots. show_go. apply showIfAdmitted_trace.
    + change (framed sameDeferred (showAllSlots E priorityFilter keys)).
      unfold showAllSlots.
      framed_go (sameDeferred_refl (CR := CR)) (sameDeferred_trans (CR := CR))
        deferred_side. apply showIfAdmitted_deferred.
    + change (framed sameFlags (showAllSlots E priorityFilter keys)).
      unfold showAllSlots. flags_go. apply showIfAdmitted_flags.
  - split; [apply showCommand_deferred | apply showCommand_flags].
  - apply showCommand_defines.
  - apply showCommand_displays.
Qed.
End ShowLoops.

Lemma show_loops_only_show_witness :
  (deferredSlot (heap deferredWorld 0%nat)
   || negb (slotTruthy (slot (heap deferredWorld 0%nat))) = true
   /\ exists l, trace (snd (showCommand samplePage 0%nat deferredWorld))
                = trace deferredWorld ++ Invoked "defineSlot" "page.side" :: l)
  /\ (deferredSlot (heap definedWorld 0%nat)
      || negb (slotTruthy (slot (heap definedWorld 0%nat))) = false
      /\ extendsTrace displayOnly definedWorld
           (snd (showCommand samplePage 0%nat definedWorld))).
Proof.
  split; (split; [reflexivity|]).
  - exact (proj1 (proj2 (proj2 (proj2
             (show_loops_only_show samplePage "" [] 0%nat deferredWorld))))
             eq_refl).
  - exact (proj2 (proj2 (proj2 (proj2
             (show_loops_only_show samplePage "" [] 0%nat definedWorld))))
             eq_refl).
Defined.


Section RenderEnded.
Context {CR : Type} `{!ConflictResolver CR}.
Variable E : env.

Lemma sameResolved_refl (w : world CR) : sameResolved w w.
Proof. intros r. split; reflexivity. Qed.

Lemma sameResolved_trans (w1 w2 w3 : world CR) :
  sameResolved w1 w2 -> sameResolved w2 w3 -> sameResolved w1 w3.
Proof.
  intros H1 H2 r. destruct (H1 r) as [Ha Hb], (H2 r) as [Hc Hd].
  split; congruence.
Qed.

Ltac resolved_side :=
  let r0 := fresh "r0" in
  intros r0; cbn;
  repeat match goal with
         | |- context [Nat.eqb r0 ?r] => destruct (Nat.eqb_spec r0 r) as [->|]
         end;
  split; reflexivity.

Ltac resolved_go :=
  framed_go sameResolved_refl sameResolved_trans resolved_side.

Lemma gate_resolved (adSlot : option ref) :
  framed sameResolved (shouldSendRequestToDfp E adSlot).
Proof. unfold shouldSendRequestToDfp, bindHtmlElement. resolved_go. Qed.

Lemma defineAndShow_resolved (r : ref) :
  framed (CR := CR) sameResolved (defineAndShow E r).
Proof.
  unfold defineAndShow, defineSlot, defineSlotAsMaavaron, defineSlotAsRegular,
    defineMaavaron, show.
  resolved_go;
    first [ apply gate_resolved
          | unfold addSizeFor; resolved_go ].
Qed.

Lemma release_resolved (r : ref) :
  framed sameResolved (releaseSlotDependencies E r).
Proof.
  unfold releaseSlotDependencies, releaseSlotDependenciesTry, hideBlocked, hide,
    releaseDeferred.
  resolved_go;
    first [ apply gate_resolved | apply defineAndShow_resolved ].
Qed.

(** X22. The listener of [slotRenderEnded] never throws.  For an id that is
    not registered it does nothing.  For a registered slot it records the
    current breakpoint and the size of the render, the empty size when the
    render was empty, and what it recorded is still on the slot after the
    release of the slots that waited, whatever the release did. *)
Theorem slotRenderEnded_records (i : string) (isEmpty : bool)
  (size : option resolvedSize) (w : world CR) :
  (adSlots w !! i = None -> slotRenderEnded E i isEmpty size w = (Ret tt, w))
  /\ (forall r, adSlots w !! i = Some r ->
        exists w', slotRenderEnded E i isEmpty size w = (Ret tt, w')
          /\ lastResolvedWithBreakpoint (heap w' r) = Some (currentBreakpoint E)
          /\ lastResolvedSize (heap w' r)
             = (if isEmpty then Some EMPTY_SIZE else size)).
Proof.
  unfold slotRenderEnded. split.
  - intros Hnone. rewrite run_bind, run_gets, Hnone. reflexivity.
  - intros r Hr. rewrite run_bind, run_gets, Hr, run_bind.
    unfold update at 1. rewrite run_modify.
    destruct isEmpty.
    + rewrite run_bind. unfold update at 1. rewrite run_modify, run_bind, run_call.
      unfold hide at 1. rewrite run_bind, run_gets. unfold logM. rewrite run_modify.
      match goal with
      | |- context [releaseSlotDependencies E r ?w2] =>
          pose proof (release_returns E r w2) as Hret;
          pose proof (release_resolved r w2 r) as [Hsize Hbp];
          destruct (releaseSlotDependencies E r w2) as [o w']
      end.
      cbn [fst snd] in *. subst o. exists w'. split; [reflexivity|].
      rewrite Hsize, Hbp. cbn. rewrite ?(Nat.eqb_refl r). cbn.
      rewrite ?(Nat.eqb_refl r). split; reflexivity.
    + match goal with
      | |- context [releaseSlotDependencies E r ?w2] =>
          pose proof (release_returns E r w2) as Hret;
          pose proof (release_resolved r w2 r) as [Hsize Hbp];
          destruct (releaseSlotDependencies E r w2) as [o w']
      end.
      cbn [fst snd] in *. subst o. exists w'. split; [reflexivity|].
      rewrite Hsize, Hbp. cbn. rewrite ?(Nat.eqb_refl r). split; reflexivity.
Qed.
End RenderEnded.

Lemma slotRenderEnded_records_witness :
  adSlots (worldOf (slotOf "page.top" "all")) !! "page.top" = Some 0%nat
  /\ exists w',
       slotRenderEnded samplePage "page.top" true None (worldOf (slotOf "page.top" "all"))
       = (Ret tt, w')
       /\ lastResolvedWithBreakpoint (heap w' 0%nat) = Some (currentBreakpoint samplePage)
       /\ lastResolvedSize (heap w' 0%nat) = Some EMPTY_SIZE.
Proof.
  split; [reflexivity|].
  exact (proj2 (slotRenderEnded_records samplePage "page.top" true None
                  (worldOf (slotOf "page.top" "all"))) 0%nat eq_refl).
Defined.

(** ** Defining an admitted slot *)

Section DefineAdmitted.
Context {CR : Type} `{!ConflictResolver CR}.
Variable E : env.

Lemma isOutOfPage_run (s : AdSlot) (t : string) :
  type s = Some t ->
  exists b : bool, forall v : view CR, isOutOfPage E s v = ([], Ret b).
Proof.
  intros Ht. unfold isOutOfPage. rewrite Ht.
  destruct (isMobile E); [eexists; reflexivity|].
  destruct (String.eqb t adTypes.maavaron); [eexists; reflexivity|].
  destruct (String.eqb t adTypes.popunder); [eexists; reflexivity|].
  destruct (String.eqb t adTypes.talkback); [eexists; reflexivity|].
  destruct (String.eqb t adTypes.regular); eexists; reflexivity.
Qed.

(** What [defineSlot] does once the backend was asked for the slot. *)
Lemma afterDefine_grows (r : ref) (s : AdSlot) :
  framed (CR := CR) (extendsTrace (fun _ => True))
    (if gptDefines E (id s) then
       (if responsive s then
          match responsiveAdSizeMapping s with
          | None => throwM (TypeError "Object.keys(undefined)")
          | Some m => forOf (map fst m) (addSizeFor r)
          end ;;
          logM (Gpt "slot.defineSizeMapping" (id s))
        else skip) ;;
       logM (Gpt "slot.addService" (id s)) ;;
       outOfPage'' ← liftP (isOutOfPage E s);
       (if negb outOfPage'' then logM (Gpt "slot.setCollapseEmptyDiv" (id s))
        else skip) ;;
       mret DSlot
     else mret DNull).
Proof.
  framed_go (extendsTrace_refl (CR := CR) (fun _ => True))
            (extendsTrace_trans (CR := CR) (fun _ => True))
    ltac:(first [ solve [ exists []; split; [cbn; symmetry; apply app_nil_r|constructor] ]
                | solve [ eexists [_]; split; [reflexivity|repeat constructor] ]
                | apply emitsP_extends; apply emitsP_any ]).
  unfold addSizeFor.
  framed_go (extendsTrace_refl (CR := CR) (fun _ => True))
            (extendsTrace_trans (CR := CR) (fun _ => True))
    ltac:(first [ solve [ exists []; split; [cbn; symmetry; apply app_nil_r|constructor] ]
                | solve [ eexists [_]; split; [reflexivity|repeat constructor] ]
                | apply emitsP_extends; apply emitsP_any ]).
Qed.

(** X23. [defineSlot] on a slot with a type asks the ad service to define
    the slot exactly when the gate admits it; the call is
    [defineOutOfPageSlot] or [defineSlot], and it stays in the trace whatever
    happens afterwards. *)
Theorem defineSlot_defines_iff_admitted (r : ref) (w : world CR) (t : string) :
  type (heap w r) = Some t ->
  exists l, trace (snd (defineSlot E r w)) = trace w ++ l
    /\ (In (Gpt "defineSlot" (id (heap w r))) l
        \/ In (Gpt "defineOutOfPageSlot" (id (heap w r))) l
        <-> gateConditions E (boundSlot E (heap w r)) (view_of w)).
Proof.
  intros Ht. rewrite defineSlot_regular, Ht. unfold defineSlotAsRegular.
  rewrite run_bind, run_call.
  set (w0 := emit [Invoked "shouldSendRequestToDfp" (id (heap w r))] w).
  destruct (gate_admits_exactly E r w0) as (x & Hx & Hiff).
  destruct (gate_run E r w0) as (w1 & lg & _ & Hgate & Hlg & Hheap & Htr & _).
  change (heap w0 r) with (heap w r) in *.
  change (view_of w0) with (view_of w) in *.
  change (trace w0) with (trace w ++ [Invoked "shouldSendRequestToDfp" (id (heap w r))])
    in Htr.
  rewrite Hgate in Hx |- *. cbn [fst] in Hx. injection Hx as Hx. rewrite Hx.
  destruct (truthy x) eqn:Hadm; cbn [negb].
  - rewrite run_bind, run_gets. cbn [heap emit]. rewrite Hheap.
    assert (Hty : type (boundSlot E (heap w r)) = Some t).
    { rewrite boundSlot_type. exact Ht. }
    destruct (isOutOfPage_run (boundSlot E (heap w r)) t Hty) as [oop Hoop].
    rewrite run_bind, run_liftP, Hoop. cbn [fst snd].
    rewrite run_bind, run_liftP, Hoop. cbn [fst snd].
    rewrite !emit_nil, run_bind.
    assert (Hskip : (if negb oop then skip
                     else liftP (isInterstitial E (boundSlot E (heap w r))) ;; skip)
                      (emit lg w1) = (Ret tt, emit lg w1)).
    { destruct oop; [|reflexivity]. cbn [negb].
      rewrite run_bind, run_liftP, isInterstitial_run, Hty. cbn [fst snd].
      rewrite emit_nil. reflexivity. }
    rewrite Hskip, run_bind. unfold logM at 1. rewrite run_modify.
    match goal with
    | |- context [snd (?rest ?w3)] =>
        destruct (afterDefine_grows r (boundSlot E (heap w r)) w3) as (l2 & Hl2 & _)
    end.
    rewrite Hl2. unfold emit. cbn [trace]. rewrite Htr, <- !app_assoc, boundSlot_id.
    eexists. split; [reflexivity|]. split.
    + intros _. apply Hiff. reflexivity.
    + intros _. destruct oop.
      * right. apply in_or_app. right. apply in_or_app. right.
        apply in_or_app. left. left. reflexivity.
      * left. apply in_or_app. right. apply in_or_app. right.
        apply in_or_app. left. left. reflexivity.
  - cbn [snd]. unfold emit. cbn [trace]. rewrite Htr, <- app_assoc.
    eexists. split; [reflexivity|]. split.
    + intros [Hin|Hin]; exfalso; apply in_app_or in Hin;
        destruct Hin as [[Hin|[]]|Hin];
        first [discriminate Hin | exact (notGpt_not_in _ _ _ Hlg Hin)].
    + intros Hc. apply Hiff in Hc. discriminate.
Qed.
End DefineAdmitted.

Lemma defineSlot_defines_iff_admitted_witness :
  type (heap (worldOf (slotOf "page.top" "all")) 0%nat) = Some adTypes.regular
  /\ exists l,
       trace (snd (defineSlot samplePage 0%nat (worldOf (slotOf "page.top" "all"))))
       = [] ++ l
       /\ (In (Gpt "defineSlot" "page.top") l
           \/ In (Gpt "defineOutOfPageSlot" "page.top") l
           <-> gateConditions samplePage
                 (boundSlot samplePage (slotOf "page.top" "all"))
                 (view_of (worldOf (slotOf "page.top" "all")))).
Proof.
  split; [reflexivity|].
  exact (defineSlot_defines_iff_admitted samplePage 0%nat
           (worldOf (slotOf "page.top" "all")) adTypes.regular eq_refl).
Defined.
